(** * The incremental translation orchestrator of E1epack, embedded in Rocq

    Shallow embedding of [.github/scripts/translator]: the placeholder
    validator, the per-request retry state machine, the batch scheduler
    ([translator.py]), the context window builder ([file_ops.py]), the
    change detector ([git_changes.py]) and the cleanup sweep
    ([translation_flow.py]).

    Conventions.
    - A Python [str] is the list of its code points ([pystr]); literals are
      written as UTF-8 Rocq strings and decoded by [py].
    - A Python [dict] is an association list in insertion order; its keys
      are pairwise distinct, which the lemmas that need it assume as
      [NoDup].
    - A Python [set] is a [gset]; the order in which a set is iterated is
      unspecified in Python and is a parameter of the sections that
      iterate over one.
    - Library functions whose code is not part of the repository
      ([json.loads], the f-string rendering of an error list) are section
      variables. *)

From Stdlib Require Import QArith.
From stdpp Require Import gmap list sorting strings.

Local Open Scope N_scope.

(** ** Python strings *)

Abbreviation pystr := (list N).

(** UTF-8 decoding, used for literals only. *)
Fixpoint decode_utf8 (bs : list N) : pystr :=
  match bs with
  | [] => []
  | b0 :: r0 =>
    if b0 <? 128 then b0 :: decode_utf8 r0 else
    match r0 with
    | [] => [b0]
    | b1 :: r1 =>
      if b0 <? 224 then ((b0 - 192) * 64 + (b1 - 128)) :: decode_utf8 r1 else
      match r1 with
      | [] => [b0; b1]
      | b2 :: r2 =>
        if b0 <? 240
        then ((b0 - 224) * 4096 + (b1 - 128) * 64 + (b2 - 128)) :: decode_utf8 r2
        else
        match r2 with
        | [] => [b0; b1; b2]
        | b3 :: r3 =>
          ((b0 - 240) * 262144 + (b1 - 128) * 4096 + (b2 - 128) * 64 + (b3 - 128))
            :: decode_utf8 r3
        end
      end
    end
  end.

Definition py (s : string) : pystr :=
  decode_utf8 (Ascii.N_of_ascii <$> String.list_ascii_of_string s).

(** [s.startswith(p)] *)
Fixpoint startswith (p s : pystr) : bool :=
  match p, s with
  | [], _ => true
  | _ :: _, [] => false
  | a :: p', b :: s' => bool_decide (a = b) && startswith p' s'
  end.

(** [s.endswith(p)] *)
Definition endswith (p s : pystr) : bool := startswith (reverse p) (reverse s).

(** [needle in hay] on strings. *)
Fixpoint contains (needle hay : pystr) : bool :=
  startswith needle hay ||
  match hay with
  | [] => false
  | _ :: hay' => contains needle hay'
  end.

(** The code points for which [str.isspace] holds; [str.strip] removes
    them from both ends. *)
Definition is_space (c : N) : bool :=
  bool_decide (c ∈ [9; 10; 11; 12; 13; 28; 29; 30; 31; 32; 133; 160; 5760;
                    8192; 8193; 8194; 8195; 8196; 8197; 8198; 8199; 8200;
                    8201; 8202; 8232; 8233; 8239; 8287; 12288]).

Fixpoint lstrip (s : pystr) : pystr :=
  match s with
  | c :: s' => if is_space c then lstrip s' else s
  | [] => []
  end.

Definition strip (s : pystr) : pystr := reverse (lstrip (reverse (lstrip s))).

(** [sep.join(parts)] *)
Fixpoint join (sep : pystr) (parts : list pystr) : pystr :=
  match parts with
  | [] => []
  | [p] => p
  | p :: rest => p ++ sep ++ join sep rest
  end.

(** ** Regular expression [%(?:\d+\$)?s]

    In a [str] pattern [\d] matches the code points of Unicode category Nd:
    the blocks of ten starting at the code points below, and the fifty
    mathematical digits from U+1D7CE. *)
Definition decimal_blocks : list N :=
  [48; 1632; 1776; 1984; 2406; 2534; 2662; 2790; 2918; 3046; 3174; 3302;
   3430; 3558; 3664; 3792; 3872; 4160; 4240; 6112; 6160; 6470; 6608; 6784;
   6800; 6992; 7088; 7232; 7248; 42528; 43216; 43264; 43472; 43504; 43600;
   44016; 65296; 66720; 68912; 69734; 69872; 69942; 70096; 70384; 70736;
   70864; 71248; 71360; 71472; 71904; 72016; 72784; 73040; 73120; 92768;
   92864; 93008; 123200; 123632; 125264; 130032].

Definition is_decimal (c : N) : bool :=
  existsb (fun b => (b <=? c) && (c <? b + 10)) decimal_blocks
  || ((120782 <=? c) && (c <? 120832)).

Definition PERCENT : N := 37.
Definition DOLLAR : N := 36.
Definition LOWER_S : N := 115.

(** The longest prefix of digits, and what follows it ([\d+] is greedy,
    and giving back digits never helps: the next thing wanted is [$]). *)
Fixpoint span_decimal (s : pystr) : pystr * pystr :=
  match s with
  | c :: s' =>
    if is_decimal c then let '(ds, rest) := span_decimal s' in (c :: ds, rest)
    else ([], s)
  | [] => ([], [])
  end.

(** The match of the pattern anchored at the head of [s], if any. *)
Definition match_placeholder (s : pystr) : option pystr :=
  match s with
  | c :: r =>
    if bool_decide (c = PERCENT) then
      match span_decimal r with
      | (d :: ds, c1 :: c2 :: _) =>
        if bool_decide (c1 = DOLLAR) && bool_decide (c2 = LOWER_S)
        then Some (PERCENT :: (d :: ds) ++ [DOLLAR; LOWER_S])
        else None
      | (d :: ds, _) => None
      | ([], c1 :: _) =>
        if bool_decide (c1 = LOWER_S) then Some [PERCENT; LOWER_S] else None
      | ([], []) => None
      end
    else None
  | [] => None
  end.

(** [re.findall(pattern, s)]: the matches from left to right, each search
    resuming where the previous match ended. [skip] counts the characters
    of the current match that are still to be passed over. *)
Fixpoint findall_from (skip : nat) (s : pystr) : list pystr :=
  match s with
  | [] => []
  | _ :: s' =>
    match skip with
    | S k => findall_from k s'
    | O =>
      match match_placeholder s with
      | Some tok => tok :: findall_from (Nat.pred (length tok)) s'
      | None => findall_from 0 s'
      end
    end
  end.

Definition findall_placeholders (s : pystr) : list pystr := findall_from 0 s.

(** The strings the pattern matches: a percent sign, optionally a
    positive number of digits and a dollar sign, and the letter s. *)
Definition placeholder_token (tok : pystr) : Prop :=
  tok = [PERCENT; LOWER_S]
  ∨ ∃ digits, digits ≠ [] ∧ Forall (fun c => is_decimal c = true) digits
              ∧ tok = PERCENT :: digits ++ [DOLLAR; LOWER_S].

(** ** [sorted] on lists of strings

    Python orders strings lexicographically by code point. The result of
    [sorted] is determined by the multiset of its argument, whichever
    stable sort computes it. *)
Fixpoint str_leb (a b : pystr) : bool :=
  match a, b with
  | [], _ => true
  | _ :: _, [] => false
  | x :: a', y :: b' => (x <? y) || (bool_decide (x = y) && str_leb a' b')
  end.

Definition str_le (a b : pystr) : Prop := str_leb a b = true.

#[global] Instance str_le_dec : RelDecision str_le.
Proof. intros a b. unfold str_le. apply _. Defined.

Definition sorted (l : list pystr) : list pystr := merge_sort str_le l.

(** [DeepSeekTranslator.validate_placeholder_consistency] *)
Definition validate_placeholder_consistency (original_text translated_text : pystr) : bool :=
  let original_placeholders := findall_placeholders original_text in
  let translated_placeholders := findall_placeholders translated_text in
  bool_decide (sorted original_placeholders = sorted translated_placeholders).

(** ** Dictionaries

    An insertion-ordered association list. [dict_set] is [d[k] = v]: an
    existing key keeps its position, a new key goes last. *)
Abbreviation dict V := (list (pystr * V)).

Section Dict.
Context {V : Type}.

Fixpoint dict_get (k : pystr) (d : dict V) : option V :=
  match d with
  | [] => None
  | (k', v) :: d' => if bool_decide (k' = k) then Some v else dict_get k d'
  end.

Definition dict_keys (d : dict V) : list pystr := d.*1.

Definition dict_has (k : pystr) (d : dict V) : bool := bool_decide (k ∈ dict_keys d).

Fixpoint dict_set (k : pystr) (v : V) (d : dict V) : dict V :=
  match d with
  | [] => [(k, v)]
  | (k', v') :: d' =>
    if bool_decide (k' = k) then (k, v) :: d' else (k', v') :: dict_set k v d'
  end.

(** [del d[k]] for a key that is present; nothing happens otherwise. *)
Definition dict_del (k : pystr) (d : dict V) : dict V :=
  filter (fun kv => kv.1 ≠ k) d.

(** [dict(items)] *)
Definition dict_of_items (items : list (pystr * V)) : dict V :=
  foldl (fun d kv => dict_set kv.1 kv.2 d) [] items.

(** [d.update(other)], as a new value. *)
Definition dict_update (d other : dict V) : dict V :=
  foldl (fun d kv => dict_set kv.1 kv.2 d) d other.

(** [set(d.keys())] *)
Definition keyset (d : dict V) : gset pystr := list_to_set (dict_keys d).

End Dict.

(** The order in which Python iterates over a set is not specified: it is
    some enumeration of the elements, each of them once. *)
Definition iteration_order (set_order : gset pystr → list pystr) : Prop :=
  ∀ X, set_order X ≡ₚ elements X.

(** ** Values

    The values of a localization file, as far as the code tells them
    apart: strings, and the other JSON values (integers, null and arrays of
    strings stand for them; [==] on these is structural equality). *)
Inductive json : Type :=
| JStr (s : pystr)
| JInt (n : Z)
| JNull
| JArr (l : list pystr).

#[global] Instance json_eq_dec : EqDecision json.
Proof. solve_decision. Defined.

(** [isinstance(v, str)] *)
Definition is_str (v : json) : bool :=
  match v with JStr _ => true | _ => false end.

(** A value of the merged reference, and of a request payload: one string,
    or the list of the candidate strings of a key that several source files
    define differently. The entry of the marker key holds the list of the
    core keys. *)
Inductive srcval : Type :=
| Single (s : pystr)
| Candidates (l : list pystr).

#[global] Instance srcval_eq_dec : EqDecision srcval.
Proof. solve_decision. Defined.

Definition CORE_KEYS : pystr := py "__core_keys__".

(** What [json.loads] makes of a document: a [JSONDecodeError] with its
    message, an object, or a value of another type (with the name of its
    type and its truth value). *)
Inductive json_document : Type :=
| JDecodeError (msg : pystr)
| JObject (d : dict json)
| JOther (type_name : pystr) (truthy : bool).

(** ** The validator *)
Inductive validation_error : Type :=
| MissingKeys (ks : list pystr)
| ExtraKeys (ks : list pystr)
| NotAString (k : pystr) (v : json)
| PlaceholderMismatch (k : pystr) (reference_value translated_value : pystr).

(** The source value the placeholders are read from. *)
Definition reference_value (original_value : srcval) : pystr :=
  match original_value with
  | Candidates (first :: _) => first
  | Candidates [] => []
  | Single s => s
  end.

(** The key an error message is about, if it is about one key. *)
Definition error_key (e : validation_error) : option pystr :=
  match e with
  | NotAString k _ | PlaceholderMismatch k _ _ => Some k
  | MissingKeys _ | ExtraKeys _ => None
  end.

Section Validator.
(** The order in which Python iterates over a set. *)
Variable set_order : gset pystr → list pystr.

(** One round of the loop over [original_keys & translated_keys]. *)
Definition check_key (original : dict srcval) (translated : dict json)
    (key : pystr) : list validation_error :=
  match dict_get key translated, dict_get key original with
  | Some (JStr translated_value), Some original_value =>
    if validate_placeholder_consistency (reference_value original_value) translated_value
    then []
    else [PlaceholderMismatch key (reference_value original_value) translated_value]
  | Some v, _ => [NotAString key v]
  | None, _ => [NotAString key JNull]
  end.

(** [DeepSeekTranslator.validate_translation_result] *)
Definition validate_translation_result (original : dict srcval)
    (translated : dict json) : list validation_error :=
  let original_keys := keyset original in
  let translated_keys := keyset translated in
  let key_errors :=
    if bool_decide (original_keys ≠ translated_keys) then
      let missing_keys := original_keys ∖ translated_keys in
      let extra_keys := translated_keys ∖ original_keys in
      (if bool_decide (missing_keys ≠ ∅) then [MissingKeys (set_order missing_keys)] else [])
      ++ (if bool_decide (extra_keys ≠ ∅) then [ExtraKeys (set_order extra_keys)] else [])
    else [] in
  key_errors ++ mjoin (check_key original translated <$> set_order (original_keys ∩ translated_keys)).

End Validator.

(** ** Configuration ([config.py]) *)
Definition BATCH_SIZE : nat := 40.
Definition MAX_CONTEXT : nat := 10.
Definition MAX_INDIVIDUAL_RETRIES : nat := 10.
Definition CONTEXT_SIZE : nat := 4.
Definition DEFAULT_TEMPERATURE : Q := 1.3%Q.
Definition TEMPERATURE_ADJUSTMENTS : list Q := [1.3; 1.3; 1.2; 1.0; 0.7]%Q.

(** ** The request execution engine ([translator.py]) *)

(** The substring by which [execute_translation_request] recognises a
    validation failure. *)
Definition VALIDATION_MARKER : pystr := py "翻译验证失败".

Record TranslationRequest : Type := {
  request_id : nat;
  texts : dict srcval;
  target_lang : pystr;
  target_lang_name : pystr;
  namespace : pystr;
  batch_id : nat;
  total_batches : nat;
  batch_size : nat
}.

(** What one HTTP round trip comes to: an exception raised up to and
    including the reading of the envelope (connection, timeout, status,
    empty or malformed body), with its [str(e)], or the text of the model's
    reply. *)
Inductive response : Type :=
| TransportFailure (msg : pystr)
| Reply (content : pystr).

(** The service as one request sees it: the response to the attempt with
    the given number, temperature and model variant
    ([non_thinking_mode]). *)
Definition service : Type := nat → Q → bool → response.

Inductive outcome : Type :=
| Returned (result : dict json)
| Raised (error_str : pystr).

(** The clean-up of the reply before it is parsed. *)
Definition clean_content (content : pystr) : pystr :=
  let c0 := strip content in
  let c1 := if startswith (py "```json") c0 then drop 7 c0 else c0 in
  let c2 := if startswith (py "```") c1 then drop 3 c1 else c1 in
  let c3 := if endswith (py "```") c2 then take (length c2 - 3) c2 else c2 in
  strip c3.

(** The entries of a request that are sent to the service: all but the
    marker. *)
Definition texts_to_translate (texts : dict srcval) : dict srcval :=
  filter (fun kv => kv.1 ≠ CORE_KEYS) texts.

(** The three ways an attempt can end for the loop. *)
Inductive verdict : Type :=
| Success (result : dict json)
| ValidationFailure
| ApiFailure.

(** The reading the loop makes of the outcome of [translate_batch]: a
    non-empty result is a success; an empty result, and an exception whose
    text contains the marker, count as failed validations; every other
    exception counts as a failed API call. *)
Definition classify (o : outcome) : verdict :=
  match o with
  | Returned [] => ValidationFailure
  | Returned result => Success result
  | Raised error_str =>
    if contains VALIDATION_MARKER error_str then ValidationFailure else ApiFailure
  end.

(** The escalation as the specification words it: the default temperature
    and the configured model variant while no validation has failed; the
    n-th entry of the schedule and the configured variant after n = 1..5
    failed validations; from the sixth on the other variant, the schedule
    starting over. *)
Definition retry_schedule (configured_mode : bool) (validation_failures : nat)
    : option Q * bool :=
  if bool_decide (validation_failures = 0)%nat then (Some DEFAULT_TEMPERATURE, configured_mode)
  else if bool_decide (validation_failures ≤ 5)%nat
  then (TEMPERATURE_ADJUSTMENTS !! (validation_failures - 1)%nat, configured_mode)
  else (TEMPERATURE_ADJUSTMENTS !! ((validation_failures - 6) `mod` 5)%nat,
        negb configured_mode).

Section Engine.
Variable set_order : gset pystr → list pystr.
(** [json.loads] *)
Variable json_loads : pystr → json_document.
(** The text of a validation error (an f-string over [list(...)] and [type(...)]). *)
Variable render_error : validation_error → pystr.

(** [DeepSeekTranslator.translate_batch], given the response the service
    makes to the call. *)
Definition translate_batch (texts : dict srcval) (resp : response) : outcome :=
  match texts with
  | [] => Returned []
  | _ =>
    match texts_to_translate texts with
    | [] => Returned []
    | _ =>
      match resp with
      | TransportFailure msg => Raised msg
      | Reply content =>
        match json_loads (clean_content content) with
        | JDecodeError e => Raised (py "JSON解析失败: " ++ e)
        | JOther type_name _ =>
          Raised (py "'" ++ type_name ++ py "' object has no attribute 'keys'")
        | JObject translated_dict =>
          match validate_translation_result set_order (texts_to_translate texts)
                  translated_dict with
          | [] => Returned translated_dict
          | validation_errors =>
            Raised (py "翻译验证失败: " ++ join (py "; ") (render_error <$> validation_errors))
          end
        end
      end
    end
  end.

(** The nested [get_temperature_and_mode]; [None] is the [IndexError] of a
    schedule that is too short. *)
Definition get_temperature_and_mode (self_non_thinking_mode : bool)
    (validation_attempt : nat) : option (Q * bool) :=
  if bool_decide (validation_attempt ≤ 5)%nat then
    let temperatures := TEMPERATURE_ADJUSTMENTS in
    match validation_attempt with
    | O => last temperatures
    | S i => temperatures !! i
    end ≫= λ t, Some (t, self_non_thinking_mode)
  else
    let cycle_pos := ((validation_attempt - 6) `mod` 5)%nat in
    let temperatures := TEMPERATURE_ADJUSTMENTS in
    temperatures !! cycle_pos ≫= λ t, Some (t, negb self_non_thinking_mode).

(** One call of [translate_batch], as the loop makes it. *)
Record attempt_record : Type := {
  at_number : nat;
  at_api_failures : nat;
  at_validation_failures : nat;
  at_temperature : Q;
  at_non_thinking_mode : bool
}.


(** The local variables of [execute_translation_request] and the field
    [self.non_thinking_mode], with a log of the calls made and of the
    seconds slept. *)
Record exec_state : Type := {
  api_failure_count : nat;
  validation_failure_count : nat;
  total_attempts : nat;
  non_thinking_mode : bool;
  calls : list attempt_record;
  sleeps : list nat
}.

Definition initial_state (mode : bool) : exec_state :=
  {| api_failure_count := 0; validation_failure_count := 0; total_attempts := 0;
     non_thinking_mode := mode; calls := []; sleeps := [] |}.

Definition set_mode (m : bool) (st : exec_state) : exec_state :=
  {| api_failure_count := api_failure_count st;
     validation_failure_count := validation_failure_count st;
     total_attempts := total_attempts st;
     non_thinking_mode := m; calls := calls st; sleeps := sleeps st |}.

Definition set_counts (a v : nat) (st : exec_state) : exec_state :=
  {| api_failure_count := a; validation_failure_count := v;
     total_attempts := total_attempts st;
     non_thinking_mode := non_thinking_mode st; calls := calls st; sleeps := sleeps st |}.

Definition log_call (t : Q) (st : exec_state) : exec_state :=
  {| api_failure_count := api_failure_count st;
     validation_failure_count := validation_failure_count st;
     total_attempts := total_attempts st;
     non_thinking_mode := non_thinking_mode st;
     calls := calls st ++ [{| at_number := total_attempts st;
                              at_api_failures := api_failure_count st;
                              at_validation_failures := validation_failure_count st;
                              at_temperature := t;
                              at_non_thinking_mode := non_thinking_mode st |}];
     sleeps := sleeps st |}.

Definition sleep (seconds : nat) (st : exec_state) : exec_state :=
  {| api_failure_count := api_failure_count st;
     validation_failure_count := validation_failure_count st;
     total_attempts := total_attempts st;
     non_thinking_mode := non_thinking_mode st; calls := calls st;
     sleeps := sleeps st ++ [seconds] |}.

Definition next_attempt (st : exec_state) : exec_state :=
  {| api_failure_count := api_failure_count st;
     validation_failure_count := validation_failure_count st;
     total_attempts := S (total_attempts st);
     non_thinking_mode := non_thinking_mode st; calls := calls st; sleeps := sleeps st |}.

(** The state after an attempt that started in [st]. *)
Definition after_attempt (st : exec_state) (t : Q) (mode : bool)
    (api_failures validation_failures : nat) (slept : list nat) : exec_state :=
  {| api_failure_count := api_failures;
     validation_failure_count := validation_failures;
     total_attempts := S (total_attempts st);
     non_thinking_mode := non_thinking_mode st;
     calls := calls st ++ [{| at_number := S (total_attempts st);
                              at_api_failures := api_failure_count st;
                              at_validation_failures := validation_failure_count st;
                              at_temperature := t;
                              at_non_thinking_mode := mode |}];
     sleeps := slept |}.

Inductive step : Type :=
| Continue (st : exec_state)
| Return (result : dict json) (st : exec_state).

(** The [except Exception as e] branch of the loop body. *)
Definition on_exception (max_individual_retries : nat) (original_mode : bool)
    (error_str : pystr) (st : exec_state) : step :=
  let is_validation := contains VALIDATION_MARKER error_str in
  let st1 :=
    if is_validation
    then set_counts (api_failure_count st) (S (validation_failure_count st)) st
    else set_counts (S (api_failure_count st)) (validation_failure_count st) st in
  let wait_time := if is_validation then 1%nat else 5%nat in
  let st2 :=
    if bool_decide (0 < validation_failure_count st1)%nat
    then set_mode original_mode st1 else st1 in
  if bool_decide (api_failure_count st2 < max_individual_retries)%nat
     && bool_decide (validation_failure_count st2 < max_individual_retries)%nat
  then Continue (sleep wait_time st2)
  else Return [] st2.

(** The body of the [while] loop of [execute_translation_request]. *)
Definition iteration (max_individual_retries : nat) (svc : service)
    (request : TranslationRequest) (st0 : exec_state) : step :=
  let st := next_attempt st0 in
  let original_mode := non_thinking_mode st in
  let escalated := bool_decide (0 < validation_failure_count st)%nat in
  let params :=
    if escalated
    then get_temperature_and_mode (non_thinking_mode st) (validation_failure_count st)
    else Some (1.3%Q, non_thinking_mode st) in
  match params with
  | None => on_exception max_individual_retries original_mode (py "list index out of range") st
  | Some (temperature, thinking_mode) =>
    let st := if escalated then set_mode thinking_mode st else st in
    let st := log_call temperature st in
    match translate_batch (texts request)
            (svc (total_attempts st) temperature (non_thinking_mode st)) with
    | Raised error_str => on_exception max_individual_retries original_mode error_str st
    | Returned result =>
      let st := if escalated then set_mode original_mode st else st in
      match result with
      | [] =>
        let st := set_counts (api_failure_count st) (S (validation_failure_count st)) st in
        if bool_decide (validation_failure_count st < max_individual_retries)%nat
        then Continue (sleep 1 st)
        else Return [] st
      | _ => Return result st
      end
    end
  end.

(** How a run of the loop ends: with a returned result, by leaving the
    loop at its head (the function then returns [None]), or, in the model
    only, by using up the fuel. *)
Inductive run_result : Type :=
| Returns (result : dict json) (st : exec_state)
| FallsThrough (st : exec_state)
| OutOfFuel.

Fixpoint run_loop (fuel : nat) (max_individual_retries : nat) (svc : service)
    (request : TranslationRequest) (st : exec_state) : run_result :=
  if bool_decide (api_failure_count st < max_individual_retries)%nat
     && bool_decide (validation_failure_count st < max_individual_retries)%nat
  then
    match fuel with
    | O => OutOfFuel
    | S fuel' =>
      match iteration max_individual_retries svc request st with
      | Continue st' => run_loop fuel' max_individual_retries svc request st'
      | Return result st' => Returns result st'
      end
    end
  else FallsThrough st.

(** [DeepSeekTranslator.execute_translation_request]: no run makes more
    than [2 * MAX_INDIVIDUAL_RETRIES - 1] attempts. *)
Definition execute_translation_request (svc : service) (self_non_thinking_mode : bool)
    (request : TranslationRequest) : run_result :=
  run_loop (2 * MAX_INDIVIDUAL_RETRIES) MAX_INDIVIDUAL_RETRIES svc request
    (initial_state self_non_thinking_mode).

End Engine.

(** ** Fan-in of the results ([execute_requests_concurrently])

    The futures complete in an order of their own; each finished request
    is merged into the bucket of its namespace and language. The argument
    lists the finished requests in the order of their completion. *)
Abbreviation results_by_namespace_and_language :=
  (gmap pystr (gmap pystr (dict json))).

Definition merge_result (acc : results_by_namespace_and_language)
    (finished : TranslationRequest * run_result) : results_by_namespace_and_language :=
  match finished.2 with
  | Returns result _ =>
    let ns := namespace finished.1 in
    let lang := target_lang finished.1 in
    let by_lang := default ∅ (acc !! ns) in
    let bucket := default [] (by_lang !! lang) in
    <[ns := <[lang := dict_update bucket result]> by_lang]> acc
  | _ => acc
  end.

Definition collect_results (finished : list (TranslationRequest * run_result))
    : results_by_namespace_and_language :=
  foldl merge_result ∅ finished.

(** ** The change detector ([git_changes.py]) *)
Inductive ChangeType : Type := ADDED | DELETED | MODIFIED.

Record KeyChange : Type := {
  key : pystr;
  old_value : option json;
  new_value : option json;
  operation : ChangeType
}.

#[global] Instance ChangeType_eq_dec : EqDecision ChangeType.
Proof. solve_decision. Defined.

#[global] Instance KeyChange_eq_dec : EqDecision KeyChange.
Proof. solve_decision. Defined.

Record key_changes : Type := {
  added : list KeyChange;
  deleted : list KeyChange;
  modified : list KeyChange
}.

(** The index of the deleted values: the deletion seen last for each
    string value, and how many deletions carry it. *)
Definition index_deleted (deleted_keys : list KeyChange)
    : gmap pystr KeyChange * gmap pystr nat :=
  foldl (fun acc d =>
           match old_value d with
           | Some (JStr v) => (<[v := d]> acc.1, <[v := (default 0 (acc.2 !! v) + 1)%nat]> acc.2)
           | _ => acc
           end) (∅, ∅) deleted_keys.

(** The state of the loop over the added keys. *)
Record rename_state : Type := {
  rn_modified : list KeyChange;
  rn_used_deleted : gset pystr;
  rn_added_remaining : list KeyChange
}.

Definition rename_step (deleted_index : gmap pystr KeyChange)
    (deleted_value_counts : gmap pystr nat) (st : rename_state) (a : KeyChange)
    : rename_state :=
  let keep := {| rn_modified := rn_modified st; rn_used_deleted := rn_used_deleted st;
                 rn_added_remaining := rn_added_remaining st ++ [a] |} in
  match new_value a with
  | Some (JStr v) =>
    match deleted_index !! v with
    | Some d =>
      if bool_decide (default 0%nat (deleted_value_counts !! v) = 1%nat) then
        if bool_decide (key d ∉ rn_used_deleted st) then
          {| rn_modified := rn_modified st ++
               [{| key := key a; old_value := old_value d; new_value := new_value a;
                   operation := MODIFIED |}];
             rn_used_deleted := {[key d]} ∪ rn_used_deleted st;
             rn_added_remaining := rn_added_remaining st |}
        else keep
      else keep
    | None => keep
    end
  | _ => keep
  end.

(** An added key that the loop pairs with a deletion, if that deletion
    is still free: its value is a string that exactly one deletion
    carries. *)
Definition renamable (deleted_index : gmap pystr KeyChange)
    (deleted_value_counts : gmap pystr nat) (a : KeyChange) : Prop :=
  ∃ v d, new_value a = Some (JStr v) ∧ deleted_index !! v = Some d
         ∧ default 0%nat (deleted_value_counts !! v) = 1%nat.

(** The rename pass over the three lists. *)
Definition detect_renames (c : key_changes) : key_changes :=
  match added c, deleted c with
  | _ :: _, _ :: _ =>
    let '(deleted_index, deleted_value_counts) := index_deleted (deleted c) in
    let st := foldl (rename_step deleted_index deleted_value_counts)
                {| rn_modified := modified c; rn_used_deleted := ∅;
                   rn_added_remaining := [] |} (added c) in
    {| added := rn_added_remaining st;
       deleted := filter (fun d => key d ∉ rn_used_deleted st) (deleted c);
       modified := rn_modified st |}
  | _, _ => c
  end.

(** What reading a snapshot comes to before it is parsed. The bytes are
    decoded where they are read ([subprocess.run] with [text=True],
    [open] with [encoding='utf-8']): either this gives the text, or an
    exception is raised that is neither [FileNotFoundError] nor
    [json.JSONDecodeError], as the [UnicodeDecodeError] of bytes that are
    no text in that encoding (and, from the parser itself, the
    [RecursionError] of a document nested too deep). *)
Inductive snapshot : Type :=
| SnapshotError
| SnapshotText (content : pystr).

Section ChangeDetector.
Variable set_order : gset pystr → list pystr.
Variable json_loads : pystr → json_document.

(** The comparison of the two snapshots, once they are loaded. *)
Definition compare_snapshots (old_data new_data : dict json) : key_changes :=
  let old_keys := keyset old_data in
  let new_keys := keyset new_data in
  let added_keys :=
    (fun k => {| key := k; old_value := None; new_value := dict_get k new_data;
                 operation := ADDED |}) <$> set_order (new_keys ∖ old_keys) in
  let deleted_keys :=
    (fun k => {| key := k; old_value := dict_get k old_data; new_value := None;
                 operation := DELETED |}) <$> set_order (old_keys ∖ new_keys) in
  let modified_keys :=
    (fun k => {| key := k; old_value := dict_get k old_data;
                 new_value := dict_get k new_data; operation := MODIFIED |})
      <$> filter (fun k => dict_get k old_data ≠ dict_get k new_data)
                 (set_order (old_keys ∩ new_keys)) in
  detect_renames {| added := added_keys; deleted := deleted_keys; modified := modified_keys |}.

(** [load_json_file(path) or {}] on a file with the given content: the
    object, the empty mapping for a document that does not parse or is
    falsy, [None] for a truthy value that is no object (its [.keys()]
    raises below). *)
Definition load_new_snapshot (content : pystr) : option (dict json) :=
  match json_loads content with
  | JDecodeError _ => Some []
  | JObject d => Some d
  | JOther _ truthy => if truthy then None else Some []
  end.

(** [json.loads(stdout)] with [except json.JSONDecodeError: pass]. *)
Definition load_old_snapshot (stdout : pystr) : option (dict json) :=
  match json_loads stdout with
  | JDecodeError _ => Some []
  | JObject d => Some d
  | JOther _ _ => None
  end.

(** [get_file_key_changes]. [old_show] is what [git show] gives when it
    exits with 0, [new_file] what the file gives when it exists. The
    result [None] is the [return None] of the outer [except]: the function
    catches [json.JSONDecodeError] by name and nothing else, so a snapshot
    that cannot be read as text ends there, and so does one that holds a
    value without [.keys()]. *)
Definition get_file_key_changes (old_show new_file : option snapshot) : option key_changes :=
  old_data ← match old_show with
             | Some (SnapshotText stdout) => load_old_snapshot stdout
             | Some SnapshotError => None
             | None => Some []
             end;
  new_data ← match new_file with
             | Some (SnapshotText content) => load_new_snapshot content
             | Some SnapshotError => None
             | None => Some []
             end;
  Some (compare_snapshots old_data new_data).

End ChangeDetector.

(** ** The context window builder ([file_ops.py]) *)

(** [l[a:b]] for [0 <= a]. *)
Definition slice {A : Type} (a b : nat) (l : list A) : list A := take (b - a) (drop a l).

(** [l.index(k)]; [None] is the [ValueError]. *)
Fixpoint index_of (k : pystr) (l : list pystr) : option nat :=
  match l with
  | [] => None
  | x :: l' => if bool_decide (x = k) then Some 0%nat else S <$> index_of k l'
  end.

(** One round of the loop over the target keys: the neighbours of [key]
    are appended to [result_keys]. *)
Definition add_neighbours (source_keys : list pystr) (max_context : nat)
    (result_keys : list pystr) (key : pystr) : list pystr :=
  match index_of key source_keys with
  | Some idx =>
    let start := (idx - max_context / 2)%nat in
    let stop := (length source_keys `min` (idx + max_context / 2 + 1))%nat in
    result_keys ++ slice start idx source_keys ++ slice (idx + 1) stop source_keys
  | None => result_keys
  end.

Section ContextWindow.
Variable set_order : gset pystr → list pystr.

(** [get_context_for_keys] *)
Definition get_context_for_keys (source_dict : dict srcval) (target_keys : list pystr)
    (max_context : nat) (force_context : bool) : dict srcval :=
  let source_keys := dict_keys source_dict in
  let all_keys_count := length source_keys in
  if force_context then dict_set CORE_KEYS (Candidates target_keys) source_dict
  else if bool_decide (all_keys_count ≤ max_context)%nat
  then dict_set CORE_KEYS (Candidates target_keys) source_dict
  else
    let target_set : gset pystr := list_to_set target_keys in
    let result_keys :=
      foldl (add_neighbours source_keys max_context) (set_order target_set) target_keys in
    let unique_keys :=
      foldl (fun unique_keys k =>
               if bool_decide (k ∈ result_keys) && bool_decide (k ∉ unique_keys)
               then unique_keys ++ [k] else unique_keys) [] source_keys in
    let result :=
      foldl (fun result k =>
               match dict_get k source_dict with
               | Some v => dict_set k v result
               | None => result
               end) [] unique_keys in
    dict_set CORE_KEYS (Candidates target_keys) result.

End ContextWindow.

(** ** The batch scheduler ([translator.py]) *)
Section BatchScheduler.
Variable set_order : gset pystr → list pystr.

(** The values of [i] in [range(0, total_items, batch_size)]. *)
Definition batch_starts (total_items batch_size : nat) : list nat :=
  (fun j => j * batch_size)%nat <$> seq 0 ((total_items + batch_size - 1) / batch_size).

(** The items of the chunk that starts at [i]. *)
Definition core_items_at {A : Type} (items : list A) (batch_size i : nat) : list A :=
  slice i ((i + batch_size) `min` length items) items.

(** The boundary context of the chunk that starts at [i]. *)
Definition context_items_at {A : Type} (items : list A)
    (batch_size context_size i : nat) : list A :=
  let total_items := length items in
  let batch_start := i in
  let batch_end := ((i + batch_size) `min` total_items)%nat in
  if bool_decide (i = 0)%nat then
    if bool_decide (batch_end < total_items)%nat
    then slice batch_end ((batch_end + context_size) `min` total_items) items
    else []
  else if bool_decide (total_items ≤ batch_end)%nat then
    slice (batch_start - context_size) batch_start items
  else
    let half_context := (context_size / 2)%nat in
    slice (batch_start - half_context) batch_start items
      ++ slice batch_end ((batch_end + half_context) `min` total_items) items.

(** One round of the loop: the batch of the chunk that starts at [i]. *)
Definition make_batch (items : list (pystr * srcval))
    (batch_size context_size i : nat) : dict srcval :=
  let core_items := core_items_at items batch_size i in
  let context_items := context_items_at items batch_size context_size i in
  let batch_dict := dict_of_items (core_items ++ context_items) in
  let core_keys : gset pystr := list_to_set (core_items.*1) in
  dict_set CORE_KEYS (Candidates (set_order core_keys)) batch_dict.

(** [split_texts_with_context_guarantee]; [None] is the [ValueError] of a
    [range] with step 0. *)
Definition split_texts_with_context_guarantee (texts : dict srcval)
    (batch_size context_size : nat) : option (list (dict srcval)) :=
  match texts with
  | [] => Some []
  | _ =>
    let items := texts in
    let total_items := length items in
    if bool_decide (total_items ≤ batch_size)%nat then Some [dict_of_items items]
    else if bool_decide (batch_size = 0)%nat then None
    else Some ((make_batch items batch_size context_size) <$> batch_starts total_items batch_size)
  end.

End BatchScheduler.

(** The chunk with number [j], and its boundary context as the
    specification words it: for the first chunk the next [context_size]
    items, for the last chunk the previous [context_size] items, for a
    chunk in between [context_size / 2] items before and as many after. *)
Definition chunk_of {A : Type} (items : list A) (batch_size j : nat) : list A :=
  take batch_size (drop (j * batch_size) items).

Definition boundary_context {A : Type} (items : list A)
    (batch_size context_size count j : nat) : list A :=
  if bool_decide (j = 0)%nat
  then slice batch_size (batch_size + context_size) items
  else if bool_decide (j = count - 1)%nat
  then slice (j * batch_size - context_size) (j * batch_size) items
  else slice (j * batch_size - context_size / 2) (j * batch_size) items
         ++ slice ((j + 1) * batch_size) ((j + 1) * batch_size + context_size / 2) items.

(** ** The merged reference ([file_ops.py]) *)

(** One round of the inner loop of [get_merged_reference_translations]. *)
Definition merge_entry (merged_dict : dict srcval) (kv : pystr * pystr) : dict srcval :=
  let '(k, value) := kv in
  match dict_get k merged_dict with
  | Some (Candidates existing_value) =>
    if bool_decide (value ∉ existing_value)
    then dict_set k (Candidates (existing_value ++ [value])) merged_dict
    else merged_dict
  | Some (Single existing_value) =>
    if bool_decide (existing_value ≠ value)
    then dict_set k (Candidates [existing_value; value]) merged_dict
    else merged_dict
  | None => dict_set k (Single value) merged_dict
  end.

(** [get_merged_reference_translations], over the language files of the
    namespace in the order of the directory listing; [None] is a file that
    cannot be read or parsed. The files hold strings. *)
Definition get_merged_reference_translations (lang_files : list (option (dict pystr)))
    : dict srcval :=
  foldl (fun merged_dict lang_file =>
           match lang_file with
           | Some lang_data => foldl merge_entry merged_dict lang_data
           | None => merged_dict
           end) [] lang_files.

(** ** The cleanup sweep ([translation_flow.py]) *)

(** The files the sweep reads and writes: the language files under the
    assets directory of each namespace, and the stores under the translate
    directory, one per namespace and language (no entry: no file, or a
    file that does not parse). Writing a store succeeds. *)
Record workspace : Type := {
  assets : pystr → list (option (dict pystr));
  stores : gmap (pystr * pystr) (dict json)
}.

(** A store without the entries whose keys the reference lacks. *)
Definition prune (source_dict : dict srcval) (store : dict json) : dict json :=
  filter (fun kv => kv.1 ∈ keyset source_dict) store.

(** The body of the loop over the languages. *)
Definition cleanup_store (source_dict : dict srcval) (ns : pystr)
    (st : gmap (pystr * pystr) (dict json)) (lang_code : pystr)
    : gmap (pystr * pystr) (dict json) :=
  let existing_translations := default [] (st !! (ns, lang_code)) in
  match existing_translations with
  | [] => st
  | _ =>
    let source_keys := keyset source_dict in
    let keys_to_remove := filter (fun k => k ∉ source_keys) (dict_keys existing_translations) in
    match keys_to_remove with
    | [] => st
    | _ => <[(ns, lang_code) := foldl (fun d k => dict_del k d) existing_translations keys_to_remove]> st
    end
  end.

(** [perform_cleanup_extra_keys], over the namespaces of
    [get_namespace_list] and the language codes of the catalogue. *)
Definition perform_cleanup_extra_keys (all_namespaces target_languages : list pystr)
    (w : workspace) : workspace :=
  {| assets := assets w;
     stores :=
       foldl (fun st ns =>
                let source_dict := get_merged_reference_translations (assets w ns) in
                match source_dict with
                | [] => st
                | _ => foldl (cleanup_store source_dict ns) st target_languages
                end) (stores w) all_namespaces |}.

(** ** Preparing the requests ([translator.py]) *)

(** [DeepSeekTranslator.prepare_texts_for_translation]: a list stays a
    list, and [str(value)] of a string is the string. *)
Definition prepare_texts_for_translation (texts : dict srcval) : dict srcval :=
  foldl (fun prepared_texts kv =>
           match kv.2 with
           | Candidates value => dict_set kv.1 (Candidates value) prepared_texts
           | Single value => dict_set kv.1 (Single value) prepared_texts
           end) [] texts.

(** [namespace or "unknown"] *)
Definition namespace_or_unknown (namespace : option pystr) : pystr :=
  match namespace with
  | Some (c :: n) => c :: n
  | _ => py "unknown"
  end.

Section PrepareRequests.
Variable set_order : gset pystr → list pystr.

(** One round of the loop over the target languages: the requests made so
    far and the next [request_id], before and after. *)
Definition requests_for_language (all_texts : dict srcval) (batch_size : nat)
    (namespace : option pystr) (acc : list TranslationRequest * nat)
    (lang : pystr * pystr) : option (list TranslationRequest * nat) :=
  let '(target_lang, target_lang_name) := lang in
  let total_texts := length all_texts in
  if bool_decide (batch_size < total_texts)%nat then
    batches ← split_texts_with_context_guarantee set_order all_texts batch_size CONTEXT_SIZE;
    let total_batches := length batches in
    Some (foldl (fun acc ib =>
                   (acc.1 ++ [{| request_id := acc.2;
                                 texts := ib.2;
                                 target_lang := target_lang;
                                 target_lang_name := target_lang_name;
                                 namespace := namespace_or_unknown namespace;
                                 batch_id := ib.1;
                                 total_batches := total_batches;
                                 batch_size := length ib.2 |}],
                    S acc.2))
            acc (imap (fun i batch_texts => (S i, batch_texts)) batches))
  else
    Some (acc.1 ++ [{| request_id := acc.2;
                       texts := all_texts;
                       target_lang := target_lang;
                       target_lang_name := target_lang_name;
                       namespace := namespace_or_unknown namespace;
                       batch_id := 1;
                       total_batches := 1;
                       batch_size := length all_texts |}],
          S acc.2).

(** [DeepSeekTranslator.prepare_translation_requests]; [None] is the
    [ValueError] of the scheduler. *)
Definition prepare_translation_requests (all_texts : dict srcval)
    (target_languages : list (pystr * pystr)) (batch_size : nat)
    (namespace : option pystr) : option (list TranslationRequest) :=
  fst <$> foldl (fun acc lang =>
                   acc ≫= fun acc => requests_for_language all_texts batch_size namespace acc lang)
            (Some ([], 1%nat)) target_languages.

End PrepareRequests.

(** [DeepSeekTranslator.split_texts_for_concurrent_translation]; [None]
    is the [ValueError] of a [range] with step 0. *)
Definition split_texts_for_concurrent_translation {V : Type} (texts : dict V)
    (batch_size : nat) : option (list (dict V)) :=
  match texts with
  | [] => Some []
  | _ =>
    let items := texts in
    if bool_decide (batch_size = 0)%nat then None
    else Some ((fun i => dict_of_items (slice i (i + batch_size) items))
                 <$> batch_starts (length items) batch_size)
  end.

(** ** Merging mappings ([file_ops.py]) *)

(** [merge_translations]: a copy of [base_dict], updated with
    [override_dict]. *)
Definition merge_translations {V : Type} (base_dict override_dict : dict V) : dict V :=
  let result := base_dict in
  dict_update result override_dict.

(** The invariant of the merge: what [merged] holds when the entries
    [seen] have gone through [merge_entry]. The keys are those seen, each
    once; a key with one value has had no other value so far, a key with a
    list has the values seen for it, each once and at least two; and the
    value the validator reads is the one seen first. *)
Definition merged_so_far (merged : dict srcval) (seen : dict pystr) : Prop :=
  NoDup (dict_keys merged)
  ∧ (∀ k, k ∈ dict_keys merged ↔ k ∈ dict_keys seen)
  ∧ (∀ k, match dict_get k merged with
          | None => True
          | Some (Single v) => ∀ v', (k, v') ∈ seen → v' = v
          | Some (Candidates l) =>
            NoDup l ∧ (2 ≤ length l)%nat ∧ ∀ v, v ∈ l ↔ (k, v) ∈ seen
          end)
  ∧ ∀ k, reference_value <$> dict_get k merged = dict_get k seen.

(** ** Deleting keys from the stores ([translation_flow.py]) *)

(** The loop over [keys_to_delete]: the mapping without the keys, and
    whether one of them was found. *)
Definition delete_keys (keys_to_delete : list pystr) (translations : dict json)
    : dict json * bool :=
  foldl (fun acc key =>
           if dict_has key acc.1 then (dict_del key acc.1, true) else acc)
    (translations, false) keys_to_delete.

(** The body of the loop over the languages. A file that does not exist,
    cannot be read or holds no entry is passed over; writing succeeds. *)
Definition delete_keys_from_store (namespace : pystr) (keys_to_delete : list pystr)
    (st : gmap (pystr * pystr) (dict json)) (lang_code : pystr)
    : gmap (pystr * pystr) (dict json) :=
  match st !! (namespace, lang_code) with
  | None | Some [] => st
  | Some translations =>
    let '(translations, modified) := delete_keys keys_to_delete translations in
    if modified then <[(namespace, lang_code) := translations]> st else st
  end.

(** [delete_keys_from_translations], over the language codes of the
    catalogue: the workspace afterwards, and the value returned. *)
Definition delete_keys_from_translations (namespace : pystr) (keys_to_delete : list pystr)
    (target_languages : list pystr) (w : workspace) : workspace * bool :=
  let success := true in
  ({| assets := assets w;
      stores := foldl (delete_keys_from_store namespace keys_to_delete) (stores w)
                  target_languages |},
   success).

(** ** Virtual changes ([translation_flow.py])

    The changes that complete the stores: one for every file of the
    translate directory that is missing, and one for every file that
    lacks keys of the reference. *)

(** [FileChanges] of [config.py]; its field [namespace] is [fc_namespace]
    here. *)
Record FileChanges : Type := {
  fc_namespace : pystr;
  file_path : pystr;
  added_keys : list KeyChange;
  deleted_keys : list KeyChange;
  modified_keys : list KeyChange
}.

(** A file of the translate directory as [load_json_file] finds it: one
    that cannot be read as JSON, or one that holds a mapping. The
    directory has at most one file for a namespace and a language. *)
Inductive translate_file : Type :=
| Unreadable
| Holds (translations : dict json).

Abbreviation translate_dir := (gmap (pystr * pystr) translate_file).

(** [load_namespace_translations_from_translate]:
    [load_json_file(...) or {}] if the file exists, [{}] otherwise. *)
Definition load_namespace_translations_from_translate (files : translate_dir)
    (namespace lang_code : pystr) : dict json :=
  match files !! (namespace, lang_code) with
  | Some (Holds translations) => translations
  | Some Unreadable => []
  | None => []
  end.

(** [f"{namespace}/{lang_code}.json"] *)
Definition virtual_file_path (namespace lang_code : pystr) : pystr :=
  namespace ++ py "/" ++ lang_code ++ py ".json".

(** [check_missing_translation_files], over the namespaces of
    [get_namespace_list], the language files of each under the assets
    directory, and the language codes of the catalogue. *)
Definition check_missing_translation_files (namespaces : list pystr)
    (assets : pystr → list (option (dict pystr))) (target_languages : list pystr)
    (files : translate_dir) : list (pystr * pystr) :=
  foldl (fun missing_files namespace =>
           let has_lang_files := bool_decide (assets namespace ≠ []) in
           if has_lang_files then
             foldl (fun missing_files lang_code =>
                      match files !! (namespace, lang_code) with
                      | None => missing_files ++ [(namespace, lang_code)]
                      | Some _ => missing_files
                      end) missing_files target_languages
           else missing_files) [] namespaces.

(** The grouping of the missing files by namespace. *)
Definition group_by_namespace (missing_files : list (pystr * pystr)) : dict (list pystr) :=
  foldl (fun namespace_groups file =>
           let '(namespace, lang_code) := file in
           let namespace_groups :=
             if dict_has namespace namespace_groups then namespace_groups
             else dict_set namespace [] namespace_groups in
           dict_set namespace
             (default [] (dict_get namespace namespace_groups) ++ [lang_code])
             namespace_groups) [] missing_files.

(** The added key of an entry of the reference when the whole file is
    missing; [None] is the [IndexError] of [value[0]] on an empty list. *)
Definition added_key_of_entry (entry : pystr * srcval) : option KeyChange :=
  let '(key, value) := entry in
  match value with
  | Candidates (first :: _) =>
    Some {| key := key; old_value := None; new_value := Some (JStr first);
            operation := ADDED |}
  | Candidates [] => None
  | Single value =>
    Some {| key := key; old_value := None; new_value := Some (JStr value);
            operation := ADDED |}
  end.

(** [create_virtual_changes_for_missing_files] *)
Definition create_virtual_changes_for_missing_files
    (assets : pystr → list (option (dict pystr))) (missing_files : list (pystr * pystr))
    : option (list FileChanges) :=
  foldl (fun acc group =>
           virtual_changes ← acc;
           let '(namespace, lang_codes) := group in
           let source_dict := get_merged_reference_translations (assets namespace) in
           match source_dict with
           | [] => Some virtual_changes
           | _ =>
             foldl (fun acc lang_code =>
                      virtual_changes ← acc;
                      added_keys ← mapM added_key_of_entry source_dict;
                      Some (virtual_changes
                              ++ [{| fc_namespace := namespace;
                                     file_path := virtual_file_path namespace lang_code;
                                     added_keys := added_keys;
                                     deleted_keys := [];
                                     modified_keys := [] |}]))
               (Some virtual_changes) lang_codes
           end) (Some []) (group_by_namespace missing_files).

(** The added key of a key that an existing file lacks. *)
Definition added_key_of_missing (source_dict : dict srcval) (key : pystr) : KeyChange :=
  let value :=
    match dict_get key source_dict with
    | Some (Candidates (first :: _)) => Some (JStr first)
    | Some (Candidates []) => Some (JStr [])
    | Some (Single value) => Some (JStr value)
    | None => None
    end in
  {| key := key; old_value := None; new_value := value; operation := ADDED |}.

(** [create_virtual_changes_for_missing_keys] *)
Definition create_virtual_changes_for_missing_keys (namespaces : list pystr)
    (assets : pystr → list (option (dict pystr))) (target_languages : list pystr)
    (files : translate_dir) : list FileChanges :=
  foldl (fun virtual_changes namespace =>
           let source_dict := get_merged_reference_translations (assets namespace) in
           match source_dict with
           | [] => virtual_changes
           | _ =>
             let source_keys := dict_keys source_dict in
             foldl (fun virtual_changes lang_code =>
                      match files !! (namespace, lang_code) with
                      | None => virtual_changes
                      | Some _ =>
                        let existing_translations :=
                          load_namespace_translations_from_translate files namespace
                            lang_code in
                        let existing_keys := keyset existing_translations in
                        let missing_keys :=
                          filter (fun k => k ∉ existing_keys) source_keys in
                        match missing_keys with
                        | [] => virtual_changes
                        | _ =>
                          virtual_changes
                            ++ [{| fc_namespace := namespace;
                                   file_path := virtual_file_path namespace lang_code;
                                   added_keys := added_key_of_missing source_dict
                                                   <$> missing_keys;
                                   deleted_keys := [];
                                   modified_keys := [] |}]
                        end
                      end) virtual_changes target_languages
           end) [] namespaces.

(** ** The tasks of the differential mode ([run_smart_translation]) *)

Definition SLASH : N := 47.

(** [Path(file_path).name] for a path that ends in [.json]: the text
    after the last [/] (the last component is neither empty nor a dot). *)
Fixpoint path_name (file_path : pystr) : pystr :=
  match file_path with
  | [] => []
  | c :: rest =>
    if bool_decide (SLASH ∈ rest) then path_name rest
    else if bool_decide (c = SLASH) then rest else c :: rest
  end.

(** [list(dict.fromkeys(keys))] *)
Definition fromkeys (keys : list pystr) : list pystr :=
  dict_keys (dict_of_items ((fun k => (k, tt)) <$> keys)).

(** [{k: d[k] for k in keys if k in d}] *)
Definition restrict_to_keys {V : Type} (keys : list pystr) (d : dict V) : dict V :=
  dict_of_items (omap (fun k => (fun v => (k, v)) <$> dict_get k d) keys).

(** The task dictionaries of the differential mode. *)
Record smart_task : Type := {
  task_namespace : pystr;
  task_lang_code : pystr;
  task_lang_name : pystr;
  task_context_dict : dict srcval;
  task_keys_to_translate : list pystr;
  task_existing_translations : dict json
}.

(** The languages a change is translated into: those of the catalogue,
    or the one of the file a virtual change stands for. *)
Definition languages_of_change (catalogue : dict pystr) (file_path : pystr) : dict pystr :=
  let target_languages := catalogue in
  if contains (py "/") file_path && endswith (py ".json") file_path then
    let file_name := path_name file_path in
    let target_lang_code := take (length file_name - 5) file_name in
    match dict_get target_lang_code target_languages with
    | Some lang_name => [(target_lang_code, lang_name)]
    | None => []
    end
  else target_languages.

Section SmartTasks.
Variable set_order : gset pystr → list pystr.

(** The body of the loop over [file_changes]: the tasks one change adds. *)
Definition tasks_of_change (assets : pystr → list (option (dict pystr)))
    (catalogue : dict pystr) (files : translate_dir) (changes : FileChanges)
    : list smart_task :=
  let source_dict := get_merged_reference_translations (assets (fc_namespace changes)) in
  match source_dict with
  | [] => []
  | _ =>
    let keys_to_translate :=
      fromkeys (key <$> (added_keys changes ++ modified_keys changes)) in
    match keys_to_translate with
    | [] => []
    | _ =>
      let context_dict :=
        if bool_decide (length keys_to_translate < 10)%nat
        then get_context_for_keys set_order source_dict keys_to_translate 10 false
        else restrict_to_keys keys_to_translate source_dict in
      (fun lang : pystr * pystr =>
         {| task_namespace := fc_namespace changes;
            task_lang_code := lang.1;
            task_lang_name := lang.2;
            task_context_dict := context_dict;
            task_keys_to_translate := keys_to_translate;
            task_existing_translations :=
              load_namespace_translations_from_translate files
                (fc_namespace changes) lang.1 |})
        <$> languages_of_change catalogue (file_path changes)
    end
  end.

(** The loop over [file_changes]. *)
Definition smart_translation_tasks (assets : pystr → list (option (dict pystr)))
    (catalogue : dict pystr) (files : translate_dir) (file_changes : list FileChanges)
    : list smart_task :=
  foldl (fun all_translation_tasks changes =>
           all_translation_tasks ++ tasks_of_change assets catalogue files changes)
    [] file_changes.

End SmartTasks.

(** The bucket of a namespace and a language, if the fan-in made one. *)
Definition result_bucket (results : results_by_namespace_and_language)
    (ns lang : pystr) : option (dict json) :=
  results !! ns ≫= fun by_lang => by_lang !! lang.

(** One round of the loop that saves the results of the differential
    mode: the translate directory and [saved_count], before and after.
    Writing a file succeeds. *)
Definition save_smart_task (results : results_by_namespace_and_language)
    (acc : translate_dir * nat) (task : smart_task) : translate_dir * nat :=
  let ns := task_namespace task in
  let lang := task_lang_code task in
  let keys := task_keys_to_translate task in
  let existing := task_existing_translations task in
  match result_bucket results ns lang with
  | Some translated =>
    let target_translations := restrict_to_keys keys translated in
    let final := dict_update existing target_translations in
    (<[(ns, lang) := Holds final]> acc.1, S acc.2)
  | None => acc
  end.

Definition save_smart_results (all_translation_tasks : list smart_task)
    (results : results_by_namespace_and_language) (files : translate_dir)
    : translate_dir * nat :=
  foldl (save_smart_task results) (files, 0%nat) all_translation_tasks.

(** ** The tasks of the full mode ([continue_full_translation]) *)

(** [needs_translation]; [force_translate] is what the environment
    variable [FORCE_TRANSLATE] says. *)
Definition needs_translation (force_translate : bool) (files : translate_dir)
    (namespace lang_code : pystr) (source_dict : dict srcval) : bool :=
  if force_translate then true
  else
    let existing_translations :=
      load_namespace_translations_from_translate files namespace lang_code in
    match existing_translations with
    | [] => true
    | _ =>
      let missing_keys := keyset source_dict ∖ keyset existing_translations in
      bool_decide (missing_keys ≠ ∅)
    end.

(** The task dictionaries of the full mode. *)
Record full_task : Type := {
  full_namespace : pystr;
  full_lang_code : pystr;
  full_lang_name : pystr;
  full_texts : dict srcval;
  full_existing_translations : dict json
}.

(** The body of the loop over the languages in the first phase. *)
Definition full_task_of_language (force_translate : bool) (files : translate_dir)
    (namespace : pystr) (source_dict : dict srcval)
    (all_translation_tasks : list full_task) (lang : pystr * pystr) : list full_task :=
  let '(lang_code, lang_name) := lang in
  if negb (needs_translation force_translate files namespace lang_code source_dict)
  then all_translation_tasks
  else
    let existing_translate :=
      load_namespace_translations_from_translate files namespace lang_code in
    let keys_to_translate :=
      if force_translate then source_dict
      else dict_of_items
             (filter (fun kv => negb (dict_has kv.1 existing_translate)) source_dict) in
    match keys_to_translate with
    | [] => all_translation_tasks
    | _ =>
      all_translation_tasks
        ++ [{| full_namespace := namespace;
               full_lang_code := lang_code;
               full_lang_name := lang_name;
               full_texts := keys_to_translate;
               full_existing_translations := existing_translate |}]
    end.

(** The first phase of [continue_full_translation]. *)
Definition full_translation_tasks (force_translate : bool) (namespaces : list pystr)
    (assets : pystr → list (option (dict pystr))) (catalogue : dict pystr)
    (files : translate_dir) : list full_task :=
  foldl (fun all_translation_tasks namespace =>
           let source_dict := get_merged_reference_translations (assets namespace) in
           match source_dict with
           | [] => all_translation_tasks
           | _ =>
             foldl (full_task_of_language force_translate files namespace source_dict)
               all_translation_tasks catalogue
           end) [] namespaces.

(** One round of the fourth phase: the translate directory and
    [saved_count], before and after. Writing a file succeeds. *)
Definition save_full_task (force_translate : bool)
    (results : results_by_namespace_and_language)
    (acc : translate_dir * nat) (task : full_task) : translate_dir * nat :=
  let namespace := full_namespace task in
  let lang_code := full_lang_code task in
  let existing_translations := full_existing_translations task in
  match result_bucket results namespace lang_code with
  | Some translated_results =>
    let final_translations :=
      if force_translate then translated_results
      else dict_update existing_translations translated_results in
    (<[(namespace, lang_code) := Holds final_translations]> acc.1, S acc.2)
  | None => acc
  end.

Definition save_full_results (force_translate : bool)
    (all_translation_tasks : list full_task)
    (results : results_by_namespace_and_language) (files : translate_dir)
    : translate_dir * nat :=
  foldl (save_full_task force_translate results) (files, 0%nat) all_translation_tasks.

(** ** The changes of the last commit ([get_git_changes]) *)

Definition NEWLINE : N := 10.

(** [s.split(sep)] for a separator of one character. *)
Fixpoint split_on (sep : N) (s : pystr) : list pystr :=
  match s with
  | [] => [[]]
  | c :: rest =>
    if bool_decide (c = sep) then [] :: split_on sep rest
    else match split_on sep rest with
         | part :: parts => (c :: part) :: parts
         | [] => [[c]]
         end
  end.

(** [result.stdout.strip().split('\n') if result.stdout.strip() else []] *)
Definition changed_files (stdout : pystr) : list pystr :=
  match strip stdout with
  | [] => []
  | _ => split_on NEWLINE (strip stdout)
  end.

(** The namespace a changed file is counted under; [None] where the loop
    passes the file over. *)
Definition namespace_of_changed_file (file_path : pystr) : option pystr :=
  if negb (contains (py "/assets/") file_path) || negb (contains (py "/lang/") file_path)
     || negb (endswith (py ".json") file_path)
  then None
  else
    let parts := split_on SLASH file_path in
    match index_of (py "assets") parts with
    | None => None
    | Some assets_index =>
      if bool_decide (length parts ≤ assets_index + 1)%nat then None
      else parts !! (assets_index + 1)%nat
    end.

(** The buckets of a namespace: the added and the modified keys. *)
Abbreviation buckets := (dict KeyChange * dict KeyChange)%type.

Section GitChanges.
Variable set_order : gset pystr → list pystr.
Variable json_loads : pystr → json_document.

(** What the repository answers for a path: what [git show] of the
    previous version gives when it exits with 0, and what the file gives
    when it exists. *)
Variable old_show new_file : pystr → option snapshot.

(** The body of the loop over the changed files. *)
Definition aggregate_file (aggregated : dict buckets) (file_path : pystr) : dict buckets :=
  match namespace_of_changed_file file_path with
  | None => aggregated
  | Some namespace =>
    match get_file_key_changes set_order json_loads (old_show file_path)
            (new_file file_path) with
    | None => aggregated
    | Some changes =>
      let aggregated :=
        if dict_has namespace aggregated then aggregated
        else dict_set namespace ([], []) aggregated in
      let bucket := default ([], []) (dict_get namespace aggregated) in
      let added_bucket :=
        foldl (fun bucket kc => dict_set (key kc) kc bucket) bucket.1 (added changes) in
      let modified_bucket :=
        foldl (fun bucket kc => dict_set (key kc) kc bucket) bucket.2 (modified changes) in
      dict_set namespace (added_bucket, modified_bucket) aggregated
    end
  end.

(** [get_git_changes]; [diff] is the output of [git diff --name-only]
    when it exits with 0. *)
Definition get_git_changes (diff : option pystr) : list FileChanges :=
  match diff with
  | None => []
  | Some stdout =>
    let aggregated := foldl aggregate_file [] (changed_files stdout) in
    foldl (fun file_changes entry =>
             let ns := entry.1 in
             let added := entry.2.1.*2 in
             let modified := entry.2.2.*2 in
             match added, modified with
             | [], [] => file_changes
             | _, _ =>
               file_changes
                 ++ [{| fc_namespace := ns;
                        file_path := py "virtual:" ++ ns;
                        added_keys := added;
                        deleted_keys := [];
                        modified_keys := modified |}]
             end) [] aggregated
  end.

End GitChanges.

(** ** Sample data

    A request for one key, the reply that translates it, and [json.loads]
    on the documents the examples use: it agrees with Python's on the two
    sample documents and on text that is no JSON at all. *)
Definition QUOTE : N := 34.

Definition sample_document : pystr :=
  py "{" ++ [QUOTE] ++ py "greeting" ++ [QUOTE] ++ py ": "
    ++ [QUOTE] ++ py "Bonjour %s" ++ [QUOTE] ++ py "}".

(** The same document with the placeholder lost. *)
Definition sample_document_without_placeholder : pystr :=
  py "{" ++ [QUOTE] ++ py "greeting" ++ [QUOTE] ++ py ": "
    ++ [QUOTE] ++ py "Bonjour" ++ [QUOTE] ++ py "}".

Definition sample_json_loads (document : pystr) : json_document :=
  if bool_decide (document = sample_document)
  then JObject [(py "greeting", JStr (py "Bonjour %s"))]
  else if bool_decide (document = sample_document_without_placeholder)
  then JObject [(py "greeting", JStr (py "Bonjour"))]
  else JDecodeError (py "Expecting value: line 1 column 1 (char 0)").

(** A service that loses the placeholder seven times and then answers
    well. *)
Definition sample_service : service :=
  fun n _ _ =>
    if bool_decide (n < 8)%nat
    then Reply sample_document_without_placeholder
    else Reply (py "```json" ++ [10] ++ sample_document ++ [10] ++ py "```").

Definition sample_render_error (e : validation_error) : pystr :=
  match e with
  | MissingKeys ks => py "缺少键: " ++ join (py ", ") ks
  | ExtraKeys ks => py "多余键: " ++ join (py ", ") ks
  | NotAString k _ => py "键 '" ++ k ++ py "' 的值不是字符串类型"
  | PlaceholderMismatch k r t =>
    py "键 '" ++ k ++ py "' 的占位符不一致: '" ++ r ++ py "' -> '" ++ t ++ py "'"
  end.

Definition sample_request : TranslationRequest :=
  {| request_id := 1;
     texts := [(py "greeting", Single (py "Hello %s"));
               (CORE_KEYS, Candidates [py "greeting"])];
     target_lang := py "fr_fr";
     target_lang_name := py "French (France)";
     namespace := py "demo";
     batch_id := 1; total_batches := 1; batch_size := 2 |}.

(** A workspace with one namespace whose only language file holds the
    empty object, and a store with a key of its own. *)
Definition sample_workspace : workspace :=
  {| assets := fun _ => [Some []];
     stores := {[ (py "demo", py "fr_fr") := [(py "obsolete", JStr (py "Ancien"))] ]} |}.

(** The same store next to a reference that defines one of its keys. *)
Definition sample_workspace_with_reference : workspace :=
  {| assets := fun _ => [Some [(py "greeting", py "Hello")]];
     stores := {[ (py "demo", py "fr_fr") :=
                    [(py "greeting", JStr (py "Bonjour"));
                     (py "obsolete", JStr (py "Ancien"))] ]} |}.

(** A reference of one hundred keys, [k00] to [k99], in this order. *)
Definition sample_key (i : nat) : pystr :=
  [107; 48 + N.of_nat (i / 10); 48 + N.of_nat (i `mod` 10)].

Definition sample_reference : dict srcval :=
  (fun i => (sample_key i, Single (py "text " ++ sample_key i))) <$> seq 0 100.

(** A namespace with two keys, a catalogue of two languages, and a
    translate directory with the French file only, which holds one of the
    keys. *)
Definition sample_assets (namespace : pystr) : list (option (dict pystr)) :=
  if bool_decide (namespace = py "demo")
  then [Some [(py "title", py "New title"); (py "greeting", py "Hello")]]
  else [].

Definition sample_catalogue : dict pystr :=
  [(py "fr_fr", py "French (France)"); (py "de_de", py "German")].

Definition sample_translate_dir : translate_dir :=
  {[ (py "demo", py "fr_fr") := Holds [(py "title", JStr (py "Titre"))] ]}.

(** The change of a commit that rewords [title], and the virtual change
    for the key the French file lacks. *)
Definition sample_git_change : FileChanges :=
  {| fc_namespace := py "demo";
     file_path := py "virtual:demo";
     added_keys := [];
     deleted_keys := [];
     modified_keys := [{| key := py "title"; old_value := Some (JStr (py "Title"));
                          new_value := Some (JStr (py "New title"));
                          operation := MODIFIED |}] |}.

Definition sample_virtual_change : FileChanges :=
  {| fc_namespace := py "demo";
     file_path := py "demo/fr_fr.json";
     added_keys := [{| key := py "greeting"; old_value := None;
                       new_value := Some (JStr (py "Hello"));
                       operation := ADDED |}];
     deleted_keys := [];
     modified_keys := [] |}.

(** * Properties *)

(** ** The order of strings, and [sorted] *)

Lemma str_leb_total (a b : pystr) : str_leb a b = true ∨ str_leb b a = true.
Proof.
  revert b. induction a as [|x a IH]; intros [|y b]; simpl; auto.
  destruct (N.ltb_spec x y), (N.ltb_spec y x); simpl; auto; try lia.
  assert (x = y) as -> by lia.
  rewrite !bool_decide_eq_true_2 by done. apply IH.
Qed.

Lemma str_leb_trans (a b c : pystr) :
  str_leb a b = true → str_leb b c = true → str_leb a c = true.
Proof.
  revert b c. induction a as [|x a IH]; intros [|y b] [|z c]; simpl; try done.
  rewrite !orb_true_iff, !andb_true_iff, !bool_decide_eq_true, !N.ltb_lt.
  intros [Hxy|[-> Hab]] [Hyz|[-> Hbc]]; eauto; left; lia.
Qed.

Lemma str_leb_antisym (a b : pystr) :
  str_leb a b = true → str_leb b a = true → a = b.
Proof.
  revert b. induction a as [|x a IH]; intros [|y b]; simpl; try done.
  rewrite !orb_true_iff, !andb_true_iff, !bool_decide_eq_true, !N.ltb_lt.
  intros [Hxy|[-> Hab]] [Hyx|[Heq Hba]]; try lia.
  f_equal. by apply IH.
Qed.

#[global] Instance str_le_total : Total str_le.
Proof. intros a b. apply str_leb_total. Qed.

#[global] Instance str_le_trans : Transitive str_le.
Proof. intros a b c. apply str_leb_trans. Qed.

#[global] Instance str_le_antisym : AntiSymm (=) str_le.
Proof. intros a b. apply str_leb_antisym. Qed.

(** Two lists sort to the same list exactly when they are equal as
    multisets. *)
Lemma sorted_eq_iff_Permutation (l1 l2 : list pystr) :
  sorted l1 = sorted l2 ↔ l1 ≡ₚ l2.
Proof.
  unfold sorted. split.
  - intros Heq.
    rewrite <- (merge_sort_Permutation str_le l1), <- (merge_sort_Permutation str_le l2).
    by rewrite Heq.
  - intros Hperm. apply (Sorted_unique str_le); try apply Sorted_merge_sort; try apply _.
    by rewrite !merge_sort_Permutation.
Qed.

Lemma validate_placeholder_consistency_spec (original_text translated_text : pystr) :
  validate_placeholder_consistency original_text translated_text = true
  ↔ findall_placeholders original_text ≡ₚ findall_placeholders translated_text.
Proof.
  unfold validate_placeholder_consistency.
  rewrite bool_decide_eq_true. apply sorted_eq_iff_Permutation.
Qed.

(** ** Iteration over sets *)

Lemma iteration_order_elem_of (set_order : gset pystr → list pystr) (X : gset pystr) (k : pystr) :
  iteration_order set_order → k ∈ set_order X ↔ k ∈ X.
Proof. intros Hord. rewrite (Hord X). apply elem_of_elements. Qed.

Lemma iteration_order_NoDup (set_order : gset pystr → list pystr) (X : gset pystr) :
  iteration_order set_order → NoDup (set_order X).
Proof. intros Hord. rewrite (Hord X). apply NoDup_elements. Qed.

Lemma iteration_order_empty (set_order : gset pystr → list pystr) :
  iteration_order set_order → set_order ∅ = [].
Proof.
  intros Hord. apply Permutation_nil_r. by rewrite (Hord ∅), elements_empty.
Qed.

Lemma iteration_order_singleton (set_order : gset pystr → list pystr) (k : pystr) :
  iteration_order set_order → set_order {[k]} = [k].
Proof.
  intros Hord. apply Permutation_singleton_r.
  by rewrite (Hord {[k]}), elements_singleton.
Qed.

Lemma iteration_order_elements : iteration_order elements.
Proof. by intros X. Qed.

(** ** Dictionaries *)
Section DictFacts.
Context {V : Type}.
Implicit Types (d : dict V) (k : pystr) (v : V).

Lemma dict_get_Some_elem_of d k v : dict_get k d = Some v → (k, v) ∈ d.
Proof.
  induction d as [|[k' v'] d IH]; simpl; [done|].
  case_bool_decide as Hk; intros Hget.
  - injection Hget as ->. subst. left.
  - right. by apply IH.
Qed.

Lemma dict_get_is_Some d k : is_Some (dict_get k d) ↔ k ∈ dict_keys d.
Proof.
  unfold dict_keys. induction d as [|[k' v'] d IH]; simpl.
  - split; [by intros [? ?]|by intros ?%elem_of_nil].
  - rewrite elem_of_cons. case_bool_decide as Hk; simpl.
    + split; [auto|by eexists].
    + rewrite IH. naive_solver.
Qed.

Lemma dict_get_None d k : dict_get k d = None ↔ k ∉ dict_keys d.
Proof. rewrite <- dict_get_is_Some, eq_None_not_Some. done. Qed.

Lemma elem_of_keyset d k : k ∈ keyset d ↔ k ∈ dict_keys d.
Proof. unfold keyset. apply elem_of_list_to_set. Qed.

Lemma keyset_is_Some d k : k ∈ keyset d ↔ is_Some (dict_get k d).
Proof. by rewrite elem_of_keyset, dict_get_is_Some. Qed.

Lemma dict_get_NoDup d k v : NoDup (dict_keys d) → (k, v) ∈ d → dict_get k d = Some v.
Proof.
  unfold dict_keys. induction d as [|[k' v'] d IH]; simpl.
  - by intros _ ?%elem_of_nil.
  - rewrite NoDup_cons, elem_of_cons. intros [Hk' Hnd] [Heq|Hin].
    + injection Heq as -> ->. by rewrite bool_decide_eq_true_2.
    + case_bool_decide as Hk; [|by apply IH].
      subst. destruct Hk'. apply list_elem_of_fmap. by exists (k, v).
Qed.

Lemma dict_keys_dict_set d k k' v :
  k ∈ dict_keys (dict_set k' v d) ↔ k = k' ∨ k ∈ dict_keys d.
Proof.
  unfold dict_keys. induction d as [|[k0 v0] d IH]; simpl.
  - rewrite list_elem_of_singleton. rewrite elem_of_nil. naive_solver.
  - case_bool_decide as Hk; simpl; rewrite !elem_of_cons; [naive_solver|].
    rewrite IH. naive_solver.
Qed.

Lemma dict_keys_dict_update d other k :
  k ∈ dict_keys (dict_update d other) ↔ k ∈ dict_keys d ∨ k ∈ dict_keys other.
Proof.
  unfold dict_update. revert d. induction other as [|[k0 v0] other IH]; intros d; simpl.
  - change (dict_keys (V:=V) []) with (@nil pystr). rewrite elem_of_nil. naive_solver.
  - rewrite IH, dict_keys_dict_set.
    change (dict_keys ((k0, v0) :: other)) with (k0 :: dict_keys other).
    rewrite elem_of_cons. naive_solver.
Qed.

Lemma dict_set_fresh d k v : k ∉ dict_keys d → dict_set k v d = d ++ [(k, v)].
Proof.
  unfold dict_keys. induction d as [|[k0 v0] d IH]; simpl; [done|].
  rewrite not_elem_of_cons. intros [Hne Hk].
  rewrite bool_decide_eq_false_2 by done. by rewrite IH.
Qed.

Lemma dict_get_dict_set d k k' v :
  dict_get k (dict_set k' v d) = if decide (k = k') then Some v else dict_get k d.
Proof.
  induction d as [|[k0 v0] d IH]; simpl.
  - case_bool_decide; case_decide; congruence.
  - case_bool_decide as H0; simpl.
    + subst. case_bool_decide; case_decide; congruence.
    + rewrite IH. case_bool_decide; case_decide; congruence.
Qed.

End DictFacts.

(** ** The validator *)

Lemma check_key_error_key original translated key e :
  e ∈ check_key original translated key → error_key e = Some key.
Proof.
  unfold check_key. intros He.
  repeat case_match; subst;
    first [by apply elem_of_nil in He | apply list_elem_of_singleton in He; by subst].
Qed.

Lemma check_key_nil original translated key original_value translated_value :
  dict_get key original = Some original_value →
  dict_get key translated = Some (JStr translated_value) →
  check_key original translated key = []
  ↔ findall_placeholders (reference_value original_value)
    ≡ₚ findall_placeholders translated_value.
Proof.
  intros Ho Ht. unfold check_key. rewrite Ho, Ht.
  rewrite <- validate_placeholder_consistency_spec.
  by destruct (validate_placeholder_consistency _ _).
Qed.

(** The value of a checked key is a string whose placeholders are those
    of the source value. *)
Lemma check_key_nil_inv original translated key :
  key ∈ keyset original →
  check_key original translated key = [] →
  ∃ original_value translated_value,
    dict_get key original = Some original_value
    ∧ dict_get key translated = Some (JStr translated_value)
    ∧ findall_placeholders (reference_value original_value)
      ≡ₚ findall_placeholders translated_value.
Proof.
  intros [ov Ho]%keyset_is_Some Hnil.
  destruct (dict_get key translated) as [[tv| | |]|] eqn:Ht;
    try (unfold check_key in Hnil; rewrite Ht in Hnil; done).
  exists ov, tv. split_and!; try done. by apply (check_key_nil original translated key).
Qed.

(** A difference between the key sets is reported, whatever the order of
    iteration. *)
Lemma validate_translation_result_nil_keyset (set_order : gset pystr → list pystr)
    original translated :
  validate_translation_result set_order original translated = [] →
  keyset original = keyset translated.
Proof.
  intros Hnil.
  destruct (decide (keyset original = keyset translated)) as [|Hne]; [done|].
  exfalso. unfold validate_translation_result in Hnil.
  rewrite bool_decide_eq_true_2 in Hnil by done.
  apply app_nil in Hnil as [Hnil _]. apply app_nil in Hnil as [H1 H2].
  case_bool_decide as Hm; [done|]. case_bool_decide as Hx; [done|].
  apply Hne, set_eq. intros k.
  destruct (decide (k ∈ keyset original)), (decide (k ∈ keyset translated));
    try done; exfalso.
  - eapply (not_elem_of_empty (C:=gset pystr) k). rewrite <- Hx. set_solver.
  - eapply (not_elem_of_empty (C:=gset pystr) k). rewrite <- Hm. set_solver.
Qed.

Section ValidatorFacts.
Variable set_order : gset pystr → list pystr.
Hypothesis set_order_ok : iteration_order set_order.

Lemma elem_of_validate_translation_result original translated e :
  e ∈ validate_translation_result set_order original translated →
  error_key e = None
  ∨ ∃ k, k ∈ keyset original ∧ k ∈ keyset translated ∧ e ∈ check_key original translated k.
Proof.
  unfold validate_translation_result. rewrite elem_of_app. intros [He|He].
  - left. case_bool_decide; [|by apply elem_of_nil in He].
    apply elem_of_app in He as [He|He]; case_bool_decide;
      first [by apply elem_of_nil in He | apply list_elem_of_singleton in He; by subst].
  - right. apply list_elem_of_join in He as (errs & He & Herrs).
    apply list_elem_of_fmap in Herrs as (k & -> & Hk).
    apply iteration_order_elem_of in Hk; [|done].
    apply elem_of_intersection in Hk as [? ?]. eauto.
Qed.

Lemma check_key_in_validate_translation_result original translated k e :
  k ∈ keyset original → k ∈ keyset translated →
  e ∈ check_key original translated k →
  e ∈ validate_translation_result set_order original translated.
Proof.
  intros Ho Ht He. unfold validate_translation_result. apply elem_of_app. right.
  apply list_elem_of_join. eexists. split; [done|].
  apply list_elem_of_fmap_2, iteration_order_elem_of; [done|]. set_solver.
Qed.

(** The validator accepts exactly the mappings with the keys of the
    original whose every value passes the check of its key. *)
Lemma validate_translation_result_nil original translated :
  validate_translation_result set_order original translated = []
  ↔ keyset original = keyset translated
    ∧ ∀ k, k ∈ keyset original → check_key original translated k = [].
Proof.
  split.
  - intros Hnil.
    pose proof (validate_translation_result_nil_keyset _ _ _ Hnil) as Hkeys.
    split; [done|]. intros k Hk.
    destruct (check_key original translated k) as [|e errs] eqn:Hck; [done|].
    assert (e ∈ validate_translation_result set_order original translated) as He.
    { apply (check_key_in_validate_translation_result _ _ k); [done|by rewrite <- Hkeys|].
      rewrite Hck. left. }
    rewrite Hnil in He. by apply elem_of_nil in He.
  - intros [Hkeys Hall]. unfold validate_translation_result.
    rewrite bool_decide_eq_false_2 by (by intros []). simpl.
    apply join_nil, Forall_fmap, Forall_forall. intros k Hk. simpl.
    apply iteration_order_elem_of in Hk; [|done]. apply Hall. set_solver.
Qed.

Lemma validate_translation_result_about_key original translated key :
  key ∈ keyset original → key ∈ keyset translated →
  (∀ e, e ∈ validate_translation_result set_order original translated →
        error_key e ≠ Some key)
  ↔ check_key original translated key = [].
Proof.
  intros Ho Ht. split.
  - intros Hnone.
    destruct (check_key original translated key) as [|e errs] eqn:Hck; [done|].
    destruct (Hnone e).
    + apply (check_key_in_validate_translation_result _ _ key); [done..|].
      rewrite Hck. left.
    + apply (check_key_error_key original translated). rewrite Hck. left.
  - intros Hnil e [Hnone|(k & _ & _ & He)]%elem_of_validate_translation_result.
    + by rewrite Hnone.
    + rewrite (check_key_error_key _ _ _ _ He). intros [= ->].
      rewrite Hnil in He. by apply elem_of_nil in He.
Qed.

End ValidatorFacts.

(** ** The tokens found by the pattern *)

Lemma span_decimal_digits (s : pystr) :
  Forall (fun c => is_decimal c = true) (span_decimal s).1.
Proof.
  induction s as [|c s IH]; simpl; [constructor|].
  destruct (is_decimal c) eqn:Hc; [|constructor].
  destruct (span_decimal s) as [ds rest]. simpl in *. by constructor.
Qed.

Lemma match_placeholder_token (s tok : pystr) :
  match_placeholder s = Some tok → placeholder_token tok.
Proof.
  destruct s as [|c r]; simpl; [done|].
  case_bool_decide; [|done].
  pose proof (span_decimal_digits r) as Hds.
  destruct (span_decimal r) as [[|d ds] [|c1 [|c2 rest]]]; simpl in *; try done.
  - case_bool_decide; [|done]. intros [= <-]. by left.
  - case_bool_decide; [|done]. intros [= <-]. by left.
  - destruct (bool_decide (c1 = DOLLAR) && bool_decide (c2 = LOWER_S)); [|done].
    intros [= <-]. right. by exists (d :: ds).
Qed.

Lemma findall_from_cons (skip : nat) (c : N) (s : pystr) :
  findall_from skip (c :: s) =
  match skip with
  | S k => findall_from k s
  | O =>
    match match_placeholder (c :: s) with
    | Some tok => tok :: findall_from (Nat.pred (length tok)) s
    | None => findall_from 0 s
    end
  end.
Proof. reflexivity. Qed.

Lemma findall_from_token (skip : nat) (s tok : pystr) :
  tok ∈ findall_from skip s → placeholder_token tok.
Proof.
  revert skip. induction s as [|c s IH]; intros skip.
  - by intros ?%elem_of_nil.
  - rewrite findall_from_cons. destruct skip as [|k]; [|by apply IH].
    destruct (match_placeholder (c :: s)) as [tok'|] eqn:Hm; [|by apply IH].
    intros [->|Hin]%elem_of_cons; [by eapply match_placeholder_token|by eapply IH].
Qed.

(** C4. For a key of both mappings whose translated value is a string,
    [validate_translation_result] reports nothing about the key exactly
    when the tokens that [%(?:\d+\$)?s] finds in the translated value are,
    as a multiset, those it finds in the source value; the source value of
    a list is its first element, and the empty string when the list is
    empty; every token found is a percent sign, optionally digits and a
    dollar sign, and the letter s. For the source [Deal %1$s damage to %2$s]
    the translation [Infligez %1$s dégâts à %2$s] is accepted and
    [Infligez des dégâts à %2$s] is rejected. *)
Theorem placeholder_multiset_decides_acceptance :
  (∀ set_order original translated key original_value translated_value,
     iteration_order set_order →
     dict_get key original = Some original_value →
     dict_get key translated = Some (JStr translated_value) →
     (∀ e, e ∈ validate_translation_result set_order original translated →
           error_key e ≠ Some key)
     ↔ findall_placeholders (reference_value original_value)
       ≡ₚ findall_placeholders translated_value)
  ∧ (∀ first rest, reference_value (Candidates (first :: rest)) = first)
  ∧ reference_value (Candidates []) = []
  ∧ (∀ s tok, tok ∈ findall_placeholders s → placeholder_token tok)
  ∧ validate_placeholder_consistency
      (py "Deal %1$s damage to %2$s") (py "Infligez %1$s dégâts à %2$s") = true
  ∧ validate_placeholder_consistency
      (py "Deal %1$s damage to %2$s") (py "Infligez des dégâts à %2$s") = false.
Proof.
  split_and!.
  - intros set_order original translated key ov tv Hord Ho Ht.
    rewrite validate_translation_result_about_key.
    + by apply check_key_nil.
    + done.
    + apply keyset_is_Some. by rewrite Ho.
    + apply keyset_is_Some. by rewrite Ht.
  - done.
  - done.
  - intros s tok. apply findall_from_token.
  - by vm_compute.
  - by vm_compute.
Qed.

Lemma placeholder_multiset_decides_acceptance_witness :
  iteration_order elements
  ∧ dict_get (py "k") [(py "k", Single (py "Deal %1$s damage to %2$s"))]
    = Some (Single (py "Deal %1$s damage to %2$s"))
  ∧ dict_get (py "k") [(py "k", JStr (py "Infligez %1$s dégâts à %2$s"))]
    = Some (JStr (py "Infligez %1$s dégâts à %2$s"))
  ∧ ((∀ e, e ∈ validate_translation_result elements
                 [(py "k", Single (py "Deal %1$s damage to %2$s"))]
                 [(py "k", JStr (py "Infligez %1$s dégâts à %2$s"))] →
           error_key e ≠ Some (py "k"))
     ↔ findall_placeholders (reference_value (Single (py "Deal %1$s damage to %2$s")))
       ≡ₚ findall_placeholders (py "Infligez %1$s dégâts à %2$s")).
Proof.
  split_and!.
  - intros X. reflexivity.
  - reflexivity.
  - reflexivity.
  - apply (proj1 placeholder_multiset_decides_acceptance).
    + intros X. reflexivity.
    + reflexivity.
    + reflexivity.
Defined.

(** ** Substrings *)

Lemma startswith_app (p s : pystr) : startswith p (p ++ s) = true.
Proof.
  induction p as [|a p IH]; simpl; [done|].
  by rewrite bool_decide_eq_true_2, IH.
Qed.

Lemma contains_prefix (p s : pystr) : contains p (p ++ s) = true.
Proof. destruct (p ++ s) eqn:Heq; simpl; rewrite <- Heq, startswith_app; done. Qed.

(** A prefix without the first character of the needle hides no
    occurrence of it. *)
Lemma contains_app_without_head (c : N) (needle p s : pystr) :
  c ∉ p → contains (c :: needle) (p ++ s) = contains (c :: needle) s.
Proof.
  induction p as [|x p IH]; [done|].
  rewrite not_elem_of_cons. intros [Hne Hp].
  change (contains (c :: needle) ((x :: p) ++ s))
    with (bool_decide (c = x) && startswith needle (p ++ s)
          || contains (c :: needle) (p ++ s)).
  rewrite bool_decide_eq_false_2 by done. simpl. by apply IH.
Qed.

(** The message of a failed validation carries the marker. *)
Lemma validation_message_has_marker (details : pystr) :
  contains VALIDATION_MARKER (py "翻译验证失败: " ++ details) = true.
Proof.
  change (py "翻译验证失败: ") with (VALIDATION_MARKER ++ py ": ").
  rewrite <- (assoc_L (++)). apply contains_prefix.
Qed.


(** ** The retry state machine *)

Lemma get_temperature_and_mode_schedule (mode : bool) (n : nat) :
  (0 < n)%nat →
  ∃ t, get_temperature_and_mode mode n = Some (t, (retry_schedule mode n).2)
       ∧ (retry_schedule mode n).1 = Some t.
Proof.
  intros Hn. unfold get_temperature_and_mode, retry_schedule.
  rewrite (bool_decide_eq_false_2 (n = 0)%nat) by lia.
  case_bool_decide as H5.
  - destruct n as [|[|[|[|[|[|n]]]]]]; try lia; simpl; eauto.
  - pose proof (Nat.mod_upper_bound (n - 6) 5 ltac:(lia)) as Hlt.
    destruct (lookup_lt_is_Some_2 TEMPERATURE_ADJUSTMENTS ((n - 6) `mod` 5)) as [t Ht];
      [done|].
    exists t. rewrite Ht. done.
Qed.

Section EngineFacts.
Variable set_order : gset pystr → list pystr.
Variable json_loads : pystr → json_document.
Variable render_error : validation_error → pystr.
Variable max_individual_retries : nat.
Variable svc : service.
Variable request : TranslationRequest.

Local Abbreviation R := max_individual_retries.
Local Abbreviation iteration' := (iteration set_order json_loads render_error R svc request).
Local Abbreviation run_loop' fuel := (run_loop set_order json_loads render_error fuel R svc request).
Local Abbreviation translate_batch' := (translate_batch set_order json_loads render_error).

(** One round of the loop, in full: the call is made with the parameters
    of the schedule, the mode is restored, and the counters, the sleep and
    the exit follow the verdict. *)
Lemma iteration_spec st :
  (api_failure_count st < R)%nat → (validation_failure_count st < R)%nat →
  ∃ t, (retry_schedule (non_thinking_mode st) (validation_failure_count st)).1 = Some t ∧
  let mode := (retry_schedule (non_thinking_mode st) (validation_failure_count st)).2 in
  let a := api_failure_count st in
  let v := validation_failure_count st in
  iteration' st =
  match classify (translate_batch' (texts request) (svc (S (total_attempts st)) t mode)) with
  | Success result => Return result (after_attempt st t mode a v (sleeps st))
  | ValidationFailure =>
    if bool_decide (S v < R)%nat
    then Continue (after_attempt st t mode a (S v) (sleeps st ++ [1%nat]))
    else Return [] (after_attempt st t mode a (S v) (sleeps st))
  | ApiFailure =>
    if bool_decide (S a < R)%nat
    then Continue (after_attempt st t mode (S a) v (sleeps st ++ [5%nat]))
    else Return [] (after_attempt st t mode (S a) v (sleeps st))
  end.
Proof.
  intros Ha Hv. destruct st as [a v n mode0 cs sl]. simpl in *.
  destruct v as [|v'].
  - exists 1.3%Q. split; [done|]. unfold iteration, on_exception, classify. simpl.
    destruct (translate_batch' _ _) as [[|kv result]|error_str]; simpl.
    + by case_bool_decide.
    + done.
    + destruct (contains VALIDATION_MARKER error_str); simpl.
      * rewrite (bool_decide_eq_true_2 (a < R)%nat) by done. simpl.
        by case_bool_decide.
      * rewrite (bool_decide_eq_true_2 (0 < R)%nat) by lia. rewrite andb_true_r.
        by case_bool_decide.
  - destruct (get_temperature_and_mode_schedule mode0 (S v') ltac:(lia)) as (t & Hget & Ht).
    exists t. split; [done|].
    set (mode := (retry_schedule mode0 (S v')).2) in *.
    unfold iteration, on_exception, classify.
    cbn [next_attempt validation_failure_count non_thinking_mode api_failure_count
         total_attempts calls sleeps].
    rewrite (bool_decide_eq_true_2 (0 < S v')%nat) by lia. rewrite Hget.
    cbn [set_mode log_call next_attempt validation_failure_count non_thinking_mode
         api_failure_count total_attempts calls sleeps].
    destruct (translate_batch' _ _) as [[|kv result]|error_str];
      cbn [set_mode set_counts sleep validation_failure_count non_thinking_mode
           api_failure_count total_attempts calls sleeps].
    + by case_bool_decide.
    + done.
    + destruct (contains VALIDATION_MARKER error_str);
        cbn [set_mode set_counts sleep validation_failure_count non_thinking_mode
             api_failure_count total_attempts calls sleeps].
      * rewrite (bool_decide_eq_true_2 (0 < S (S v'))%nat) by lia.
        cbn [set_mode set_counts sleep validation_failure_count non_thinking_mode
             api_failure_count total_attempts calls sleeps].
        rewrite (bool_decide_eq_true_2 (a < R)%nat) by done. simpl.
        by case_bool_decide.
      * rewrite (bool_decide_eq_true_2 (0 < S v')%nat) by lia.
        cbn [set_mode set_counts sleep validation_failure_count non_thinking_mode
             api_failure_count total_attempts calls sleeps].
        rewrite (bool_decide_eq_true_2 (S v' < R)%nat) by done. rewrite andb_true_r.
        by case_bool_decide.
Qed.

(** An invariant of the loop that every [return] turns into [Post] holds
    of what a run returns. *)
Lemma run_loop_returns_ind (Inv : exec_state → Prop)
    (Post : dict json → exec_state → Prop) :
  (∀ st, Inv st →
     (api_failure_count st < R)%nat → (validation_failure_count st < R)%nat →
     match iteration' st with
     | Continue st' => Inv st'
     | Return result st' => Post result st'
     end) →
  ∀ fuel st result st',
    Inv st → run_loop' fuel st = Returns result st' → Post result st'.
Proof.
  intros Hstep fuel. induction fuel as [|fuel IH]; intros st result st' HInv; simpl.
  - by destruct (_ && _).
  - destruct (bool_decide _ && bool_decide _) eqn:Hloop; [|done].
    apply andb_true_iff in Hloop as [Ha%bool_decide_eq_true Hv%bool_decide_eq_true].
    specialize (Hstep st HInv Ha Hv).
    destruct (iteration' st) as [st1|r1 st1]; [by apply IH|].
    by intros [= <- <-].
Qed.

(** The loop is left only by a [return]: a run that starts inside the
    loop, with fuel for the failures still allowed, returns. *)
Lemma run_loop_terminates fuel st :
  (api_failure_count st < R)%nat → (validation_failure_count st < R)%nat →
  (2 * R ≤ S fuel + api_failure_count st + validation_failure_count st)%nat →
  ∃ result st', run_loop' fuel st = Returns result st'.
Proof.
  revert st. induction fuel as [|fuel IH]; intros st Ha Hv Hfuel; [lia|].
  simpl. rewrite !bool_decide_eq_true_2 by done. simpl.
  destruct (iteration_spec st Ha Hv) as (t & _ & ->).
  destruct (classify _) as [r| |]; [by eauto | |]; case_bool_decide; eauto;
    apply IH; simpl; lia.
Qed.

Lemma classify_Success o result :
  classify o = Success result → o = Returned result ∧ result ≠ [].
Proof.
  destruct o as [[|kv r]|error_str]; simpl; try done.
  - by intros [= <-].
  - by destruct (contains _ _).
Qed.

(** The result is empty exactly when a counter has reached the limit. *)
Lemma run_loop_empty_iff_exhausted fuel st0 result st0' :
  (api_failure_count st0 < R)%nat → (validation_failure_count st0 < R)%nat →
  run_loop' fuel st0 = Returns result st0' →
  (result = [] ↔ api_failure_count st0' = R ∨ validation_failure_count st0' = R).
Proof.
  intros Ha Hv.
  apply (run_loop_returns_ind
           (fun st => (api_failure_count st < R)%nat ∧ (validation_failure_count st < R)%nat)
           (fun result st' =>
              result = [] ↔ api_failure_count st' = R ∨ validation_failure_count st' = R));
    [|done].
  clear. intros st _ Ha Hv.
  destruct (iteration_spec st Ha Hv) as (t & _ & ->).
  destruct (classify _) as [r| |] eqn:Hc.
  - apply classify_Success in Hc as [_ Hne]. simpl. split; [done|lia].
  - case_bool_decide; simpl; [lia|]. split; [intros _; lia|done].
  - case_bool_decide; simpl; [lia|]. split; [intros _; lia|done].
Qed.

(** A run whose every attempt is a failed API call makes [R] attempts and
    leaves the validation counter alone. *)
Lemma run_loop_all_api_failures fuel st0 result st0' :
  (∀ n t m, classify (translate_batch' (texts request) (svc n t m)) = ApiFailure) →
  (api_failure_count st0 < R)%nat → validation_failure_count st0 = 0%nat →
  total_attempts st0 = api_failure_count st0 →
  run_loop' fuel st0 = Returns result st0' →
  result = [] ∧ api_failure_count st0' = R ∧ validation_failure_count st0' = 0%nat
  ∧ total_attempts st0' = R.
Proof.
  intros Hsvc Ha Hv Hn.
  apply (run_loop_returns_ind
           (fun st => validation_failure_count st = 0%nat
                      ∧ total_attempts st = api_failure_count st)
           (fun result st' =>
              result = [] ∧ api_failure_count st' = R
              ∧ validation_failure_count st' = 0%nat ∧ total_attempts st' = R));
    [|by split_and!].
  clear Ha Hv Hn. intros st [Hv Hn] Ha Hv'.
  destruct (iteration_spec st Ha Hv') as (t & _ & ->). rewrite Hsvc.
  case_bool_decide; simpl; split_and!; try done; lia.
Qed.

(** Likewise for a run whose every attempt fails validation. *)
Lemma run_loop_all_validation_failures fuel st0 result st0' :
  (∀ n t m, classify (translate_batch' (texts request) (svc n t m)) = ValidationFailure) →
  (validation_failure_count st0 < R)%nat → api_failure_count st0 = 0%nat →
  total_attempts st0 = validation_failure_count st0 →
  run_loop' fuel st0 = Returns result st0' →
  result = [] ∧ validation_failure_count st0' = R ∧ api_failure_count st0' = 0%nat
  ∧ total_attempts st0' = R.
Proof.
  intros Hsvc Hv Ha Hn.
  apply (run_loop_returns_ind
           (fun st => api_failure_count st = 0%nat
                      ∧ total_attempts st = validation_failure_count st)
           (fun result st' =>
              result = [] ∧ validation_failure_count st' = R
              ∧ api_failure_count st' = 0%nat ∧ total_attempts st' = R));
    [|by split_and!].
  clear Ha Hv Hn. intros st [Ha Hn] Ha' Hv.
  destruct (iteration_spec st Ha' Hv) as (t & _ & ->). rewrite Hsvc.
  case_bool_decide; simpl; split_and!; try done; lia.
Qed.


(** A result that is not empty is one that [translate_batch] returned. *)
Lemma run_loop_result_from_translate_batch fuel st0 result st0' :
  run_loop' fuel st0 = Returns result st0' → result ≠ [] →
  ∃ resp, translate_batch' (texts request) resp = Returned result.
Proof.
  apply (run_loop_returns_ind (fun _ => True)
           (fun result _ =>
              result ≠ [] → ∃ resp, translate_batch' (texts request) resp = Returned result));
    [|done].
  clear. intros st _ Ha Hv.
  destruct (iteration_spec st Ha Hv) as (t & _ & ->).
  destruct (classify _) as [r| |] eqn:Hc.
  - apply classify_Success in Hc as [Hc _]. eauto.
  - by case_bool_decide.
  - by case_bool_decide.
Qed.

End EngineFacts.

(** ** What [translate_batch] makes of a response *)
Section TranslateBatchFacts.
Variable set_order : gset pystr → list pystr.
Variable json_loads : pystr → json_document.
Variable render_error : validation_error → pystr.

Local Abbreviation translate_batch' := (translate_batch set_order json_loads render_error).

Lemma translate_batch_nothing_to_translate texts resp :
  texts_to_translate texts = [] → translate_batch' texts resp = Returned [].
Proof. intros Hnil. unfold translate_batch. rewrite Hnil. by destruct texts. Qed.

Lemma translate_batch_transport_failure texts msg :
  texts_to_translate texts ≠ [] →
  translate_batch' texts (TransportFailure msg) = Raised msg.
Proof.
  intros Hne. unfold translate_batch.
  destruct texts as [|kv texts]; [done|].
  by destruct (texts_to_translate (kv :: texts)).
Qed.

Lemma translate_batch_reply texts content :
  texts_to_translate texts ≠ [] →
  translate_batch' texts (Reply content) =
  match json_loads (clean_content content) with
  | JDecodeError e => Raised (py "JSON解析失败: " ++ e)
  | JOther type_name _ =>
    Raised (py "'" ++ type_name ++ py "' object has no attribute 'keys'")
  | JObject translated_dict =>
    match validate_translation_result set_order (texts_to_translate texts)
            translated_dict with
    | [] => Returned translated_dict
    | validation_errors =>
      Raised (py "翻译验证失败: " ++ join (py "; ") (render_error <$> validation_errors))
    end
  end.
Proof.
  intros Hne. unfold translate_batch.
  destruct texts as [|kv texts]; [done|].
  by destruct (texts_to_translate (kv :: texts)).
Qed.


Lemma classify_transport_failure texts msg :
  texts_to_translate texts ≠ [] →
  contains VALIDATION_MARKER msg = false →
  classify (translate_batch' texts (TransportFailure msg)) = ApiFailure.
Proof.
  intros Hne Hmsg. rewrite translate_batch_transport_failure by done.
  unfold classify. by rewrite Hmsg.
Qed.

(** A reply with other keys than the payload is a failed validation. *)
Lemma classify_key_mismatch texts content translated :
  json_loads (clean_content content) = JObject translated →
  keyset translated ≠ keyset (texts_to_translate texts) →
  classify (translate_batch' texts (Reply content)) = ValidationFailure.
Proof.
  intros Hparse Hkeys.
  destruct (decide (texts_to_translate texts = [])) as [Hnil|Hne].
  { by rewrite translate_batch_nothing_to_translate. }
  rewrite translate_batch_reply, Hparse by done.
  destruct (validate_translation_result _ _ _) as [|err errs] eqn:Hval.
  - apply validate_translation_result_nil_keyset in Hval. congruence.
  - unfold classify. by rewrite validation_message_has_marker.
Qed.

(** What [translate_batch] returns has passed the validator. *)
Lemma translate_batch_Returned texts resp kv result :
  translate_batch' texts resp = Returned (kv :: result) →
  validate_translation_result set_order (texts_to_translate texts) (kv :: result) = [].
Proof.
  unfold translate_batch. destruct texts as [|kv0 texts]; [done|].
  destruct (texts_to_translate (kv0 :: texts)) as [|kv1 payload]; [done|].
  destruct resp as [msg|content]; [done|].
  destruct (json_loads _) as [e|translated|type_name truthy]; try done.
  destruct (validate_translation_result _ _ _) eqn:Hval; [|done].
  by intros [= ->].
Qed.

End TranslateBatchFacts.

Lemma keyset_texts_to_translate (texts : dict srcval) :
  keyset (texts_to_translate texts) = keyset texts ∖ {[CORE_KEYS]}.
Proof.
  apply set_eq. intros k.
  rewrite elem_of_difference, !elem_of_keyset, not_elem_of_singleton.
  unfold texts_to_translate, dict_keys.
  rewrite !list_elem_of_fmap. split.
  - intros ([k' v] & -> & [Hne Hin]%list_elem_of_filter). split; [|done].
    by exists (k', v).
  - intros [([k' v] & -> & Hin) Hne]. exists (k', v). split; [done|].
    by apply list_elem_of_filter.
Qed.

(** ** The two retry channels *)




(** C3. [execute_translation_request] returns, and its result is empty
    exactly when one of the two counters has reached
    [MAX_INDIVIDUAL_RETRIES]. When every attempt raises a transport error
    (whose text is free of the marker), it makes [MAX_INDIVIDUAL_RETRIES]
    attempts, the API counter reaches the limit, the validation counter
    stays at 0 and the result is empty. When every attempt is answered by
    an object whose keys are not those of the payload, only the validation
    counter is used up. *)
Theorem retry_channels_are_independent :
  (∀ set_order json_loads render_error svc mode request,
     ∃ result st,
       execute_translation_request set_order json_loads render_error svc mode request
       = Returns result st
       ∧ (result = [] ↔ api_failure_count st = MAX_INDIVIDUAL_RETRIES
                        ∨ validation_failure_count st = MAX_INDIVIDUAL_RETRIES))
  ∧ (∀ set_order json_loads render_error svc mode request,
       texts_to_translate (texts request) ≠ [] →
       (∀ n t m, ∃ msg, svc n t m = TransportFailure msg
                        ∧ contains VALIDATION_MARKER msg = false) →
       ∃ st,
         execute_translation_request set_order json_loads render_error svc mode request
         = Returns [] st
         ∧ total_attempts st = MAX_INDIVIDUAL_RETRIES
         ∧ api_failure_count st = MAX_INDIVIDUAL_RETRIES
         ∧ validation_failure_count st = 0%nat)
  ∧ (∀ set_order json_loads render_error svc mode request,
       (∀ n t m, ∃ content translated,
          svc n t m = Reply content
          ∧ json_loads (clean_content content) = JObject translated
          ∧ keyset translated ≠ keyset (texts_to_translate (texts request))) →
       ∃ st,
         execute_translation_request set_order json_loads render_error svc mode request
         = Returns [] st
         ∧ total_attempts st = MAX_INDIVIDUAL_RETRIES
         ∧ validation_failure_count st = MAX_INDIVIDUAL_RETRIES
         ∧ api_failure_count st = 0%nat).
Proof.
  assert (∀ set_order json_loads render_error svc mode request,
            ∃ result st,
              execute_translation_request set_order json_loads render_error svc mode request
              = Returns result st) as Hruns.
  { intros. apply run_loop_terminates; simpl; unfold MAX_INDIVIDUAL_RETRIES; lia. }
  split_and!.
  - intros set_order json_loads render_error svc mode request.
    destruct (Hruns set_order json_loads render_error svc mode request) as (r & st & Hrun).
    exists r, st. split; [done|].
    eapply run_loop_empty_iff_exhausted; [| |exact Hrun]; simpl;
      unfold MAX_INDIVIDUAL_RETRIES; lia.
  - intros set_order json_loads render_error svc mode request Hne Hsvc.
    destruct (Hruns set_order json_loads render_error svc mode request) as (r & st & Hrun).
    apply run_loop_all_api_failures in Hrun as Hst.
    + destruct Hst as (-> & ? & ? & ?). by exists st.
    + intros n t m. destruct (Hsvc n t m) as (msg & -> & Hmsg).
      by apply classify_transport_failure.
    + simpl. unfold MAX_INDIVIDUAL_RETRIES. lia.
    + done.
    + done.
  - intros set_order json_loads render_error svc mode request Hsvc.
    destruct (Hruns set_order json_loads render_error svc mode request) as (r & st & Hrun).
    apply run_loop_all_validation_failures in Hrun as Hst.
    + destruct Hst as (-> & ? & ? & ?). by exists st.
    + intros n t m. destruct (Hsvc n t m) as (content & translated & -> & Hparse & Hkeys).
      by eapply classify_key_mismatch.
    + simpl. unfold MAX_INDIVIDUAL_RETRIES. lia.
    + done.
    + done.
Qed.

Lemma retry_channels_are_independent_witness :
  texts_to_translate (texts sample_request) ≠ []
  ∧ (∀ (n : nat) (t : Q) (m : bool), ∃ msg,
       TransportFailure (py "Read timed out. (read timeout=60)") = TransportFailure msg
       ∧ contains VALIDATION_MARKER msg = false)
  ∧ ∃ st,
      execute_translation_request elements sample_json_loads sample_render_error
        (fun _ _ _ => TransportFailure (py "Read timed out. (read timeout=60)"))
        false sample_request
      = Returns [] st
      ∧ total_attempts st = MAX_INDIVIDUAL_RETRIES
      ∧ api_failure_count st = MAX_INDIVIDUAL_RETRIES
      ∧ validation_failure_count st = 0%nat.
Proof.
  split_and!.
  - vm_compute. discriminate.
  - intros n t m. eexists. split; [reflexivity|]. vm_compute. reflexivity.
  - apply (proj1 (proj2 retry_channels_are_independent) elements sample_json_loads
             sample_render_error
             (fun _ _ _ => TransportFailure (py "Read timed out. (read timeout=60)"))
             false sample_request).
    + vm_compute. discriminate.
    + intros n t m. eexists. split; [reflexivity|]. vm_compute. reflexivity.
Defined.

(** ** Escalation *)




(** The sample run: seven failed validations, the eighth attempt made with
    the other model variant and the second temperature of the schedule. *)
Example sample_run_escalates :
  ∃ st,
    execute_translation_request elements sample_json_loads sample_render_error
      sample_service false sample_request
    = Returns [(py "greeting", JStr (py "Bonjour %s"))] st
    ∧ validation_failure_count st = 7%nat ∧ api_failure_count st = 0%nat
    ∧ at_temperature <$> calls st = [1.3; 1.3; 1.3; 1.2; 1.0; 0.7; 1.3; 1.3]%Q
    ∧ at_non_thinking_mode <$> calls st
      = [false; false; false; false; false; false; true; true]
    ∧ sleeps st = replicate 7 1%nat.
Proof. eexists. split_and!; [by vm_compute|done..]. Qed.

(** ** The keys of a successful result *)

Lemma execute_translation_request_result_keys
    set_order json_loads render_error svc mode request result st :
  execute_translation_request set_order json_loads render_error svc mode request
  = Returns result st →
  result ≠ [] →
  keyset result = keyset (texts request) ∖ {[CORE_KEYS]}.
Proof.
  intros Hrun Hne.
  destruct (run_loop_result_from_translate_batch _ _ _ _ _ _ _ _ _ _ Hrun Hne)
    as [resp Hresp].
  destruct result as [|kv result]; [done|].
  apply translate_batch_Returned, validate_translation_result_nil_keyset in Hresp.
  by rewrite <- Hresp, keyset_texts_to_translate.
Qed.

Lemma execute_translation_request_no_marker
    set_order json_loads render_error svc mode request result st :
  execute_translation_request set_order json_loads render_error svc mode request
  = Returns result st →
  CORE_KEYS ∉ dict_keys result.
Proof.
  intros Hrun. destruct (decide (result = [])) as [->|Hne].
  - apply not_elem_of_nil.
  - rewrite <- elem_of_keyset, (execute_translation_request_result_keys _ _ _ _ _ _ _ _ Hrun Hne).
    set_solver.
Qed.

(** The buckets stay free of a key that no merged result carries. *)
Lemma collect_results_without_key (k : pystr)
    (finished : list (TranslationRequest * run_result))
    (acc : results_by_namespace_and_language) :
  (∀ ns by_lang lang bucket,
     acc !! ns = Some by_lang → by_lang !! lang = Some bucket → k ∉ dict_keys bucket) →
  (∀ request result st, (request, Returns result st) ∈ finished → k ∉ dict_keys result) →
  ∀ ns by_lang lang bucket,
    foldl merge_result acc finished !! ns = Some by_lang →
    by_lang !! lang = Some bucket → k ∉ dict_keys bucket.
Proof.
  revert acc. induction finished as [|[request res] finished IH]; intros acc Hacc Hfin; [done|].
  simpl. apply IH.
  - unfold merge_result. cbn [fst snd]. destruct res as [result st| |]; try done.
    intros ns by_lang lang bucket.
    destruct (decide (namespace request = ns)) as [<-|Hns].
    + rewrite lookup_insert_eq. intros [= <-].
      destruct (decide (target_lang request = lang)) as [<-|Hlang].
      * rewrite lookup_insert_eq. intros [= <-].
        rewrite dict_keys_dict_update. intros [Hk|Hk].
        -- destruct (acc !! namespace request) as [by_lang|] eqn:Hns; simpl in Hk.
           ++ destruct (by_lang !! target_lang request) as [bucket|] eqn:Hl; simpl in Hk.
              ** by eapply Hacc.
              ** by apply elem_of_nil in Hk.
           ++ rewrite lookup_empty in Hk. by apply elem_of_nil in Hk.
        -- eapply Hfin; [left|done].
      * rewrite lookup_insert_ne by done.
        destruct (acc !! namespace request) as [by_lang|] eqn:Hns; simpl.
        -- by eapply Hacc.
        -- by rewrite lookup_empty.
    + rewrite lookup_insert_ne by done. apply Hacc.
  - intros request' result st Hin. eapply Hfin. right. done.
Qed.

(** C10. A result of [execute_translation_request] that is not empty has
    the keys of the request's payload without [__core_keys__]; the marker
    is no key of it, and it is no key of any bucket into which results of
    [execute_translation_request] are merged. *)
Theorem successful_result_has_payload_keys :
  (∀ set_order json_loads render_error svc mode request result st,
     execute_translation_request set_order json_loads render_error svc mode request
     = Returns result st →
     result ≠ [] →
     keyset result = keyset (texts request) ∖ {[CORE_KEYS]}
     ∧ CORE_KEYS ∉ dict_keys result)
  ∧ (∀ finished : list (TranslationRequest * run_result),
       (∀ request res, (request, res) ∈ finished →
          ∃ set_order json_loads render_error svc mode,
            res = execute_translation_request set_order json_loads render_error svc mode
                    request) →
       ∀ ns by_lang lang bucket,
         collect_results finished !! ns = Some by_lang →
         by_lang !! lang = Some bucket →
         CORE_KEYS ∉ dict_keys bucket).
Proof.
  split.
  - intros set_order json_loads render_error svc mode request result st Hrun Hne.
    split.
    + by eapply execute_translation_request_result_keys.
    + by eapply execute_translation_request_no_marker.
  - intros finished Hfin. unfold collect_results.
    apply collect_results_without_key.
    + intros ns by_lang lang bucket. by rewrite lookup_empty.
    + intros request result st Hin.
      destruct (Hfin _ _ Hin) as (set_order & json_loads & render_error & svc & mode & Hres).
      symmetry in Hres. by eapply execute_translation_request_no_marker.
Qed.

Lemma successful_result_has_payload_keys_witness :
  execute_translation_request elements sample_json_loads sample_render_error
    sample_service false sample_request
  = Returns [(py "greeting", JStr (py "Bonjour %s"))]
      (after_attempt
         {| api_failure_count := 0; validation_failure_count := 7; total_attempts := 7;
            non_thinking_mode := false;
            calls := (fun n => {| at_number := S n; at_api_failures := 0;
                                  at_validation_failures := n;
                                  at_temperature :=
                                    default 0%Q (retry_schedule false n).1;
                                  at_non_thinking_mode := (retry_schedule false n).2 |})
                       <$> seq 0 7;
            sleeps := replicate 7 1%nat |}
         1.3%Q true 0 7 (replicate 7 1%nat))
  ∧ [(py "greeting", JStr (py "Bonjour %s"))] ≠ []
  ∧ keyset [(py "greeting", JStr (py "Bonjour %s"))]
    = keyset (texts sample_request) ∖ {[CORE_KEYS]}
  ∧ CORE_KEYS ∉ dict_keys [(py "greeting", JStr (py "Bonjour %s"))].
Proof.
  split; [vm_compute; reflexivity|]. split; [discriminate|].
  apply (proj1 successful_result_has_payload_keys elements sample_json_loads
           sample_render_error sample_service false sample_request
           [(py "greeting", JStr (py "Bonjour %s"))]
           (after_attempt
              {| api_failure_count := 0; validation_failure_count := 7; total_attempts := 7;
                 non_thinking_mode := false;
                 calls := (fun n => {| at_number := S n; at_api_failures := 0;
                                       at_validation_failures := n;
                                       at_temperature :=
                                         default 0%Q (retry_schedule false n).1;
                                       at_non_thinking_mode := (retry_schedule false n).2 |})
                            <$> seq 0 7;
                 sleeps := replicate 7 1%nat |}
              1.3%Q true 0 7 (replicate 7 1%nat))).
  - vm_compute. reflexivity.
  - discriminate.
Defined.

(** ** The cleanup sweep *)

Lemma filter_ext_elem_of {A : Type} (P Q : A → Prop)
    `{!∀ x, Decision (P x), !∀ x, Decision (Q x)} (l : list A) :
  (∀ x, x ∈ l → P x ↔ Q x) → filter P l = filter Q l.
Proof.
  induction l as [|x l IH]; intros Hext; [done|].
  rewrite !filter_cons, IH by (intros y Hy; apply Hext; by right).
  destruct (decide (P x)) as [HP|HP], (decide (Q x)) as [HQ|HQ]; try done.
  - destruct HQ. apply Hext; [left|done].
  - destruct HP. apply Hext; [left|done].
Qed.

Lemma filter_all {A : Type} (P : A → Prop) `{!∀ x, Decision (P x)} (l : list A) :
  (∀ x, x ∈ l → P x) → filter P l = l.
Proof.
  induction l as [|x l IH]; intros Hall; [done|].
  rewrite filter_cons_True by (apply Hall; left).
  f_equal. apply IH. intros y Hy. apply Hall. by right.
Qed.

Lemma foldl_dict_del {V : Type} (ks : list pystr) (d : dict V) :
  foldl (fun d k => dict_del k d) d ks = filter (fun kv => kv.1 ∉ ks) d.
Proof.
  revert d. induction ks as [|k ks IH]; intros d; simpl.
  - symmetry. apply filter_all. intros kv _. apply not_elem_of_nil.
  - rewrite IH. unfold dict_del. rewrite list_filter_filter.
    apply list_filter_iff. intros kv. rewrite not_elem_of_cons. naive_solver.
Qed.

Lemma prune_idemp source_dict store :
  prune source_dict (prune source_dict store) = prune source_dict store.
Proof.
  unfold prune. rewrite list_filter_filter. apply list_filter_iff. naive_solver.
Qed.

Lemma prune_keys source_dict store k :
  k ∈ dict_keys (prune source_dict store) → k ∈ dict_keys source_dict.
Proof.
  unfold prune, dict_keys at 1. rewrite list_elem_of_fmap.
  intros ([k' v] & -> & [Hk _]%list_elem_of_filter). by apply elem_of_keyset.
Qed.

(** Deleting the keys that the reference lacks prunes the store. *)
Lemma delete_extra_keys_prune source_dict (store : dict json) :
  foldl (fun d k => dict_del k d) store
    (filter (fun k => k ∉ keyset source_dict) (dict_keys store))
  = prune source_dict store.
Proof.
  rewrite foldl_dict_del. unfold prune. apply filter_ext_elem_of.
  intros [k v] Hin. simpl. rewrite list_elem_of_filter. split.
  - intros Hn. apply dec_stable. intros Hk. apply Hn. split; [done|].
    apply list_elem_of_fmap. by exists (k, v).
  - intros Hk [Hn _]. done.
Qed.

(** The body of the loop replaces the store by its pruned form. *)
Lemma cleanup_store_lookup (source_dict : dict srcval) (ns : pystr)
    (st : gmap (pystr * pystr) (dict json)) (lang_code : pystr) (key : pystr * pystr) :
  cleanup_store source_dict ns st lang_code !! key
  = if decide (key = (ns, lang_code)) then prune source_dict <$> st !! key else st !! key.
Proof.
  unfold cleanup_store.
  destruct (st !! (ns, lang_code)) as [store|] eqn:Hst; simpl.
  - pose proof (delete_extra_keys_prune source_dict store) as Hdel.
    destruct store as [|kv store]; [|destruct (filter _ _) as [|k ks] eqn:Hfilter].
    + case_decide as Hkey; [|done]. subst. by rewrite Hst.
    + simpl in Hdel. case_decide as Hkey; [|done]. subst. rewrite Hst. simpl.
      by rewrite <- Hdel.
    + rewrite Hdel. case_decide as Hkey.
      * subst. by rewrite lookup_insert_eq, Hst.
      * by rewrite lookup_insert_ne.
  - case_decide as Hkey; [|done]. subst. by rewrite Hst.
Qed.

Lemma cleanup_stores_lookup (source_dict : dict srcval) (ns : pystr)
    (target_languages : list pystr) (st : gmap (pystr * pystr) (dict json))
    (ns' lang : pystr) :
  foldl (cleanup_store source_dict ns) st target_languages !! (ns', lang)
  = if decide (ns' = ns ∧ lang ∈ target_languages)
    then prune source_dict <$> st !! (ns', lang) else st !! (ns', lang).
Proof.
  revert st. induction target_languages as [|l langs IH]; intros st; simpl.
  - case_decide as H; [|done]. destruct H as [_ H]. by apply elem_of_nil in H.
  - rewrite IH, cleanup_store_lookup.
    repeat case_decide; simplify_eq; try done;
      first [ set_solver
            | rewrite <- option_fmap_compose; apply option_fmap_ext; intros d;
              apply prune_idemp ].
Qed.

(** The sweep, store by store. *)
Lemma perform_cleanup_extra_keys_lookup (all_namespaces target_languages : list pystr)
    (w : workspace) (ns lang : pystr) :
  stores (perform_cleanup_extra_keys all_namespaces target_languages w) !! (ns, lang)
  = if decide (ns ∈ all_namespaces ∧ lang ∈ target_languages
               ∧ get_merged_reference_translations (assets w ns) ≠ [])
    then prune (get_merged_reference_translations (assets w ns)) <$> stores w !! (ns, lang)
    else stores w !! (ns, lang).
Proof.
  unfold perform_cleanup_extra_keys. simpl.
  generalize (stores w). induction all_namespaces as [|n namespaces IH]; intros st; simpl.
  - done.
  - rewrite IH.
    assert ((match get_merged_reference_translations (assets w n) with
             | [] => st
             | _ :: _ =>
               foldl (cleanup_store (get_merged_reference_translations (assets w n)) n)
                 st target_languages
             end) !! (ns, lang)
            = if decide (ns = n ∧ lang ∈ target_languages
                         ∧ get_merged_reference_translations (assets w n) ≠ [])
              then prune (get_merged_reference_translations (assets w n)) <$> st !! (ns, lang)
              else st !! (ns, lang)) as ->.
    { destruct (get_merged_reference_translations (assets w n)) as [|kv ref] eqn:Href;
        [|rewrite cleanup_stores_lookup]; repeat case_decide; naive_solver. }
    clear IH. repeat case_decide; destruct_and?; simplify_eq; try done;
      first [ rewrite <- option_fmap_compose; apply option_fmap_ext; intros d;
              apply prune_idemp
            | set_solver ].
Qed.

(** C2, as the code has it. After the sweep, for every namespace of the
    namespace list whose merged reference is not empty and every language
    of the catalogue, the store is the store of before without the entries
    whose keys the reference lacks, so it holds no key that is absent from
    the reference, whatever was translated in the run. A namespace whose
    merged reference is empty is skipped: its stores stay as they are. *)
Theorem cleanup_sweeps_nonempty_references :
  (∀ (all_namespaces target_languages : list pystr) (w : workspace) (ns lang : pystr)
     (store : dict json),
     ns ∈ all_namespaces → lang ∈ target_languages →
     get_merged_reference_translations (assets w ns) ≠ [] →
     stores (perform_cleanup_extra_keys all_namespaces target_languages w) !! (ns, lang)
     = Some store →
     (∃ before, stores w !! (ns, lang) = Some before
                ∧ store = prune (get_merged_reference_translations (assets w ns)) before)
     ∧ ∀ k, k ∈ dict_keys store →
            k ∈ dict_keys (get_merged_reference_translations (assets w ns)))
  ∧ (∀ (all_namespaces target_languages : list pystr) (w : workspace) (ns lang : pystr),
       get_merged_reference_translations (assets w ns) = [] →
       stores (perform_cleanup_extra_keys all_namespaces target_languages w) !! (ns, lang)
       = stores w !! (ns, lang)).
Proof.
  split.
  - intros all_namespaces target_languages w ns lang store Hns Hlang Href.
    rewrite perform_cleanup_extra_keys_lookup, decide_True by done.
    destruct (stores w !! (ns, lang)) as [before|]; [|done].
    intros [= <-]. split; [by exists before|].
    intros k. apply prune_keys.
  - intros all_namespaces target_languages w ns lang Href.
    rewrite perform_cleanup_extra_keys_lookup, decide_False; [done|].
    by intros (_ & _ & ?).
Qed.

Lemma cleanup_sweeps_nonempty_references_witness :
  py "demo" ∈ [py "demo"] ∧ py "fr_fr" ∈ [py "en_us"; py "fr_fr"]
  ∧ get_merged_reference_translations (assets sample_workspace_with_reference (py "demo"))
    ≠ []
  ∧ stores (perform_cleanup_extra_keys [py "demo"] [py "en_us"; py "fr_fr"]
              sample_workspace_with_reference) !! (py "demo", py "fr_fr")
    = Some [(py "greeting", JStr (py "Bonjour"))]
  ∧ (∃ before,
       stores sample_workspace_with_reference !! (py "demo", py "fr_fr") = Some before
       ∧ [(py "greeting", JStr (py "Bonjour"))]
         = prune (get_merged_reference_translations
                    (assets sample_workspace_with_reference (py "demo"))) before)
  ∧ ∀ k, k ∈ dict_keys [(py "greeting", JStr (py "Bonjour"))] →
         k ∈ dict_keys (get_merged_reference_translations
                          (assets sample_workspace_with_reference (py "demo"))).
Proof.
  split; [left|]. split; [right; left|].
  split; [vm_compute; discriminate|].
  split; [vm_compute; reflexivity|].
  apply (proj1 cleanup_sweeps_nonempty_references [py "demo"] [py "en_us"; py "fr_fr"]
           sample_workspace_with_reference (py "demo") (py "fr_fr")).
  - left.
  - right. left.
  - vm_compute. discriminate.
  - vm_compute. reflexivity.
Defined.

(** C2, as it is stated, fails: the merged reference of the sample
    namespace is empty, and the sweep leaves the key [obsolete], which the
    reference lacks, in the store. *)
Lemma cleanup_skips_empty_reference :
  get_merged_reference_translations (assets sample_workspace (py "demo")) = []
  ∧ stores (perform_cleanup_extra_keys [py "demo"] [py "fr_fr"] sample_workspace)
      !! (py "demo", py "fr_fr")
    = Some [(py "obsolete", JStr (py "Ancien"))]
  ∧ py "obsolete" ∈ dict_keys [(py "obsolete", JStr (py "Ancien"))]
  ∧ py "obsolete" ∉ dict_keys
      (get_merged_reference_translations (assets sample_workspace (py "demo"))).
Proof.
  split_and!.
  - by vm_compute.
  - by vm_compute.
  - left.
  - apply not_elem_of_nil.
Qed.

(** ** The change detector *)

Lemma keyset_nil {V : Type} : keyset (V:=V) [] = ∅.
Proof. done. Qed.

Section ChangeDetectorFacts.
Variable set_order : gset pystr → list pystr.
Hypothesis set_order_ok : iteration_order set_order.


(** Against an empty new snapshot every key is deleted. *)
Lemma compare_snapshots_new_empty (old_data : dict json) :
  compare_snapshots set_order old_data []
  = {| added := [];
       deleted := (fun k => {| key := k; old_value := dict_get k old_data;
                               new_value := None; operation := DELETED |})
                    <$> set_order (keyset old_data);
       modified := [] |}.
Proof.
  unfold compare_snapshots. rewrite keyset_nil.
  assert (keyset old_data ∖ (∅ : gset pystr) = keyset old_data) as -> by set_solver.
  assert (keyset old_data ∩ (∅ : gset pystr) = ∅) as -> by set_solver.
  assert ((∅ : gset pystr) ∖ keyset old_data = ∅) as -> by set_solver.
  rewrite (iteration_order_empty set_order) by done. done.
Qed.

End ChangeDetectorFacts.



(** C9. The failing input: the previous version of a language file is not
    UTF-8 text, the new version is the sample document. Reading the old
    snapshot raises, [get_file_key_changes] ends in its outer [except] and
    returns [None], and [get_git_changes] passes the file over; with an
    empty mapping for the old snapshot (as for a file the old revision did
    not have) the key is reported as added. A new version that is not
    UTF-8 text ends the same way. *)
Theorem undecodable_snapshot_is_not_an_empty_mapping :
  get_file_key_changes elements sample_json_loads (Some SnapshotError)
    (Some (SnapshotText sample_document))
  = None
  ∧ get_file_key_changes elements sample_json_loads None
      (Some (SnapshotText sample_document))
    = Some {| added := [{| key := py "greeting"; old_value := None;
                           new_value := Some (JStr (py "Bonjour %s"));
                           operation := ADDED |}];
              deleted := [];
              modified := [] |}
  ∧ get_file_key_changes elements sample_json_loads
      (Some (SnapshotText sample_document)) (Some SnapshotError)
    = None
  ∧ get_git_changes elements sample_json_loads
      (fun _ => Some SnapshotError) (fun _ => Some (SnapshotText sample_document))
      (Some (py "subprojects/Localization-Resource-Pack/assets/demo/lang/en_us.json"))
    = []
  ∧ get_git_changes elements sample_json_loads
      (fun _ => None) (fun _ => Some (SnapshotText sample_document))
      (Some (py "subprojects/Localization-Resource-Pack/assets/demo/lang/en_us.json"))
    = [{| fc_namespace := py "demo";
          file_path := py "virtual:demo";
          added_keys := [{| key := py "greeting"; old_value := None;
                            new_value := Some (JStr (py "Bonjour %s"));
                            operation := ADDED |}];
          deleted_keys := [];
          modified_keys := [] |}].
Proof. split_and!; [done|by vm_compute|done|by vm_compute|by vm_compute]. Qed.

(** ** Rename detection *)

(** What the index of the deleted values holds. *)
Lemma index_deleted_spec (deleted_keys : list KeyChange) (v : pystr) :
  let '(deleted_index, deleted_value_counts) := index_deleted deleted_keys in
  (∀ d, deleted_index !! v = Some d → d ∈ deleted_keys ∧ old_value d = Some (JStr v))
  ∧ default 0%nat (deleted_value_counts !! v)
    = length (filter (fun d => old_value d = Some (JStr v)) deleted_keys).
Proof.
  unfold index_deleted.
  induction deleted_keys as [|d ds IH] using rev_ind; simpl.
  - split; [by intros d; rewrite lookup_empty|by rewrite lookup_empty].
  - rewrite foldl_snoc, filter_app, length_app.
    destruct (foldl _ _ ds) as [deleted_index deleted_value_counts].
    destruct IH as [IHi IHc].
    destruct (old_value d) as [[w| | |]|] eqn:Hd; simpl;
      try (rewrite filter_cons_False, filter_nil by (rewrite Hd; congruence); simpl;
           split; [|lia]; intros d' [? ?]%IHi; split; [apply elem_of_app; by left|done]).
    destruct (decide (w = v)) as [->|Hw].
    + rewrite !lookup_insert_eq. split.
      * intros d' [= <-]. split; [apply elem_of_app; right; left|done].
      * rewrite filter_cons_True, filter_nil by done. simpl. lia.
    + rewrite !lookup_insert_ne by done. split.
      * intros d' [? ?]%IHi. split; [apply elem_of_app; by left|done].
      * rewrite filter_cons_False, filter_nil by (rewrite Hd; congruence). simpl. lia.
Qed.

(** Two different deletions with one value make its count differ from 1. *)
Lemma two_deletions_count (deleted_keys : list KeyChange) (v : option json)
    (d1 d2 : KeyChange) :
  d1 ∈ deleted_keys → d2 ∈ deleted_keys → d1 ≠ d2 →
  old_value d1 = v → old_value d2 = v →
  length (filter (fun d => old_value d = v) deleted_keys) ≠ 1%nat.
Proof.
  intros H1 H2 Hne Hv1 Hv2.
  assert (d1 ∈ filter (fun d => old_value d = v) deleted_keys) as Hf1
    by by apply list_elem_of_filter.
  assert (d2 ∈ filter (fun d => old_value d = v) deleted_keys) as Hf2
    by by apply list_elem_of_filter.
  destruct (filter _ deleted_keys) as [|x [|y l]]; simpl; try lia.
  apply list_elem_of_singleton in Hf1, Hf2. congruence.
Qed.

Section RenameLoop.
Variable deleted_index : gmap pystr KeyChange.
Variable deleted_value_counts : gmap pystr nat.

Local Abbreviation rstep := (rename_step deleted_index deleted_value_counts).
Local Abbreviation can_rename := (renamable deleted_index deleted_value_counts).

Lemma rename_step_added_mono st a x :
  x ∈ rn_added_remaining st → x ∈ rn_added_remaining (rstep st a).
Proof.
  intros Hx. unfold rename_step.
  repeat case_match; simpl; try done; apply elem_of_app; by left.
Qed.

Lemma rename_step_keeps st a :
  ¬ can_rename a → a ∈ rn_added_remaining (rstep st a).
Proof.
  intros Hno. unfold rename_step.
  destruct (new_value a) as [[v| | |]|] eqn:Ha; simpl;
    try (apply elem_of_app; right; left).
  destruct (deleted_index !! v) as [d|] eqn:Hd; simpl;
    [|apply elem_of_app; right; left].
  case_bool_decide as Hc; simpl; [|apply elem_of_app; right; left].
  destruct Hno. by exists v, d.
Qed.

Lemma rename_loop_keeps l st a :
  a ∈ l → ¬ can_rename a → a ∈ rn_added_remaining (foldl rstep st l).
Proof.
  intros Hin Hno.
  assert (∀ l st, a ∈ rn_added_remaining st → a ∈ rn_added_remaining (foldl rstep st l))
    as Hmono.
  { clear. intros l. induction l as [|x l IH]; intros st Hst; simpl; [done|].
    by apply IH, rename_step_added_mono. }
  revert st. induction l as [|x l IH]; intros st; [by apply elem_of_nil in Hin|].
  simpl. apply elem_of_cons in Hin as [<-|Hin].
  - by apply Hmono, rename_step_keeps.
  - by apply IH.
Qed.

Lemma rename_step_modified st a m :
  m ∈ rn_modified (rstep st a) →
  m ∈ rn_modified st ∨ (key m = key a ∧ can_rename a).
Proof.
  unfold rename_step.
  destruct (new_value a) as [[v| | |]|] eqn:Ha; simpl; auto.
  destruct (deleted_index !! v) as [d|] eqn:Hd; simpl; auto.
  case_bool_decide as Hc; simpl; auto.
  case_bool_decide as Hu; simpl; auto.
  intros [Hm|Hm]%elem_of_app; [by left|].
  apply list_elem_of_singleton in Hm as ->. right. split; [done|]. by exists v, d.
Qed.

Lemma rename_loop_modified l st m :
  m ∈ rn_modified (foldl rstep st l) →
  m ∈ rn_modified st ∨ ∃ a, a ∈ l ∧ key m = key a ∧ can_rename a.
Proof.
  revert st. induction l as [|x l IH]; intros st; simpl; [by left|].
  intros [[Hm|[Hk Hr]]%rename_step_modified|(a & Ha & Hk & Hr)]%IH.
  - by left.
  - right. exists x. split; [left|done].
  - right. exists a. split; [by right|done].
Qed.

Lemma rename_step_used st a k :
  k ∈ rn_used_deleted (rstep st a) →
  k ∈ rn_used_deleted st
  ∨ ∃ v d, deleted_index !! v = Some d
           ∧ default 0%nat (deleted_value_counts !! v) = 1%nat ∧ k = key d.
Proof.
  unfold rename_step.
  destruct (new_value a) as [[v| | |]|] eqn:Ha; simpl; auto.
  destruct (deleted_index !! v) as [d|] eqn:Hd; simpl; auto.
  case_bool_decide as Hc; simpl; auto.
  case_bool_decide as Hu; simpl; auto.
  intros [Hk%elem_of_singleton|Hk]%elem_of_union; [|by left].
  right. by exists v, d.
Qed.

Lemma rename_loop_used l st k :
  k ∈ rn_used_deleted (foldl rstep st l) →
  k ∈ rn_used_deleted st
  ∨ ∃ v d, deleted_index !! v = Some d
           ∧ default 0%nat (deleted_value_counts !! v) = 1%nat ∧ k = key d.
Proof.
  revert st. induction l as [|x l IH]; intros st; simpl; [by left|].
  intros [Hk|Hk]%IH; [|by right]. by apply rename_step_used in Hk.
Qed.

End RenameLoop.

Section RenameFacts.
Variable set_order : gset pystr → list pystr.
Hypothesis set_order_ok : iteration_order set_order.

(** An added key whose value is no string, or is the old value of two
    deleted keys, stays added; no modification is recorded for it, and the
    deletions with that value stay deleted. *)
Lemma compare_snapshots_ambiguous (old_data new_data : dict json) (k : pystr) (v : json) :
  k ∉ dict_keys old_data → dict_get k new_data = Some v →
  (is_str v = false
   ∨ ∃ k1 k2, k1 ≠ k2
       ∧ dict_get k1 old_data = Some v ∧ (k1 ∉ dict_keys new_data)
       ∧ dict_get k2 old_data = Some v ∧ (k2 ∉ dict_keys new_data)) →
  {| key := k; old_value := None; new_value := Some v; operation := ADDED |}
    ∈ added (compare_snapshots set_order old_data new_data)
  ∧ (∀ m, m ∈ modified (compare_snapshots set_order old_data new_data) → key m ≠ k)
  ∧ (∀ k', dict_get k' old_data = Some v → k' ∉ dict_keys new_data →
       {| key := k'; old_value := Some v; new_value := None; operation := DELETED |}
         ∈ deleted (compare_snapshots set_order old_data new_data)).
Proof.
  intros Hk Hv Hamb. unfold compare_snapshots.
  set (mkA := fun k => {| key := k; old_value := None; new_value := dict_get k new_data;
                          operation := ADDED |}).
  set (mkD := fun k => {| key := k; old_value := dict_get k old_data; new_value := None;
                          operation := DELETED |}).
  set (mkM := fun k => {| key := k; old_value := dict_get k old_data;
                          new_value := dict_get k new_data; operation := MODIFIED |}).
  set (A := mkA <$> set_order (keyset new_data ∖ keyset old_data)).
  set (D := mkD <$> set_order (keyset old_data ∖ keyset new_data)).
  set (M := mkM <$> filter _ (set_order (keyset old_data ∩ keyset new_data))).
  (* the three lists before the rename pass *)
  assert (mkA k ∈ A) as HkA.
  { apply list_elem_of_fmap_2, iteration_order_elem_of; [done|].
    apply elem_of_difference. rewrite !elem_of_keyset. split; [|done].
    apply dict_get_is_Some. by rewrite Hv. }
  assert (∀ a, a ∈ A → a = mkA (key a)) as HA.
  { intros a (k0 & -> & _)%list_elem_of_fmap. done. }
  assert (∀ d, d ∈ D → d = mkD (key d)) as HD.
  { intros d (k0 & -> & _)%list_elem_of_fmap. done. }
  assert (∀ k', dict_get k' old_data = Some v → k' ∉ dict_keys new_data → mkD k' ∈ D) as HkD.
  { intros k' Hold Hnew. apply list_elem_of_fmap_2, iteration_order_elem_of; [done|].
    apply elem_of_difference. rewrite !elem_of_keyset. split; [|done].
    apply dict_get_is_Some. by rewrite Hold. }
  assert (∀ m, m ∈ M → key m ≠ k) as HM.
  { intros m (k0 & -> & [_ Hk0]%list_elem_of_filter)%list_elem_of_fmap. simpl.
    apply iteration_order_elem_of in Hk0; [|done].
    apply elem_of_intersection in Hk0 as [Hk0 _]. apply elem_of_keyset in Hk0.
    by intros ->. }
  assert (mkA k = {| key := k; old_value := None; new_value := Some v; operation := ADDED |})
    as HmkA by (unfold mkA; by rewrite Hv).
  assert (∀ k', dict_get k' old_data = Some v →
            mkD k' = {| key := k'; old_value := Some v; new_value := None;
                        operation := DELETED |}) as HmkD
    by (intros k' Hold; unfold mkD; by rewrite Hold).
  rewrite <- HmkA.
  unfold detect_renames. cbn [added deleted modified].
  destruct A as [|a0 A'] eqn:HeqA; [by apply elem_of_nil in HkA|].
  destruct D as [|d0 D'] eqn:HeqD.
  { cbn [added deleted modified]. split_and!; [done|exact HM|].
    intros k' Hold Hnew. apply HkD in Hold; [|done]. by apply elem_of_nil in Hold. }
  rewrite <- HeqA, <- HeqD in *. clear HeqA HeqD a0 A' d0 D'.
  destruct (index_deleted D) as [deleted_index deleted_value_counts] eqn:Hidx.
  cbn [added deleted modified].
  (* the value [v] is never the value of a rename *)
  assert (∀ w d, v = JStr w → deleted_index !! w = Some d →
            default 0%nat (deleted_value_counts !! w) ≠ 1%nat) as Hblocked.
  { intros w d -> Hd. destruct Hamb as [Hstr|(k1 & k2 & Hne & H1 & H1' & H2 & H2')];
      [done|].
    pose proof (index_deleted_spec D w) as Hspec. rewrite Hidx in Hspec.
    destruct Hspec as [_ ->].
    apply (two_deletions_count D (Some (JStr w)) (mkD k1) (mkD k2)).
    - by apply HkD.
    - by apply HkD.
    - intros Heq. apply Hne. by injection Heq.
    - done.
    - done. }
  assert (¬ renamable deleted_index deleted_value_counts (mkA k)) as Hno.
  { intros (w & d & Hw & Hd & Hc). unfold mkA in Hw. simpl in Hw. rewrite Hv in Hw.
    injection Hw as ->. by eapply Hblocked. }
  split_and!.
  - by apply rename_loop_keeps.
  - intros m [Hm|(a & Ha & Hkey & Hr)]%rename_loop_modified.
    + by apply HM.
    + intros Hmk. apply Hno. rewrite (HA a Ha) in Hr. by rewrite <- Hkey, Hmk in Hr.
  - intros k' Hold Hnew. rewrite <- (HmkD k' Hold).
    apply list_elem_of_filter. split; [|by apply HkD].
    intros [Hused|(w & d & Hd & Hc & Hkd)]%rename_loop_used; [by apply not_elem_of_empty in Hused|].
    pose proof (index_deleted_spec D w) as Hspec. rewrite Hidx in Hspec.
    destruct Hspec as [Hi _]. destruct (Hi d Hd) as [HdD Hdv].
    rewrite (HD d HdD) in Hdv. simpl in Hkd, Hdv. rewrite <- Hkd, Hold in Hdv.
    injection Hdv as ->. by eapply Hblocked.
Qed.

(** The renamed key of the example. *)
Lemma compare_snapshots_rename_example :
  compare_snapshots set_order [(py "a", JStr (py "Hello"))] [(py "b", JStr (py "Hello"))]
  = {| added := []; deleted := [];
       modified := [{| key := py "b"; old_value := Some (JStr (py "Hello"));
                       new_value := Some (JStr (py "Hello")); operation := MODIFIED |}] |}.
Proof.
  unfold compare_snapshots.
  assert (keyset [(py "b", JStr (py "Hello"))] ∖ keyset [(py "a", JStr (py "Hello"))]
          = ({[py "b"]} : gset pystr)) as -> by by vm_compute.
  assert (keyset [(py "a", JStr (py "Hello"))] ∖ keyset [(py "b", JStr (py "Hello"))]
          = ({[py "a"]} : gset pystr)) as -> by by vm_compute.
  assert (keyset [(py "a", JStr (py "Hello"))] ∩ keyset [(py "b", JStr (py "Hello"))]
          = (∅ : gset pystr)) as -> by by vm_compute.
  rewrite !iteration_order_singleton, iteration_order_empty by done.
  by vm_compute.
Qed.

End RenameFacts.

(** C5. For the old snapshot [{"a": "Hello"}] and the new snapshot
    [{"b": "Hello"}] the change detector returns one modified entry, with
    key [b], old value [Hello] and new value [Hello], and no added and no
    deleted entry. And whenever the value of an added key is no string, or
    is the old value of two different deleted keys, the key stays in the
    added list, no modified entry is recorded for it, and every deleted key
    with that value stays in the deleted list. *)
Theorem rename_detection :
  (∀ set_order json_loads stdout content,
     iteration_order set_order →
     json_loads stdout = JObject [(py "a", JStr (py "Hello"))] →
     json_loads content = JObject [(py "b", JStr (py "Hello"))] →
     get_file_key_changes set_order json_loads (Some (SnapshotText stdout))
       (Some (SnapshotText content))
     = Some {| added := []; deleted := [];
               modified := [{| key := py "b"; old_value := Some (JStr (py "Hello"));
                               new_value := Some (JStr (py "Hello"));
                               operation := MODIFIED |}] |})
  ∧ (∀ set_order (old_data new_data : dict json) (k : pystr) (v : json),
       iteration_order set_order →
       k ∉ dict_keys old_data → dict_get k new_data = Some v →
       (is_str v = false
        ∨ ∃ k1 k2, k1 ≠ k2
            ∧ dict_get k1 old_data = Some v ∧ (k1 ∉ dict_keys new_data)
            ∧ dict_get k2 old_data = Some v ∧ (k2 ∉ dict_keys new_data)) →
       {| key := k; old_value := None; new_value := Some v; operation := ADDED |}
         ∈ added (compare_snapshots set_order old_data new_data)
       ∧ (∀ m, m ∈ modified (compare_snapshots set_order old_data new_data) → key m ≠ k)
       ∧ (∀ k', dict_get k' old_data = Some v → k' ∉ dict_keys new_data →
            {| key := k'; old_value := Some v; new_value := None; operation := DELETED |}
              ∈ deleted (compare_snapshots set_order old_data new_data))).
Proof.
  split.
  - intros set_order json_loads stdout content Hord Hold Hnew.
    unfold get_file_key_changes, load_old_snapshot, load_new_snapshot.
    rewrite Hold, Hnew. simpl. f_equal. by apply compare_snapshots_rename_example.
  - intros set_order old_data new_data k v Hord. by apply compare_snapshots_ambiguous.
Qed.

Lemma rename_detection_witness :
  iteration_order elements
  ∧ (py "b" ∉ dict_keys [(py "a", JStr (py "Hello")); (py "c", JStr (py "Hello"))])
  ∧ dict_get (py "b") [(py "b", JStr (py "Hello"))] = Some (JStr (py "Hello"))
  ∧ (is_str (JStr (py "Hello")) = false
     ∨ ∃ k1 k2, k1 ≠ k2
         ∧ dict_get k1 [(py "a", JStr (py "Hello")); (py "c", JStr (py "Hello"))]
           = Some (JStr (py "Hello"))
         ∧ (k1 ∉ dict_keys [(py "b", JStr (py "Hello"))])
         ∧ dict_get k2 [(py "a", JStr (py "Hello")); (py "c", JStr (py "Hello"))]
           = Some (JStr (py "Hello"))
         ∧ (k2 ∉ dict_keys [(py "b", JStr (py "Hello"))]))
  ∧ {| key := py "b"; old_value := None; new_value := Some (JStr (py "Hello"));
       operation := ADDED |}
      ∈ added (compare_snapshots elements
                 [(py "a", JStr (py "Hello")); (py "c", JStr (py "Hello"))]
                 [(py "b", JStr (py "Hello"))])
  ∧ (∀ m, m ∈ modified (compare_snapshots elements
                          [(py "a", JStr (py "Hello")); (py "c", JStr (py "Hello"))]
                          [(py "b", JStr (py "Hello"))]) → key m ≠ py "b")
  ∧ (∀ k', dict_get k' [(py "a", JStr (py "Hello")); (py "c", JStr (py "Hello"))]
           = Some (JStr (py "Hello")) →
           k' ∉ dict_keys [(py "b", JStr (py "Hello"))] →
           {| key := k'; old_value := Some (JStr (py "Hello")); new_value := None;
              operation := DELETED |}
             ∈ deleted (compare_snapshots elements
                          [(py "a", JStr (py "Hello")); (py "c", JStr (py "Hello"))]
                          [(py "b", JStr (py "Hello"))])).
Proof.
  assert (py "b" ∉ dict_keys [(py "a", JStr (py "Hello")); (py "c", JStr (py "Hello"))])
    as Hb by (vm_compute; set_solver).
  assert (is_str (JStr (py "Hello")) = false
     ∨ ∃ k1 k2, k1 ≠ k2
         ∧ dict_get k1 [(py "a", JStr (py "Hello")); (py "c", JStr (py "Hello"))]
           = Some (JStr (py "Hello"))
         ∧ (k1 ∉ dict_keys [(py "b", JStr (py "Hello"))])
         ∧ dict_get k2 [(py "a", JStr (py "Hello")); (py "c", JStr (py "Hello"))]
           = Some (JStr (py "Hello"))
         ∧ (k2 ∉ dict_keys [(py "b", JStr (py "Hello"))])) as Hamb.
  { right. exists (py "a"), (py "c"). split_and!.
    - vm_compute. discriminate.
    - reflexivity.
    - vm_compute. set_solver.
    - reflexivity.
    - vm_compute. set_solver. }
  split; [intros X; reflexivity|]. split; [exact Hb|]. split; [reflexivity|].
  split; [exact Hamb|].
  apply (proj2 rename_detection elements
           [(py "a", JStr (py "Hello")); (py "c", JStr (py "Hello"))]
           [(py "b", JStr (py "Hello"))] (py "b") (JStr (py "Hello"))).
  - intros X. reflexivity.
  - exact Hb.
  - reflexivity.
  - exact Hamb.
Defined.

(** ** Slices *)

Lemma slice_split {A : Type} (a b : nat) (l : list A) :
  (a ≤ b)%nat → l = take a l ++ slice a b l ++ drop b l.
Proof.
  intros Hab. unfold slice.
  rewrite <- (take_drop a l) at 1. f_equal.
  rewrite <- (take_drop (b - a) (drop a l)) at 1. f_equal.
  rewrite drop_drop. f_equal. lia.
Qed.

Lemma slice_min_length {A : Type} (a b : nat) (l : list A) :
  slice a (length l `min` b) l = slice a b l.
Proof.
  unfold slice. destruct (decide (b ≤ length l)%nat) as [Hb|Hb].
  - by rewrite Nat.min_r.
  - rewrite Nat.min_l by lia. rewrite !take_ge; [done|rewrite length_drop; lia..].
Qed.

Lemma slice_app {A : Type} (a i b : nat) (l : list A) :
  (a ≤ i ≤ b)%nat → slice a b l = slice a i l ++ slice i b l.
Proof.
  intros Hi. unfold slice.
  replace (b - a)%nat with ((i - a) + (b - i))%nat by lia.
  rewrite <- take_take_drop, drop_drop. do 3 f_equal. lia.
Qed.

Lemma slice_cons {A : Type} (i b : nat) (l : list A) (x : A) :
  (i < b)%nat → l !! i = Some x → slice i b l = x :: slice (S i) b l.
Proof.
  intros Hi Hx. unfold slice. rewrite (drop_S l x i Hx).
  replace (b - i)%nat with (S (b - S i)) by lia. done.
Qed.

Lemma slice_middle {A : Type} (a i b : nat) (l : list A) (x : A) :
  (a ≤ i < b)%nat → l !! i = Some x →
  slice a b l = slice a i l ++ x :: slice (S i) b l.
Proof.
  intros Hi Hx. rewrite (slice_app a i b) by lia.
  by rewrite (slice_cons i b l x) by (done || lia).
Qed.

Lemma fmap_slice {A B : Type} (f : A → B) (a b : nat) (l : list A) :
  f <$> slice a b l = slice a b (f <$> l).
Proof. unfold slice. by rewrite fmap_take, fmap_drop. Qed.

Lemma slice_sublist {A : Type} (a b : nat) (l : list A) : slice a b l `sublist_of` l.
Proof. unfold slice. etrans; [apply sublist_take|apply sublist_drop]. Qed.

Lemma elem_of_slice {A : Type} (a b : nat) (l : list A) (x : A) :
  x ∈ slice a b l → x ∈ l.
Proof. intros Hx. eapply elem_of_sublist; [done|apply slice_sublist]. Qed.

Lemma length_slice {A : Type} (a b : nat) (l : list A) :
  (a ≤ b ≤ length l)%nat → length (slice a b l) = (b - a)%nat.
Proof. intros Hb. unfold slice. rewrite length_take, length_drop. lia. Qed.

Lemma filter_none {A : Type} (P : A → Prop) `{!∀ x, Decision (P x)} (l : list A) :
  (∀ x, x ∈ l → ¬ P x) → filter P l = [].
Proof.
  induction l as [|x l IH]; intros Hnone; [done|].
  rewrite filter_cons_False by (apply Hnone; left).
  apply IH. intros y Hy. apply Hnone. by right.
Qed.

(** In a list without duplicates, the elements that occur in a slice are
    the slice. *)
Lemma filter_elem_of_slice {A : Type} `{!EqDecision A} (a b : nat) (l : list A) :
  NoDup l → (a ≤ b)%nat → filter (fun x => x ∈ slice a b l) l = slice a b l.
Proof.
  intros Hnd Hab. pose proof (slice_split a b l Hab) as Hsplit.
  rewrite Hsplit in Hnd.
  apply NoDup_app in Hnd as (_ & H1 & Hnd). apply NoDup_app in Hnd as (_ & H2 & _).
  set (w := slice a b l) in *. rewrite Hsplit at 1.
  rewrite !filter_app.
  rewrite (filter_all _ w) by done.
  rewrite (filter_none _ (take a l)), (filter_none _ (drop b l)).
  - by rewrite app_nil_r.
  - intros x Hx Hin. by apply (H2 x).
  - intros x Hx Hin. apply (H1 x Hx). apply elem_of_app. by left.
Qed.

(** ** The context window *)

Lemma index_of_NoDup (l : list pystr) (i : nat) (k : pystr) :
  NoDup l → l !! i = Some k → index_of k l = Some i.
Proof.
  revert i. induction l as [|x l IH]; intros i; [done|].
  rewrite NoDup_cons. intros [Hx Hnd]. destruct i as [|i]; simpl.
  - intros [= ->]. by rewrite bool_decide_eq_true_2.
  - intros Hi. rewrite bool_decide_eq_false_2.
    + by rewrite (IH i Hnd Hi).
    + intros ->. apply Hx. by eapply list_elem_of_lookup_2.
Qed.

(** The loop that removes duplicates keeps, of a list without duplicates,
    the keys that were collected. *)
Lemma unique_keys_loop (result_keys l acc : list pystr) :
  NoDup l → (∀ k, k ∈ l → k ∉ acc) →
  foldl (fun unique_keys k =>
           if bool_decide (k ∈ result_keys) && bool_decide (k ∉ unique_keys)
           then unique_keys ++ [k] else unique_keys) acc l
  = acc ++ filter (fun k => k ∈ result_keys) l.
Proof.
  revert acc. induction l as [|x l IH]; intros acc Hnd Hacc; simpl.
  - by rewrite app_nil_r.
  - apply NoDup_cons in Hnd as [Hx Hnd].
    rewrite (bool_decide_eq_true_2 (x ∉ acc)) by (apply Hacc; left).
    rewrite andb_true_r, filter_cons. case_bool_decide as Hr.
    + rewrite decide_True by done. rewrite IH, <- (assoc_L (++)); [done|done|].
      intros k Hk [Hin| ->%list_elem_of_singleton]%elem_of_app; [|done].
      by apply (Hacc k); [right|].
    + rewrite decide_False by done. apply IH; [done|].
      intros k Hk. apply Hacc. by right.
Qed.

(** The loop that builds the result copies the entries of the keys it is
    given. *)
Lemma build_result_loop {V : Type} (source_dict w acc : dict V) :
  NoDup (dict_keys w) →
  (∀ k, k ∈ dict_keys w → k ∉ dict_keys acc) →
  (∀ k v, (k, v) ∈ w → dict_get k source_dict = Some v) →
  foldl (fun result k =>
           match dict_get k source_dict with
           | Some v => dict_set k v result
           | None => result
           end) acc (dict_keys w)
  = acc ++ w.
Proof.
  revert acc. induction w as [|[k v] w IH]; intros acc Hnd Hacc Hsrc.
  - by rewrite app_nil_r.
  - change (dict_keys ((k, v) :: w)) with (k :: dict_keys w) in *.
    apply NoDup_cons in Hnd as [Hk Hnd]. simpl.
    rewrite (Hsrc k v) by left. rewrite dict_set_fresh by (apply Hacc; left).
    rewrite IH, <- (assoc_L (++)); [done|done| |].
    + intros k' Hk'. unfold dict_keys. rewrite fmap_app. simpl.
      intros [Hin| ->%list_elem_of_singleton]%elem_of_app; [|done].
      by apply (Hacc k'); [right|].
    + intros k' v' Hin. apply Hsrc. by right.
Qed.

Section ContextWindowFacts.
Variable set_order : gset pystr → list pystr.
Hypothesis set_order_ok : iteration_order set_order.

(** The window of one target key: the entries from [max_context / 2]
    places before it to [max_context / 2] places after it, as far as the
    mapping reaches, in the order of the mapping, and then the marker. *)
Lemma get_context_for_keys_single (source_dict : dict srcval) (target : pystr)
    (max_context idx : nat) :
  NoDup (dict_keys source_dict) →
  (max_context < length source_dict)%nat →
  dict_keys source_dict !! idx = Some target →
  get_context_for_keys set_order source_dict [target] max_context false
  = dict_set CORE_KEYS (Candidates [target])
      (slice (idx - max_context / 2) (idx + max_context / 2 + 1) source_dict).
Proof.
  intros Hnd Hlen Hidx. unfold get_context_for_keys.
  assert (length (dict_keys source_dict) = length source_dict) as Hlk
    by apply length_fmap.
  rewrite bool_decide_eq_false_2 by lia.
  f_equal.
  set (half := (max_context / 2)%nat).
  set (keys := dict_keys source_dict) in *.
  assert (list_to_set [target] = ({[target]} : gset pystr)) as -> by set_solver.
  rewrite iteration_order_singleton by done.
  cbn [foldl]. unfold add_neighbours. rewrite (index_of_NoDup keys idx target) by done.
  fold half. rewrite slice_min_length.
  set (result_keys := [target] ++ slice (idx - half) idx keys
                        ++ slice (idx + 1) (idx + half + 1) keys).
  rewrite (unique_keys_loop result_keys keys []); [|done|intros; apply not_elem_of_nil].
  rewrite app_nil_l.
  assert (filter (fun k => k ∈ result_keys) keys
          = dict_keys (slice (idx - half) (idx + half + 1) source_dict)) as ->.
  { unfold dict_keys at 1. rewrite fmap_slice. fold (dict_keys source_dict). fold keys.
    rewrite <- (filter_elem_of_slice (idx - half) (idx + half + 1) keys) by (done || lia).
    apply filter_ext_elem_of. intros k _.
    rewrite (slice_middle (idx - half) idx (idx + half + 1) keys target) by (done || lia).
    unfold result_keys. replace (idx + 1)%nat with (S idx) by lia.
    rewrite !elem_of_app, !elem_of_cons, elem_of_nil. naive_solver. }
  apply (build_result_loop source_dict _ []).
  - unfold dict_keys. rewrite fmap_slice.
    eapply sublist_NoDup; [exact Hnd|apply slice_sublist].
  - intros k _. apply not_elem_of_nil.
  - intros k v Hin. apply dict_get_NoDup; [done|]. by eapply elem_of_slice.
Qed.

End ContextWindowFacts.

(** C6. With budget 10: when [force_context] is set or the reference has
    at most 10 keys, the result is the reference with the marker entry set
    to the target list: every other key has its value of the reference,
    and the marker is appended when the reference has no such key.
    Otherwise, for one target key at position [idx] of a reference with
    distinct keys, the result is the entries at the positions from
    [idx - 5] to [idx + 5] that exist, in the order of the reference, each
    once, with the marker set to the target list; when there are five keys
    on each side these are the five before, the target and the five after,
    eleven entries. *)
Theorem context_window_of_budget_ten :
  (∀ set_order (source_dict : dict srcval) (target_keys : list pystr) (force_context : bool),
     force_context = true ∨ (length source_dict ≤ 10)%nat →
     get_context_for_keys set_order source_dict target_keys 10 force_context
     = dict_set CORE_KEYS (Candidates target_keys) source_dict
     ∧ dict_get CORE_KEYS
         (get_context_for_keys set_order source_dict target_keys 10 force_context)
       = Some (Candidates target_keys)
     ∧ (∀ k, k ≠ CORE_KEYS →
          dict_get k (get_context_for_keys set_order source_dict target_keys 10 force_context)
          = dict_get k source_dict)
     ∧ (CORE_KEYS ∉ dict_keys source_dict →
        get_context_for_keys set_order source_dict target_keys 10 force_context
        = source_dict ++ [(CORE_KEYS, Candidates target_keys)]))
  ∧ (∀ set_order (source_dict : dict srcval) (target : pystr) (idx : nat),
       iteration_order set_order →
       NoDup (dict_keys source_dict) →
       (10 < length source_dict)%nat →
       dict_keys source_dict !! idx = Some target →
       dict_get CORE_KEYS (get_context_for_keys set_order source_dict [target] 10 false)
       = Some (Candidates [target])
       ∧ (∀ k, k ≠ CORE_KEYS →
            dict_get k (get_context_for_keys set_order source_dict [target] 10 false)
            = dict_get k (slice (idx - 5) (idx + 6) source_dict))
       ∧ (CORE_KEYS ∉ dict_keys source_dict →
          get_context_for_keys set_order source_dict [target] 10 false
          = slice (idx - 5) (idx + 6) source_dict ++ [(CORE_KEYS, Candidates [target])])
       ∧ ((5 ≤ idx)%nat → (idx + 5 < length source_dict)%nat →
          dict_keys (slice (idx - 5) (idx + 6) source_dict)
          = slice (idx - 5) idx (dict_keys source_dict)
              ++ target :: slice (S idx) (idx + 6) (dict_keys source_dict)
          ∧ length (slice (idx - 5) idx (dict_keys source_dict)) = 5%nat
          ∧ length (slice (S idx) (idx + 6) (dict_keys source_dict)) = 5%nat
          ∧ length (slice (idx - 5) (idx + 6) source_dict) = 11%nat)).
Proof.
  split.
  - intros set_order source_dict target_keys force_context Hcase.
    assert (get_context_for_keys set_order source_dict target_keys 10 force_context
            = dict_set CORE_KEYS (Candidates target_keys) source_dict) as ->.
    { unfold get_context_for_keys. destruct force_context; [done|].
      destruct Hcase as [|Hlen]; [done|].
      rewrite bool_decide_eq_true_2; [done|]. unfold dict_keys. by rewrite length_fmap. }
    split_and!.
    + done.
    + by rewrite dict_get_dict_set, decide_True.
    + intros k Hk. by rewrite dict_get_dict_set, decide_False.
    + apply dict_set_fresh.
  - intros set_order source_dict target idx Hord Hnd Hlen Hidx.
    rewrite (get_context_for_keys_single set_order Hord source_dict target 10 idx)
      by done.
    change (10 / 2)%nat with 5%nat. replace (idx + 5 + 1)%nat with (idx + 6)%nat by lia.
    split_and!.
    + by rewrite dict_get_dict_set, decide_True.
    + intros k Hk. by rewrite dict_get_dict_set, decide_False.
    + intros Hcore. apply dict_set_fresh. intros Hin. apply Hcore.
      unfold dict_keys in *. rewrite fmap_slice in Hin. by eapply elem_of_slice.
    + intros H5 Hlast.
      assert (length (dict_keys source_dict) = length source_dict) as Hlk
        by apply length_fmap.
      split_and!.
      * unfold dict_keys at 1. rewrite fmap_slice.
        apply slice_middle; [lia|done].
      * rewrite length_slice; lia.
      * rewrite length_slice; lia.
      * rewrite length_slice; lia.
Qed.

Lemma context_window_of_budget_ten_witness :
  iteration_order elements
  ∧ NoDup (dict_keys sample_reference)
  ∧ (10 < length sample_reference)%nat
  ∧ dict_keys sample_reference !! 50%nat = Some (py "k50")
  ∧ dict_get CORE_KEYS (get_context_for_keys elements sample_reference [py "k50"] 10 false)
    = Some (Candidates [py "k50"])
  ∧ (∀ k, k ≠ CORE_KEYS →
       dict_get k (get_context_for_keys elements sample_reference [py "k50"] 10 false)
       = dict_get k (slice (50 - 5) (50 + 6) sample_reference))
  ∧ (CORE_KEYS ∉ dict_keys sample_reference →
     get_context_for_keys elements sample_reference [py "k50"] 10 false
     = slice (50 - 5) (50 + 6) sample_reference ++ [(CORE_KEYS, Candidates [py "k50"])])
  ∧ ((5 ≤ 50)%nat → (50 + 5 < length sample_reference)%nat →
     dict_keys (slice (50 - 5) (50 + 6) sample_reference)
     = slice (50 - 5) 50 (dict_keys sample_reference)
         ++ py "k50" :: slice 51 (50 + 6) (dict_keys sample_reference)
     ∧ length (slice (50 - 5) 50 (dict_keys sample_reference)) = 5%nat
     ∧ length (slice 51 (50 + 6) (dict_keys sample_reference)) = 5%nat
     ∧ length (slice (50 - 5) (50 + 6) sample_reference) = 11%nat).
Proof.
  assert (NoDup (dict_keys sample_reference)) as Hnd.
  { apply (bool_decide_unpack (NoDup (dict_keys sample_reference))). vm_compute. exact I. }
  split; [intros X; reflexivity|]. split; [exact Hnd|].
  split; [vm_compute; lia|]. split; [vm_compute; reflexivity|].
  apply (proj2 context_window_of_budget_ten elements sample_reference (py "k50") 50%nat).
  - intros X. reflexivity.
  - exact Hnd.
  - vm_compute. lia.
  - vm_compute. reflexivity.
Defined.

(** The window of [k50] in the sample reference. *)
Example context_window_of_k50 :
  dict_keys (get_context_for_keys elements sample_reference [py "k50"] 10 false)
  = [py "k45"; py "k46"; py "k47"; py "k48"; py "k49"; py "k50"; py "k51"; py "k52";
     py "k53"; py "k54"; py "k55"; CORE_KEYS].
Proof. vm_compute. reflexivity. Qed.

(** ** Chunks *)

Lemma elem_of_slice_lookup {A : Type} (a b : nat) (l : list A) (x : A) :
  x ∈ slice a b l ↔ ∃ p, (a ≤ p < b)%nat ∧ l !! p = Some x.
Proof.
  unfold slice. rewrite elem_of_take. split.
  - intros (i & Hi & Hlt). rewrite lookup_drop in Hi. exists (a + i)%nat. split; [lia|done].
  - intros (p & Hp & Hx). exists (p - a)%nat. rewrite lookup_drop.
    replace (a + (p - a))%nat with p by lia. split; [done|lia].
Qed.

(** Slices of a list without duplicates over disjoint ranges share no
    element. *)
Lemma slices_disjoint {A : Type} (a b c d : nat) (l : list A) (x : A) :
  NoDup l → (b ≤ c ∨ d ≤ a)%nat → x ∈ slice a b l → x ∉ slice c d l.
Proof.
  intros Hnd Hranges (p & Hp & Hxp)%elem_of_slice_lookup (q & Hq & Hxq)%elem_of_slice_lookup.
  assert (p = q) by by eapply NoDup_lookup. lia.
Qed.

Lemma NoDup_slice {A : Type} (a b : nat) (l : list A) : NoDup l → NoDup (slice a b l).
Proof. intros Hnd. eapply sublist_NoDup; [done|apply slice_sublist]. Qed.

Lemma slice_0 {A : Type} (b : nat) (l : list A) : slice 0 b l = take b l.
Proof. unfold slice. by rewrite Nat.sub_0_r. Qed.

Lemma chunk_of_slice {A : Type} (items : list A) (batch_size j : nat) :
  chunk_of items batch_size j = slice (j * batch_size) (j * batch_size + batch_size) items.
Proof. unfold chunk_of, slice. f_equal. lia. Qed.

(** The chunks, one after the other, are the list. *)
Lemma join_chunks {A : Type} (items : list A) (batch_size count : nat) :
  mjoin (chunk_of items batch_size <$> seq 0 count) = take (count * batch_size) items.
Proof.
  induction count as [|m IH]; [done|].
  rewrite seq_S, fmap_app, join_app, IH. simpl. rewrite app_nil_r.
  unfold chunk_of. rewrite take_take_drop. f_equal. lia.
Qed.

(** The number of rounds of [range(0, total_items, batch_size)]. *)
Lemma batch_count_bounds (total_items batch_size : nat) :
  (0 < batch_size)%nat → (0 < total_items)%nat →
  ((total_items + batch_size - 1) / batch_size * batch_size - batch_size < total_items
   ∧ total_items ≤ (total_items + batch_size - 1) / batch_size * batch_size
   ∧ 0 < (total_items + batch_size - 1) / batch_size)%nat.
Proof.
  intros Hb Hn.
  pose proof (Nat.div_mod_eq (total_items + batch_size - 1) batch_size) as Hdm.
  pose proof (Nat.mod_upper_bound (total_items + batch_size - 1) batch_size ltac:(lia)) as Hm.
  set (q := ((total_items + batch_size - 1) / batch_size)%nat) in *.
  set (r := ((total_items + batch_size - 1) `mod` batch_size)%nat) in *.
  assert (q ≠ 0)%nat by (intros Hq; rewrite Hq in Hdm; lia).
  nia.
Qed.

Lemma foldl_dict_set_fresh {V : Type} (items acc : dict V) :
  NoDup (dict_keys items) → (∀ k, k ∈ dict_keys items → k ∉ dict_keys acc) →
  foldl (fun d kv => dict_set kv.1 kv.2 d) acc items = acc ++ items.
Proof.
  revert acc. induction items as [|[k v] items IH]; intros acc Hnd Hacc.
  - by rewrite app_nil_r.
  - change (dict_keys ((k, v) :: items)) with (k :: dict_keys items) in *.
    apply NoDup_cons in Hnd as [Hk Hnd]. simpl.
    rewrite dict_set_fresh by (apply Hacc; left).
    rewrite IH, <- (assoc_L (++)); [done|done|].
    intros k' Hk'. unfold dict_keys. rewrite fmap_app. simpl.
    intros [Hin| ->%list_elem_of_singleton]%elem_of_app; [|done].
    by apply (Hacc k'); [right|].
Qed.

(** [dict(items)] of items with distinct keys is the items. *)
Lemma dict_of_items_NoDup {V : Type} (items : dict V) :
  NoDup (dict_keys items) → dict_of_items items = items.
Proof.
  intros Hnd. unfold dict_of_items. rewrite foldl_dict_set_fresh; [done|done|].
  intros k _. apply not_elem_of_nil.
Qed.

Section ChunkFacts.
Context {A : Type}.
Variable items : list A.
Variable batch_size context_size : nat.
Hypothesis batch_size_pos : (0 < batch_size)%nat.
Hypothesis more_than_a_batch : (batch_size < length items)%nat.

Local Abbreviation count := ((length items + batch_size - 1) / batch_size)%nat.

Lemma core_items_at_chunk (j : nat) :
  core_items_at items batch_size (j * batch_size) = chunk_of items batch_size j.
Proof.
  unfold core_items_at. rewrite Nat.min_comm, slice_min_length.
  by rewrite chunk_of_slice.
Qed.

Lemma chunk_of_length (j : nat) :
  (j < count)%nat → (0 < length (chunk_of items batch_size j) ≤ batch_size)%nat.
Proof.
  intros Hj. pose proof (batch_count_bounds (length items) batch_size) as Hc.
  unfold chunk_of. rewrite length_take, length_drop. nia.
Qed.

(** The code attaches the boundary context of the specification. *)
Lemma context_items_at_boundary (j : nat) :
  (j < count)%nat →
  context_items_at items batch_size context_size (j * batch_size)
  = boundary_context items batch_size context_size count j.
Proof.
  intros Hj. pose proof (batch_count_bounds (length items) batch_size) as Hc.
  unfold context_items_at, boundary_context.
  destruct (decide (j = 0)%nat) as [->|Hj0].
  - rewrite !bool_decide_eq_true_2 by lia. simpl.
    rewrite (Nat.min_l batch_size) by lia.
    by rewrite Nat.min_comm, slice_min_length.
  - rewrite (bool_decide_eq_false_2 (j * batch_size = 0)%nat) by nia.
    rewrite (bool_decide_eq_false_2 (j = 0)%nat) by done.
    destruct (decide (j = count - 1)%nat) as [Hlast|Hlast].
    + rewrite (bool_decide_eq_true_2 (j = count - 1)%nat) by done.
      rewrite bool_decide_eq_true_2; [done|]. nia.
    + rewrite (bool_decide_eq_false_2 (j = count - 1)%nat) by done.
      assert ((j + 1) * batch_size < length items)%nat as Hnext by nia.
      rewrite Nat.min_l by lia.
      rewrite bool_decide_eq_false_2 by lia.
      rewrite Nat.min_comm, slice_min_length.
      do 3 f_equal; lia.
Qed.

End ChunkFacts.

Lemma fmap_chunk_of {A B : Type} (f : A → B) (items : list A) (batch_size j : nat) :
  f <$> chunk_of items batch_size j = chunk_of (f <$> items) batch_size j.
Proof. unfold chunk_of. by rewrite fmap_take, fmap_drop. Qed.

Lemma fmap_boundary_context {A B : Type} (f : A → B) (items : list A)
    (batch_size context_size count j : nat) :
  f <$> boundary_context items batch_size context_size count j
  = boundary_context (f <$> items) batch_size context_size count j.
Proof.
  unfold boundary_context. repeat case_bool_decide;
    by rewrite ?fmap_app, !fmap_slice.
Qed.

(** A chunk and its boundary context share no element. *)
Lemma NoDup_chunk_with_context {A : Type} (l : list A)
    (batch_size context_size count j : nat) :
  NoDup l →
  NoDup (chunk_of l batch_size j ++ boundary_context l batch_size context_size count j).
Proof.
  intros Hnd. rewrite chunk_of_slice. unfold boundary_context.
  repeat case_bool_decide; subst; rewrite ?NoDup_app;
    split_and!; try (by apply NoDup_slice);
    try (by intros x Hx; eapply slices_disjoint; [done| |done]; lia).
  intros x Hx [Hin|Hin]%elem_of_app; revert Hin;
    (eapply slices_disjoint; [done| |done]; lia).
Qed.

(** ** The batch scheduler *)
Section BatchFacts.
Variable set_order : gset pystr → list pystr.
Hypothesis set_order_ok : iteration_order set_order.
Variable texts : dict srcval.
Variable batch_size context_size : nat.
Hypothesis texts_keys : NoDup (dict_keys texts).
Hypothesis batch_size_pos : (0 < batch_size)%nat.
Hypothesis more_than_a_batch : (batch_size < length texts)%nat.

Local Abbreviation count := ((length texts + batch_size - 1) / batch_size)%nat.

(** The batch of chunk [j]: the chunk, its boundary context, and the
    marker with the keys of the chunk in the order of the set. *)
Lemma make_batch_chunk (j : nat) :
  (j < count)%nat →
  ∃ marker,
    marker ≡ₚ dict_keys (chunk_of texts batch_size j)
    ∧ make_batch set_order texts batch_size context_size (j * batch_size)
      = dict_set CORE_KEYS (Candidates marker)
          (chunk_of texts batch_size j
             ++ boundary_context texts batch_size context_size count j).
Proof.
  intros Hj. unfold make_batch.
  rewrite core_items_at_chunk, context_items_at_boundary by done.
  eexists. split; [|f_equal].
  - rewrite (set_order_ok _). apply elements_list_to_set.
    unfold dict_keys in *. rewrite fmap_chunk_of, chunk_of_slice. by apply NoDup_slice.
  - apply dict_of_items_NoDup. unfold dict_keys in *.
    rewrite fmap_app, fmap_chunk_of, fmap_boundary_context.
    by apply NoDup_chunk_with_context.
Qed.

Lemma split_texts_batches :
  split_texts_with_context_guarantee set_order texts batch_size context_size
  = Some (make_batch set_order texts batch_size context_size
            <$> ((fun j => j * batch_size)%nat <$> seq 0 count)).
Proof.
  unfold split_texts_with_context_guarantee.
  pose proof more_than_a_batch as Hmore.
  destruct texts as [|kv rest] eqn:Htexts; [simpl in Hmore; lia|].
  rewrite <- Htexts in *.
  rewrite (bool_decide_eq_false_2 (length texts ≤ batch_size)%nat) by lia.
  by rewrite (bool_decide_eq_false_2 (batch_size = 0)%nat) by lia.
Qed.

Lemma chunks_cover (k : pystr) :
  k ∈ dict_keys texts
  ↔ ∃ j, (j < count)%nat ∧ k ∈ dict_keys (chunk_of texts batch_size j).
Proof.
  pose proof (batch_count_bounds (length texts) batch_size) as Hc.
  rewrite <- (take_ge texts (count * batch_size)) at 1 by lia.
  rewrite <- join_chunks. unfold dict_keys. rewrite list_elem_of_fmap. split.
  - intros ([k' v] & -> & (chunk & Hin & (j & -> & Hj%elem_of_seq)%list_elem_of_fmap)%list_elem_of_join).
    exists j. split; [lia|]. apply list_elem_of_fmap. by exists (k', v).
  - intros (j & Hj & ([k' v] & -> & Hin)%list_elem_of_fmap).
    exists (k', v). split; [done|]. apply list_elem_of_join.
    exists (chunk_of texts batch_size j). split; [done|].
    apply list_elem_of_fmap_2, elem_of_seq. lia.
Qed.

Lemma chunks_disjoint (i j : nat) (k : pystr) :
  i ≠ j → k ∈ dict_keys (chunk_of texts batch_size i) →
  k ∉ dict_keys (chunk_of texts batch_size j).
Proof.
  intros Hij. unfold dict_keys in *. rewrite !fmap_chunk_of, !chunk_of_slice.
  apply slices_disjoint; [done|nia].
Qed.

End BatchFacts.

(** C7, as the code has it. A mapping that is not empty and has at most
    [batch_size] keys gives one batch, the mapping itself; the empty mapping
    gives no batch. A mapping with more keys than [batch_size] is cut into
    consecutive chunks of at most [batch_size] entries, which put together
    are the mapping; the batch of a chunk holds the chunk, then its
    boundary context (for the first chunk the next [context_size] items,
    for the last the previous [context_size] items, in between
    [context_size / 2] items before and as many after, as far as the
    mapping reaches), and the marker, which lists the keys of the chunk;
    the key sets of the chunks are pairwise disjoint and cover the keys of
    the mapping. *)
Theorem batches_partition_the_mapping :
  (∀ set_order (texts : dict srcval) (batch_size context_size : nat),
     texts ≠ [] → NoDup (dict_keys texts) → (length texts ≤ batch_size)%nat →
     split_texts_with_context_guarantee set_order texts batch_size context_size
     = Some [texts])
  ∧ (∀ set_order (batch_size context_size : nat),
       split_texts_with_context_guarantee set_order [] batch_size context_size = Some [])
  ∧ (∀ set_order (texts : dict srcval) (batch_size context_size : nat),
       iteration_order set_order → NoDup (dict_keys texts) →
       (0 < batch_size)%nat → (batch_size < length texts)%nat →
       ∃ batches,
         split_texts_with_context_guarantee set_order texts batch_size context_size
         = Some batches
         ∧ ((length batches - 1) * batch_size < length texts
            ≤ length batches * batch_size)%nat
         ∧ mjoin (chunk_of texts batch_size <$> seq 0 (length batches)) = texts
         ∧ (∀ j batch, batches !! j = Some batch →
              (0 < length (chunk_of texts batch_size j) ≤ batch_size)%nat
              ∧ ∃ marker,
                  marker ≡ₚ dict_keys (chunk_of texts batch_size j)
                  ∧ batch = dict_set CORE_KEYS (Candidates marker)
                              (chunk_of texts batch_size j
                                 ++ boundary_context texts batch_size context_size
                                      (length batches) j))
         ∧ (∀ i j k, i ≠ j → k ∈ dict_keys (chunk_of texts batch_size i) →
              k ∉ dict_keys (chunk_of texts batch_size j))
         ∧ (∀ k, k ∈ dict_keys texts
                 ↔ ∃ j, (j < length batches)%nat
                        ∧ k ∈ dict_keys (chunk_of texts batch_size j))).
Proof.
  split_and!.
  - intros set_order texts batch_size context_size Hne Hnd Hlen.
    unfold split_texts_with_context_guarantee.
    destruct texts as [|kv rest] eqn:Htexts; [done|]. rewrite <- Htexts in *.
    rewrite bool_decide_eq_true_2 by done. by rewrite dict_of_items_NoDup.
  - done.
  - intros set_order texts batch_size context_size Hord Hnd Hpos Hmore.
    pose proof (batch_count_bounds (length texts) batch_size Hpos ltac:(lia)) as Hc.
    eexists. split; [by apply split_texts_batches|].
    rewrite !length_fmap, length_seq.
    split_and!.
    + nia.
    + lia.
    + rewrite join_chunks. apply take_ge. lia.
    + intros j batch Hj. rewrite !list_lookup_fmap in Hj.
      destruct (seq 0 _ !! j) as [j'|] eqn:Hseq; [|done].
      apply lookup_seq in Hseq as [-> Hlt]. simpl in Hj. injection Hj as <-.
      split; [by apply chunk_of_length|]. by apply make_batch_chunk.
    + intros i j k. by apply chunks_disjoint.
    + intros k. by apply chunks_cover.
Qed.

Lemma batches_partition_the_mapping_witness :
  iteration_order elements
  ∧ NoDup (dict_keys sample_reference)
  ∧ (0 < BATCH_SIZE)%nat ∧ (BATCH_SIZE < length sample_reference)%nat
  ∧ ∃ batches,
      split_texts_with_context_guarantee elements sample_reference BATCH_SIZE CONTEXT_SIZE
      = Some batches
      ∧ ((length batches - 1) * BATCH_SIZE < length sample_reference
         ≤ length batches * BATCH_SIZE)%nat
      ∧ mjoin (chunk_of sample_reference BATCH_SIZE <$> seq 0 (length batches))
        = sample_reference
      ∧ (∀ j batch, batches !! j = Some batch →
           (0 < length (chunk_of sample_reference BATCH_SIZE j) ≤ BATCH_SIZE)%nat
           ∧ ∃ marker,
               marker ≡ₚ dict_keys (chunk_of sample_reference BATCH_SIZE j)
               ∧ batch = dict_set CORE_KEYS (Candidates marker)
                           (chunk_of sample_reference BATCH_SIZE j
                              ++ boundary_context sample_reference BATCH_SIZE CONTEXT_SIZE
                                   (length batches) j))
      ∧ (∀ i j k, i ≠ j → k ∈ dict_keys (chunk_of sample_reference BATCH_SIZE i) →
           k ∉ dict_keys (chunk_of sample_reference BATCH_SIZE j))
      ∧ (∀ k, k ∈ dict_keys sample_reference
              ↔ ∃ j, (j < length batches)%nat
                     ∧ k ∈ dict_keys (chunk_of sample_reference BATCH_SIZE j)).
Proof.
  assert (NoDup (dict_keys sample_reference)) as Hnd.
  { apply (bool_decide_unpack (NoDup (dict_keys sample_reference))). vm_compute. exact I. }
  split; [intros X; reflexivity|]. split; [exact Hnd|].
  split; [vm_compute; lia|]. split; [vm_compute; lia|].
  apply (proj2 (proj2 batches_partition_the_mapping) elements sample_reference
           BATCH_SIZE CONTEXT_SIZE).
  - intros X. reflexivity.
  - exact Hnd.
  - vm_compute. lia.
  - vm_compute. lia.
Defined.

(** C7, as it is stated, fails on the empty mapping: it has at most
    [BATCH_SIZE] keys, and the scheduler returns no batch, not the one
    batch that holds the empty mapping. *)
Lemma empty_mapping_gives_no_batch :
  (length ([] : dict srcval) ≤ BATCH_SIZE)%nat
  ∧ split_texts_with_context_guarantee elements [] BATCH_SIZE CONTEXT_SIZE = Some []
  ∧ split_texts_with_context_guarantee elements [] BATCH_SIZE CONTEXT_SIZE
    ≠ Some [([] : dict srcval)].
Proof. split_and!; [simpl; lia|done|done]. Qed.

(** The three batches of the sample reference: the size of each, its
    first two keys, and the keys after the first forty (after the first
    twenty for the last batch): the boundary context and the marker. *)
Example sample_batches_keys :
  match split_texts_with_context_guarantee elements sample_reference
          BATCH_SIZE CONTEXT_SIZE with
  | Some [first; second; third] =>
    (length first, take 2 (dict_keys first), drop 40 (dict_keys first))
    = (45%nat, [py "k00"; py "k01"], [py "k40"; py "k41"; py "k42"; py "k43"; CORE_KEYS])
    ∧ (length second, take 2 (dict_keys second), drop 40 (dict_keys second))
      = (45%nat, [py "k40"; py "k41"],
         [py "k38"; py "k39"; py "k80"; py "k81"; CORE_KEYS])
    ∧ (length third, take 2 (dict_keys third), drop 20 (dict_keys third))
      = (25%nat, [py "k80"; py "k81"],
         [py "k76"; py "k77"; py "k78"; py "k79"; CORE_KEYS])
  | _ => False
  end.
Proof. vm_compute. by split_and!. Qed.

(** ** Requests without texts, and the time a request can take *)

Lemma execute_translation_request_returns
    set_order json_loads render_error svc mode request :
  ∃ result st,
    execute_translation_request set_order json_loads render_error svc mode request
    = Returns result st.
Proof. apply run_loop_terminates; simpl; unfold MAX_INDIVIDUAL_RETRIES; lia. Qed.

(** X1. A request whose payload holds nothing to translate (it is empty,
    or holds the marker only) is never sent: [translate_batch] returns the
    empty result at once, the loop counts a failed validation each time,
    and after [MAX_INDIVIDUAL_RETRIES] attempts, with a sleep of one second
    between them, the run returns the empty result, whatever the service
    would answer; the API counter stays at 0. *)
Theorem request_without_texts_uses_up_validation_retries
    (set_order : gset pystr → list pystr) (json_loads : pystr → json_document)
    (render_error : validation_error → pystr) (svc : service) (mode : bool)
    (request : TranslationRequest) :
  texts_to_translate (texts request) = [] →
  ∃ st,
    execute_translation_request set_order json_loads render_error svc mode request
    = Returns [] st
    ∧ total_attempts st = MAX_INDIVIDUAL_RETRIES
    ∧ validation_failure_count st = MAX_INDIVIDUAL_RETRIES
    ∧ api_failure_count st = 0%nat
    ∧ sleeps st = replicate (MAX_INDIVIDUAL_RETRIES - 1) 1%nat.
Proof.
  intros Hnil.
  destruct (execute_translation_request_returns set_order json_loads render_error svc mode
              request) as (result & st & Hrun).
  exists st. rewrite Hrun. revert Hrun.
  apply (run_loop_returns_ind set_order json_loads render_error MAX_INDIVIDUAL_RETRIES
           svc request
           (fun st => api_failure_count st = 0%nat
                      ∧ total_attempts st = validation_failure_count st
                      ∧ sleeps st = replicate (validation_failure_count st) 1%nat)
           (fun result st =>
              Returns result st = Returns [] st
              ∧ total_attempts st = MAX_INDIVIDUAL_RETRIES
              ∧ validation_failure_count st = MAX_INDIVIDUAL_RETRIES
              ∧ api_failure_count st = 0%nat
              ∧ sleeps st = replicate (MAX_INDIVIDUAL_RETRIES - 1) 1%nat));
    [|done].
  clear st result. intros st (Ha & Hn & Hsl) Ha' Hv.
  destruct (iteration_spec set_order json_loads render_error MAX_INDIVIDUAL_RETRIES
              svc request st Ha' Hv) as (t & _ & ->).
  rewrite translate_batch_nothing_to_translate by done. cbn [classify].
  case_bool_decide as Hlt; cbn [after_attempt api_failure_count validation_failure_count
                                 total_attempts sleeps].
  - split_and!; [done|lia|]. rewrite Hsl. by rewrite replicate_S_end.
  - split_and!; [done|lia|lia|done|]. rewrite Hsl. f_equal. lia.
Qed.

Lemma request_without_texts_uses_up_validation_retries_witness :
  texts_to_translate (texts {| request_id := 1; texts := [(CORE_KEYS, Candidates [])];
                               target_lang := py "fr_fr";
                               target_lang_name := py "French (France)";
                               namespace := py "demo";
                               batch_id := 1; total_batches := 1; batch_size := 1 |}) = []
  ∧ ∃ st,
      execute_translation_request elements sample_json_loads sample_render_error
        sample_service false
        {| request_id := 1; texts := [(CORE_KEYS, Candidates [])];
           target_lang := py "fr_fr"; target_lang_name := py "French (France)";
           namespace := py "demo"; batch_id := 1; total_batches := 1; batch_size := 1 |}
      = Returns [] st
      ∧ total_attempts st = MAX_INDIVIDUAL_RETRIES
      ∧ validation_failure_count st = MAX_INDIVIDUAL_RETRIES
      ∧ api_failure_count st = 0%nat
      ∧ sleeps st = replicate (MAX_INDIVIDUAL_RETRIES - 1) 1%nat.
Proof.
  split; [vm_compute; reflexivity|].
  apply (request_without_texts_uses_up_validation_retries elements sample_json_loads
           sample_render_error sample_service false).
  vm_compute. reflexivity.
Defined.

(** X2. Every run of [execute_translation_request] returns, after at
    least one and at most [2 * MAX_INDIVIDUAL_RETRIES - 1] attempts; it
    sleeps once between two attempts, one second or five, and never more
    than 54 seconds in all. *)
Theorem request_attempts_and_sleep_are_bounded :
  ∀ (set_order : gset pystr → list pystr) (json_loads : pystr → json_document)
    (render_error : validation_error → pystr) (svc : service) (mode : bool)
    (request : TranslationRequest),
  ∃ result st,
    execute_translation_request set_order json_loads render_error svc mode request
    = Returns result st
    ∧ (1 ≤ total_attempts st ≤ 2 * MAX_INDIVIDUAL_RETRIES - 1)%nat
    ∧ length (sleeps st) = (total_attempts st - 1)%nat
    ∧ Forall (fun seconds => seconds = 1%nat ∨ seconds = 5%nat) (sleeps st)
    ∧ (sum_list (sleeps st) ≤ 54)%nat.
Proof.
  intros set_order json_loads render_error svc mode request.
  destruct (execute_translation_request_returns set_order json_loads render_error svc mode
              request) as (result & st & Hrun).
  exists result, st. split; [done|]. revert Hrun.
  apply (run_loop_returns_ind set_order json_loads render_error MAX_INDIVIDUAL_RETRIES
           svc request
           (fun st => total_attempts st = (api_failure_count st + validation_failure_count st)%nat
                      ∧ length (sleeps st) = total_attempts st
                      ∧ Forall (fun seconds => seconds = 1%nat ∨ seconds = 5%nat) (sleeps st)
                      ∧ sum_list (sleeps st)
                        = (5 * api_failure_count st + validation_failure_count st)%nat)
           (fun _ st =>
              (1 ≤ total_attempts st ≤ 2 * MAX_INDIVIDUAL_RETRIES - 1)%nat
              ∧ length (sleeps st) = (total_attempts st - 1)%nat
              ∧ Forall (fun seconds => seconds = 1%nat ∨ seconds = 5%nat) (sleeps st)
              ∧ (sum_list (sleeps st) ≤ 54)%nat));
    [|by split_and!].
  clear st result. intros st (Hn & Hlen & Hall & Hsum) Ha Hv.
  destruct (iteration_spec set_order json_loads render_error MAX_INDIVIDUAL_RETRIES
              svc request st Ha Hv) as (t & _ & ->).
  unfold MAX_INDIVIDUAL_RETRIES in *.
  destruct (classify _); [|case_bool_decide..];
    cbn [after_attempt api_failure_count validation_failure_count total_attempts sleeps];
    rewrite ?length_app, ?sum_list_with_app, ?Forall_app, ?Forall_singleton; simpl;
    split_and!; auto; lia.
Qed.

(** X3. [validate_translation_result] reports no error exactly when the
    reply has the keys of the original and the value of every key is a
    string with the placeholders of the source value (of the first
    candidate, for a key with several), each as often, in any order. *)
Theorem validator_accepts_exactly_the_faithful_replies
    (set_order : gset pystr → list pystr) (original : dict srcval) (translated : dict json) :
  iteration_order set_order →
  validate_translation_result set_order original translated = []
  ↔ keyset translated = keyset original
    ∧ ∀ k original_value, dict_get k original = Some original_value →
        ∃ translated_value,
          dict_get k translated = Some (JStr translated_value)
          ∧ findall_placeholders (reference_value original_value)
            ≡ₚ findall_placeholders translated_value.
Proof.
  intros Hord. rewrite (validate_translation_result_nil set_order Hord). split.
  - intros [Hkeys Hall]. split; [done|]. intros k ov Hk.
    destruct (check_key_nil_inv original translated k) as (ov' & tv & Ho & Ht & Hperm).
    + apply keyset_is_Some. by rewrite Hk.
    + apply Hall. apply keyset_is_Some. by rewrite Hk.
    + exists tv. split; [done|]. congruence.
  - intros [Hkeys Hall]. split; [done|]. intros k [ov Hk]%keyset_is_Some.
    destruct (Hall k ov Hk) as (tv & Ht & Hperm).
    by apply (check_key_nil original translated k ov tv).
Qed.

Lemma validator_accepts_exactly_the_faithful_replies_witness :
  iteration_order elements
  ∧ (validate_translation_result elements
       [(py "greeting", Candidates [py "Hello %1$s, %2$s"; py "Hallo %1$s, %2$s"])]
       [(py "greeting", JStr (py "Bonjour %2$s et %1$s"))] = []
     ↔ keyset [(py "greeting", JStr (py "Bonjour %2$s et %1$s"))]
       = keyset [(py "greeting", Candidates [py "Hello %1$s, %2$s"; py "Hallo %1$s, %2$s"])]
       ∧ ∀ k original_value,
           dict_get k [(py "greeting", Candidates [py "Hello %1$s, %2$s"; py "Hallo %1$s, %2$s"])]
           = Some original_value →
           ∃ translated_value,
             dict_get k [(py "greeting", JStr (py "Bonjour %2$s et %1$s"))]
             = Some (JStr translated_value)
             ∧ findall_placeholders (reference_value original_value)
               ≡ₚ findall_placeholders translated_value).
Proof.
  split; [intros X; reflexivity|].
  apply (validator_accepts_exactly_the_faithful_replies elements).
  intros X. reflexivity.
Defined.

Example validator_accepts_reordered_placeholders :
  validate_translation_result elements
    [(py "greeting", Candidates [py "Hello %1$s, %2$s"; py "Hallo %1$s, %2$s"])]
    [(py "greeting", JStr (py "Bonjour %2$s et %1$s"))] = [].
Proof. by vm_compute. Qed.

(** ** The prepared requests *)

(** The request of one batch. *)
Local Abbreviation request_of namespace lang total_batches id j batch_texts :=
  {| request_id := id; texts := batch_texts;
     target_lang := fst lang; target_lang_name := snd lang;
     namespace := namespace_or_unknown namespace;
     batch_id := S j; total_batches := total_batches;
     batch_size := length batch_texts |}.

(** The loop over the batches of one language appends one request per
    batch, numbered from the next free [request_id]. *)
Lemma requests_of_batches_loop (namespace : option pystr) (lang : pystr * pystr)
    (total_batches offset : nat) (batches : list (dict srcval))
    (requests : list TranslationRequest) (request_id : nat) :
  foldl (fun acc ib =>
           (acc.1 ++ [{| request_id := acc.2; texts := ib.2;
                         target_lang := lang.1; target_lang_name := lang.2;
                         namespace := namespace_or_unknown namespace;
                         batch_id := ib.1; total_batches := total_batches;
                         batch_size := length ib.2 |}],
            S acc.2))
    (requests, request_id)
    (imap (fun i batch_texts => (S (offset + i), batch_texts)) batches)
  = (requests ++ imap (fun j batch_texts =>
                         request_of namespace lang total_batches (request_id + j)%nat
                           (offset + j)%nat batch_texts) batches,
     (request_id + length batches)%nat).
Proof.
  revert offset requests request_id.
  induction batches as [|b batches IH]; intros offset requests request_id; simpl.
  - by rewrite app_nil_r, Nat.add_0_r.
  - rewrite (imap_ext _ (fun i batch_texts => (S (S offset + i), batch_texts))
               batches) by (intros; simpl; f_equal; lia).
    rewrite IH, <- (assoc_L (++)). simpl. rewrite !Nat.add_0_r. f_equal; [|lia].
    do 2 f_equal. apply imap_ext. intros j x _. simpl. f_equal; lia.
Qed.

Lemma imap_seq_from {A : Type} (l : list A) (n : nat) :
  imap (fun j _ => (n + j)%nat) l = seq n (length l).
Proof.
  revert n. induction l as [|x l IH]; intros n; [done|].
  simpl. rewrite Nat.add_0_r. f_equal. rewrite <- IH. apply imap_ext.
  intros j y _. simpl. lia.
Qed.

Section PreparedRequests.
Variable set_order : gset pystr → list pystr.
Variable all_texts : dict srcval.
Variable batch_size : nat.
Variable namespace : option pystr.
Variable batches : list (dict srcval).
Hypothesis batches_of_texts :
  (if bool_decide (batch_size < length all_texts)%nat
   then split_texts_with_context_guarantee set_order all_texts batch_size CONTEXT_SIZE
   else Some [all_texts]) = Some batches.

Lemma requests_for_language_batches (requests : list TranslationRequest)
    (request_id : nat) (lang : pystr * pystr) :
  requests_for_language set_order all_texts batch_size namespace (requests, request_id) lang
  = Some (requests ++ imap (fun j batch_texts =>
                              request_of namespace lang (length batches)
                                (request_id + j)%nat j batch_texts) batches,
          (request_id + length batches)%nat).
Proof.
  unfold requests_for_language. destruct lang as [target_lang target_lang_name].
  pose proof batches_of_texts as Hb. case_bool_decide as Hlen.
  - rewrite Hb. simpl. f_equal.
    apply (requests_of_batches_loop namespace (target_lang, target_lang_name)
             (length batches) 0 batches requests request_id).
  - injection Hb as <-. simpl. rewrite !Nat.add_0_r. do 2 f_equal; lia.
Qed.

Lemma prepare_translation_requests_loop (target_languages : list (pystr * pystr)) :
  ∃ requests,
    foldl (fun acc lang =>
             acc ≫= fun acc =>
               requests_for_language set_order all_texts batch_size namespace acc lang)
      (Some ([], 1%nat)) target_languages
    = Some (requests, S (length requests))
    ∧ length requests = (length target_languages * length batches)%nat
    ∧ request_id <$> requests = seq 1 (length requests)
    ∧ ∀ i j lang batch_texts,
        target_languages !! i = Some lang → batches !! j = Some batch_texts →
        requests !! (i * length batches + j)%nat
        = Some (request_of namespace lang (length batches)
                  (S (i * length batches + j)) j batch_texts).
Proof.
  induction target_languages as [|lang langs IH] using rev_ind.
  - exists []. by split_and!.
  - destruct IH as (requests & Hfold & Hlen & Hids & Hlookup).
    rewrite foldl_snoc, Hfold. simpl. rewrite requests_for_language_batches.
    eexists. split_and!.
    + do 2 f_equal. rewrite length_app, length_imap. lia.
    + rewrite !length_app, length_imap, Hlen. simpl. lia.
    + rewrite fmap_app, length_app, length_imap, seq_app, Hids. f_equal.
      rewrite fmap_imap.
      rewrite (imap_ext _ (fun j _ => (S (length requests) + j)%nat) batches) by done.
      apply imap_seq_from.
    + intros i j lang' batch_texts Hi Hj.
      pose proof (lookup_lt_Some _ _ _ Hj) as Hjlt.
      apply lookup_app_Some in Hi as [Hi|[Hge Hi]].
      * pose proof (lookup_lt_Some _ _ _ Hi) as Hilt.
        rewrite lookup_app_l by (rewrite Hlen; nia). by apply Hlookup.
      * apply list_lookup_singleton_Some in Hi as [Hi <-].
        assert (i = length langs) as -> by lia.
        rewrite lookup_app_r by (rewrite Hlen; lia).
        rewrite Hlen. replace (length langs * length batches + j - length langs * length batches)%nat
          with j by lia.
        rewrite list_lookup_imap, Hj. simpl. do 2 f_equal; lia.
Qed.

End PreparedRequests.

(** X4. [prepare_translation_requests] makes, for every language in
    turn, one request per batch: the batches of
    [split_texts_with_context_guarantee] with [CONTEXT_SIZE] when the
    mapping has more than [batch_size] entries, the mapping itself
    otherwise (also when it is empty). The requests are numbered from 1 in
    this order; a request carries its batch, the number of the batch from
    1, the number of batches, and as [batch_size] the size of its own
    payload. *)
Theorem prepared_requests_by_language_and_batch
    (set_order : gset pystr → list pystr) (all_texts : dict srcval)
    (target_languages : list (pystr * pystr)) (batch_size : nat)
    (namespace : option pystr) (batches : list (dict srcval)) :
  (if bool_decide (batch_size < length all_texts)%nat
   then split_texts_with_context_guarantee set_order all_texts batch_size CONTEXT_SIZE
   else Some [all_texts]) = Some batches →
  ∃ requests,
    prepare_translation_requests set_order all_texts target_languages batch_size namespace
    = Some requests
    ∧ length requests = (length target_languages * length batches)%nat
    ∧ request_id <$> requests = seq 1 (length requests)
    ∧ ∀ i j lang batch_texts,
        target_languages !! i = Some lang → batches !! j = Some batch_texts →
        requests !! (i * length batches + j)%nat
        = Some {| request_id := S (i * length batches + j);
                  texts := batch_texts;
                  target_lang := lang.1; target_lang_name := lang.2;
                  namespace := namespace_or_unknown namespace;
                  batch_id := S j; total_batches := length batches;
                  batch_size := length batch_texts |}.
Proof.
  intros Hb.
  destruct (prepare_translation_requests_loop set_order all_texts batch_size namespace
              batches Hb target_languages) as (requests & Hfold & Hrest).
  exists requests. split; [|done].
  unfold prepare_translation_requests. by rewrite Hfold.
Qed.

Lemma prepared_requests_by_language_and_batch_witness :
  (if bool_decide (BATCH_SIZE < length sample_reference)%nat
   then split_texts_with_context_guarantee elements sample_reference BATCH_SIZE CONTEXT_SIZE
   else Some [sample_reference])
  = Some (default [] (split_texts_with_context_guarantee elements sample_reference
                        BATCH_SIZE CONTEXT_SIZE))
  ∧ ∃ requests,
      prepare_translation_requests elements sample_reference
        [(py "fr_fr", py "French (France)"); (py "de_de", py "German")] BATCH_SIZE None
      = Some requests
      ∧ length requests
        = (length [(py "fr_fr", py "French (France)"); (py "de_de", py "German")]
           * length (default [] (split_texts_with_context_guarantee elements
                                   sample_reference BATCH_SIZE CONTEXT_SIZE)))%nat
      ∧ request_id <$> requests = seq 1 (length requests)
      ∧ ∀ i j lang batch_texts,
          [(py "fr_fr", py "French (France)"); (py "de_de", py "German")] !! i = Some lang →
          default [] (split_texts_with_context_guarantee elements sample_reference
                        BATCH_SIZE CONTEXT_SIZE) !! j = Some batch_texts →
          requests !! (i * length (default [] (split_texts_with_context_guarantee elements
                                                 sample_reference BATCH_SIZE CONTEXT_SIZE))
                       + j)%nat
          = Some {| request_id :=
                      S (i * length (default [] (split_texts_with_context_guarantee elements
                                                   sample_reference BATCH_SIZE CONTEXT_SIZE))
                         + j);
                    texts := batch_texts;
                    target_lang := lang.1; target_lang_name := lang.2;
                    namespace := namespace_or_unknown None;
                    batch_id := S j;
                    total_batches :=
                      length (default [] (split_texts_with_context_guarantee elements
                                            sample_reference BATCH_SIZE CONTEXT_SIZE));
                    batch_size := length batch_texts |}.
Proof.
  split; [vm_compute; reflexivity|].
  apply (prepared_requests_by_language_and_batch elements sample_reference
           [(py "fr_fr", py "French (France)"); (py "de_de", py "German")] BATCH_SIZE None).
  vm_compute. reflexivity.
Defined.

(** The requests of the sample reference for two languages: three batches
    each. *)
Example sample_prepared_requests :
  (fun r => (request_id r, target_lang r, batch_id r, total_batches r, batch_size r))
    <$> default [] (prepare_translation_requests elements sample_reference
                      [(py "fr_fr", py "French (France)"); (py "de_de", py "German")]
                      BATCH_SIZE None)
  = [(1, py "fr_fr", 1, 3, 45); (2, py "fr_fr", 2, 3, 45); (3, py "fr_fr", 3, 3, 25);
     (4, py "de_de", 1, 3, 45); (5, py "de_de", 2, 3, 45); (6, py "de_de", 3, 3, 25)]%nat.
Proof. vm_compute. reflexivity. Qed.

(** A mapping without entries still gives one request per language, and
    each of them uses up the validation retries. *)
Example empty_mapping_is_requested_all_the_same :
  prepare_translation_requests elements [] [(py "fr_fr", py "French (France)")] BATCH_SIZE None
  = Some [{| request_id := 1; texts := []; target_lang := py "fr_fr";
             target_lang_name := py "French (France)"; namespace := py "unknown";
             batch_id := 1; total_batches := 1; batch_size := 0 |}].
Proof. reflexivity. Qed.

(** ** Batches without context *)

(** X5. [split_texts_for_concurrent_translation] cuts a mapping into
    consecutive batches that, put together in order, are the mapping: the
    batch with number [j] holds the entries from position [j * batch_size]
    on, [batch_size] of them except for the last batch, which holds the
    rest, at least one. *)
Theorem concurrent_batches_cut_the_mapping_in_order {V : Type} (texts : dict V)
    (batch_size : nat) :
  NoDup (dict_keys texts) → (0 < batch_size)%nat →
  ∃ batches,
    split_texts_for_concurrent_translation texts batch_size = Some batches
    ∧ mjoin batches = texts
    ∧ length batches = ((length texts + batch_size - 1) / batch_size)%nat
    ∧ ∀ j batch, batches !! j = Some batch →
        batch = take batch_size (drop (j * batch_size) texts)
        ∧ (0 < length batch ≤ batch_size)%nat
        ∧ (S j < length batches → length batch = batch_size)%nat.
Proof.
  intros Hnd Hpos.
  assert (split_texts_for_concurrent_translation texts batch_size
          = Some (chunk_of texts batch_size
                    <$> seq 0 ((length texts + batch_size - 1) / batch_size))) as Hsplit.
  { unfold split_texts_for_concurrent_translation.
    destruct texts as [|kv rest] eqn:Htexts.
    - simpl. rewrite Nat.div_small by lia. done.
    - rewrite <- Htexts in *. rewrite bool_decide_eq_false_2 by lia. f_equal.
      unfold batch_starts. rewrite <- list_fmap_compose.
      apply list_fmap_ext. intros i j _. simpl.
      rewrite chunk_of_slice. apply dict_of_items_NoDup.
      unfold dict_keys in *. rewrite fmap_slice. by apply NoDup_slice. }
  set (count := ((length texts + batch_size - 1) / batch_size)%nat) in *.
  eexists. split; [exact Hsplit|].
  rewrite length_fmap, length_seq.
  destruct (decide (length texts = 0)%nat) as [Hz|Hnz].
  - assert (count = 0)%nat as Hc by (subst count; rewrite Hz; apply Nat.div_small; lia).
    rewrite Hc. apply nil_length_inv in Hz. subst texts. by split_and!.
  - pose proof (batch_count_bounds (length texts) batch_size Hpos ltac:(lia)) as Hc.
    fold count in Hc. split_and!.
    + rewrite join_chunks. apply take_ge. lia.
    + done.
    + intros j batch Hj. rewrite list_lookup_fmap in Hj.
      destruct (seq 0 count !! j) as [j'|] eqn:Hseq; [|done].
      apply lookup_seq in Hseq as [-> Hlt]. simpl in Hj. injection Hj as <-.
      unfold chunk_of. rewrite length_take, length_drop. split_and!; [done|nia|nia|nia].
Qed.

Lemma concurrent_batches_cut_the_mapping_in_order_witness :
  NoDup (dict_keys sample_reference) ∧ (0 < BATCH_SIZE)%nat
  ∧ ∃ batches,
      split_texts_for_concurrent_translation sample_reference BATCH_SIZE = Some batches
      ∧ mjoin batches = sample_reference
      ∧ length batches = ((length sample_reference + BATCH_SIZE - 1) / BATCH_SIZE)%nat
      ∧ ∀ j batch, batches !! j = Some batch →
          batch = take BATCH_SIZE (drop (j * BATCH_SIZE) sample_reference)
          ∧ (0 < length batch ≤ BATCH_SIZE)%nat
          ∧ (S j < length batches → length batch = BATCH_SIZE)%nat.
Proof.
  assert (NoDup (dict_keys sample_reference)) as Hnd.
  { apply (bool_decide_unpack (NoDup (dict_keys sample_reference))). vm_compute. exact I. }
  split; [exact Hnd|]. split; [vm_compute; lia|].
  apply (concurrent_batches_cut_the_mapping_in_order sample_reference BATCH_SIZE).
  - exact Hnd.
  - vm_compute. lia.
Defined.

(** ** Updating a mapping with another *)
Section DictUpdateFacts.
Context {V : Type}.
Implicit Types (d other : dict V) (k : pystr) (v : V).

Lemma dict_get_app d other k :
  dict_get k (d ++ other)
  = match dict_get k d with Some v => Some v | None => dict_get k other end.
Proof.
  induction d as [|[k' v'] d IH]; simpl; [done|]. by case_bool_decide.
Qed.

Lemma NoDup_dict_keys_dict_set d k v :
  NoDup (dict_keys d) → NoDup (dict_keys (dict_set k v d)).
Proof.
  unfold dict_keys. induction d as [|[k' v'] d IH]; simpl.
  - intros _. apply NoDup_singleton.
  - rewrite NoDup_cons. intros [Hk' Hnd]. case_bool_decide as Hk; simpl.
    + subst. by apply NoDup_cons.
    + apply NoDup_cons. split; [|by apply IH].
      intros Hin. apply (dict_keys_dict_set d k' k v) in Hin. naive_solver.
Qed.

Lemma NoDup_dict_keys_dict_update d other :
  NoDup (dict_keys d) → NoDup (dict_keys (dict_update d other)).
Proof.
  unfold dict_update. revert d. induction other as [|[k v] other IH]; intros d Hnd; [done|].
  simpl. by apply IH, NoDup_dict_keys_dict_set.
Qed.

(** The keys of [d] stay where they are when one of them is set. *)
Lemma dict_keys_dict_set_present d k v :
  k ∈ dict_keys d → dict_keys (dict_set k v d) = dict_keys d.
Proof.
  unfold dict_keys. induction d as [|[k' v'] d IH]; simpl.
  - by intros ?%elem_of_nil.
  - case_bool_decide as Hk; simpl; [by subst|].
    intros [?|Hin]%elem_of_cons; [done|]. f_equal. by apply IH.
Qed.

(** After [d.update(other)] the value of a key is that of [other], and
    that of [d] for the keys [other] lacks. *)
Lemma dict_get_dict_update d other k :
  NoDup (dict_keys other) →
  dict_get k (dict_update d other)
  = match dict_get k other with Some v => Some v | None => dict_get k d end.
Proof.
  unfold dict_update. revert d. induction other as [|[k0 v0] other IH]; intros d; [done|].
  change (dict_keys ((k0, v0) :: other)) with (k0 :: dict_keys other).
  rewrite NoDup_cons. intros [Hk0 Hnd]. simpl. rewrite IH by done.
  rewrite dict_get_dict_set. case_bool_decide as Hk; case_decide; try congruence.
  subst. apply dict_get_None in Hk0. by rewrite Hk0.
Qed.

(** The keys of [d] keep their places, and the new keys of [other] follow
    in the order of [other]. *)
Lemma dict_keys_dict_update_order d other :
  NoDup (dict_keys other) →
  dict_keys (dict_update d other)
  = dict_keys d ++ filter (fun k => k ∉ dict_keys d) (dict_keys other).
Proof.
  unfold dict_update. revert d. induction other as [|[k0 v0] other IH]; intros d.
  - intros _. simpl. by rewrite app_nil_r.
  - change (dict_keys ((k0, v0) :: other)) with (k0 :: dict_keys other).
    rewrite NoDup_cons. intros [Hk0 Hnd]. simpl. rewrite IH by done.
    rewrite filter_cons. destruct (decide (k0 ∈ dict_keys d)) as [Hin|Hnin].
    + rewrite decide_False by (by intros ?). rewrite dict_keys_dict_set_present by done.
      f_equal.
    + rewrite decide_True by done. rewrite dict_set_fresh by done.
      assert (dict_keys (d ++ [(k0, v0)]) = dict_keys d ++ [k0]) as ->
        by (unfold dict_keys; rewrite fmap_app; reflexivity).
      rewrite <- (assoc_L (++)). simpl. do 2 f_equal.
      apply filter_ext_elem_of. intros k Hk.
      rewrite elem_of_app, list_elem_of_singleton. split; [|naive_solver].
      intros Hn Hd. apply Hn. by left.
Qed.

End DictUpdateFacts.

(** X6. [merge_translations]: a key has the value of [override_dict] if
    it is one of its keys and the value of [base_dict] otherwise; the keys
    of [base_dict] keep their order, the new keys follow in the order of
    [override_dict], and no key occurs twice. *)
Theorem merge_translations_prefers_the_override {V : Type}
    (base_dict override_dict : dict V) :
  NoDup (dict_keys override_dict) →
  (∀ k, dict_get k (merge_translations base_dict override_dict)
        = match dict_get k override_dict with
          | Some v => Some v
          | None => dict_get k base_dict
          end)
  ∧ dict_keys (merge_translations base_dict override_dict)
    = dict_keys base_dict
        ++ filter (fun k => k ∉ dict_keys base_dict) (dict_keys override_dict)
  ∧ (NoDup (dict_keys base_dict) →
     NoDup (dict_keys (merge_translations base_dict override_dict))).
Proof.
  intros Hnd. unfold merge_translations. split_and!.
  - intros k. by apply dict_get_dict_update.
  - by apply dict_keys_dict_update_order.
  - apply NoDup_dict_keys_dict_update.
Qed.

Lemma merge_translations_prefers_the_override_witness :
  NoDup (dict_keys [(py "b", py "new b"); (py "c", py "new c")])
  ∧ (∀ k, dict_get k (merge_translations [(py "a", py "old a"); (py "b", py "old b")]
                        [(py "b", py "new b"); (py "c", py "new c")])
          = match dict_get k [(py "b", py "new b"); (py "c", py "new c")] with
            | Some v => Some v
            | None => dict_get k [(py "a", py "old a"); (py "b", py "old b")]
            end)
  ∧ dict_keys (merge_translations [(py "a", py "old a"); (py "b", py "old b")]
                 [(py "b", py "new b"); (py "c", py "new c")])
    = dict_keys [(py "a", py "old a"); (py "b", py "old b")]
        ++ filter (fun k => k ∉ dict_keys [(py "a", py "old a"); (py "b", py "old b")])
             (dict_keys [(py "b", py "new b"); (py "c", py "new c")])
  ∧ (NoDup (dict_keys [(py "a", py "old a"); (py "b", py "old b")]) →
     NoDup (dict_keys (merge_translations [(py "a", py "old a"); (py "b", py "old b")]
                         [(py "b", py "new b"); (py "c", py "new c")]))).
Proof.
  assert (NoDup (dict_keys [(py "b", py "new b"); (py "c", py "new c")])) as Hnd.
  { apply (bool_decide_unpack (NoDup (dict_keys [(py "b", py "new b"); (py "c", py "new c")]))).
    vm_compute. exact I. }
  split; [exact Hnd|].
  apply (merge_translations_prefers_the_override
           [(py "a", py "old a"); (py "b", py "old b")]
           [(py "b", py "new b"); (py "c", py "new c")] Hnd).
Defined.

Example merge_translations_sample :
  merge_translations [(py "a", py "old a"); (py "b", py "old b")]
    [(py "b", py "new b"); (py "c", py "new c")]
  = [(py "a", py "old a"); (py "b", py "new b"); (py "c", py "new c")].
Proof. vm_compute. reflexivity. Qed.

(** ** The buckets of the fan-in *)

(** The bucket of a namespace and a language. *)
Local Abbreviation bucket_of acc ns lang :=
  (acc !! ns ≫= fun by_lang : gmap pystr (dict json) => by_lang !! lang).

Lemma merge_result_bucket (acc : results_by_namespace_and_language)
    (request : TranslationRequest) (res : run_result) (ns lang : pystr) :
  bucket_of (merge_result acc (request, res)) ns lang
  = match res with
    | Returns result _ =>
      if decide (namespace request = ns ∧ target_lang request = lang)
      then Some (dict_update (default [] (bucket_of acc ns lang)) result)
      else bucket_of acc ns lang
    | _ => bucket_of acc ns lang
    end.
Proof.
  unfold merge_result. cbn [fst snd]. destruct res as [result st| |]; try done.
  destruct (decide (namespace request = ns)) as [<-|Hns].
  - rewrite lookup_insert_eq. simpl.
    destruct (decide (target_lang request = lang)) as [<-|Hlang].
    + rewrite lookup_insert_eq, decide_True by done.
      by destruct (acc !! namespace request).
    + rewrite lookup_insert_ne, decide_False by naive_solver.
      destruct (acc !! namespace request); simpl; [done|]. by rewrite lookup_empty.
  - rewrite lookup_insert_ne, decide_False by naive_solver. done.
Qed.

(** What the buckets hold after the fan-in, by induction on the order of
    completion. *)
Lemma collect_results_bucket (finished : list (TranslationRequest * run_result))
    (ns lang : pystr) :
  (is_Some (bucket_of (collect_results finished) ns lang)
   ↔ ∃ request result st,
       (request, Returns result st) ∈ finished
       ∧ namespace request = ns ∧ target_lang request = lang)
  ∧ ∀ k, k ∈ dict_keys (default [] (bucket_of (collect_results finished) ns lang))
         ↔ ∃ request result st,
             (request, Returns result st) ∈ finished
             ∧ namespace request = ns ∧ target_lang request = lang
             ∧ k ∈ dict_keys result.
Proof.
  unfold collect_results.
  induction finished as [|[request res] finished IH] using rev_ind.
  - simpl. rewrite lookup_empty. simpl. split.
    + split; [by intros [? ?]|]. intros (r & result & st & Hin & _).
      by apply elem_of_nil in Hin.
    + intros k. split; [by intros ?%elem_of_nil|].
      intros (r & result & st & Hin & _). by apply elem_of_nil in Hin.
  - rewrite foldl_snoc, merge_result_bucket.
    set (acc := foldl merge_result ∅ finished) in *.
    assert (∀ P : TranslationRequest → dict json → exec_state → Prop,
              (∃ request' result st,
                 (request', Returns result st) ∈ finished ++ [(request, res)]
                 ∧ P request' result st)
              ↔ (∃ request' result st,
                   (request', Returns result st) ∈ finished ∧ P request' result st)
                ∨ ∃ result st, res = Returns result st ∧ P request result st) as Hsnoc.
    { intros P. split.
      - intros (r & result & st & [Hin|Hin]%elem_of_app & HP); [left; eauto|].
        apply list_elem_of_singleton in Hin. injection Hin as -> <-. right. eauto.
      - intros [(r & result & st & Hin & HP)|(result & st & -> & HP)].
        + exists r, result, st. split; [|done]. apply elem_of_app. by left.
        + exists request, result, st. split; [|done]. apply elem_of_app. right. left. }
    destruct IH as [IHsome IHkeys]. split.
    + rewrite (Hsnoc (fun r _ _ => namespace r = ns ∧ target_lang r = lang)), <- IHsome.
      destruct res as [result st| |]; [case_decide|..]; split;
        try (intros ?; by left); naive_solver.
    + intros k.
      rewrite (Hsnoc (fun r result _ =>
                        namespace r = ns ∧ target_lang r = lang ∧ k ∈ dict_keys result)),
        <- IHkeys.
      destruct res as [result st| |]; [case_decide|..]; simpl;
        rewrite ?dict_keys_dict_update; naive_solver.
Qed.

(** X7. After the fan-in of [execute_requests_concurrently] there is
    a bucket for a namespace and a language exactly when a request for them
    returned (be it the empty result), and the keys of the bucket are the
    keys of the results returned for them, whatever the order in which the
    requests completed. *)
Theorem fan_in_buckets_hold_the_returned_keys
    (finished : list (TranslationRequest * run_result)) (ns lang : pystr) :
  (is_Some (collect_results finished !! ns ≫= fun by_lang => by_lang !! lang)
   ↔ ∃ request result st,
       (request, Returns result st) ∈ finished
       ∧ namespace request = ns ∧ target_lang request = lang)
  ∧ ∀ by_lang bucket,
      collect_results finished !! ns = Some by_lang → by_lang !! lang = Some bucket →
      ∀ k, k ∈ dict_keys bucket
           ↔ ∃ request result st,
               (request, Returns result st) ∈ finished
               ∧ namespace request = ns ∧ target_lang request = lang
               ∧ k ∈ dict_keys result.
Proof.
  destruct (collect_results_bucket finished ns lang) as [Hsome Hkeys].
  split; [done|]. intros by_lang bucket Hns Hlang k.
  rewrite <- Hkeys, Hns. simpl. by rewrite Hlang.
Qed.

Lemma dict_get_dict_update_other {V : Type} (d other : dict V) (k : pystr) :
  k ∉ dict_keys other → dict_get k (dict_update d other) = dict_get k d.
Proof.
  unfold dict_update. revert d. induction other as [|[k0 v0] other IH]; intros d; [done|].
  change (dict_keys ((k0, v0) :: other)) with (k0 :: dict_keys other).
  rewrite not_elem_of_cons. intros [Hne Hk]. simpl.
  rewrite IH, dict_get_dict_set by done. by rewrite decide_False.
Qed.

(** X8. When two results for one namespace and language carry the same
    key, the bucket holds the value of the result that completed last: a
    value is kept unless a request for the same namespace and language that
    completes later returns the key again. *)
Theorem fan_in_keeps_the_result_that_completed_last
    (before after : list (TranslationRequest * run_result))
    (request : TranslationRequest) (result : dict json) (st : exec_state)
    (k : pystr) (v : json) :
  NoDup (dict_keys result) →
  dict_get k result = Some v →
  (∀ request' result' st',
     (request', Returns result' st') ∈ after →
     namespace request' = namespace request → target_lang request' = target_lang request →
     k ∉ dict_keys result') →
  ∃ by_lang bucket,
    collect_results (before ++ (request, Returns result st) :: after) !! namespace request
    = Some by_lang
    ∧ by_lang !! target_lang request = Some bucket
    ∧ dict_get k bucket = Some v.
Proof.
  intros Hnd Hk Hafter.
  assert (∃ bucket,
            bucket_of (collect_results (before ++ (request, Returns result st) :: after))
              (namespace request) (target_lang request) = Some bucket
            ∧ dict_get k bucket = Some v) as (bucket & Hb & Hv).
  { unfold collect_results. rewrite foldl_app. simpl.
    set (acc := merge_result (foldl merge_result ∅ before) (request, Returns result st)).
    assert (∃ bucket, bucket_of acc (namespace request) (target_lang request) = Some bucket
                      ∧ dict_get k bucket = Some v) as Hacc.
    { subst acc. rewrite merge_result_bucket, decide_True by done.
      eexists. split; [done|]. by rewrite dict_get_dict_update, Hk. }
    clearbody acc. revert acc Hacc.
    induction after as [|[r res] after IH]; intros acc Hacc; [done|].
    simpl. apply IH.
    - intros r' result' st' Hin. apply (Hafter r' result' st'). by right.
    - destruct Hacc as (bucket & Hb & Hv). rewrite merge_result_bucket.
      destruct res as [result' st'| |]; [|by eauto..].
      case_decide as Hhere; [|by eauto].
      eexists. split; [done|]. rewrite Hb. simpl.
      rewrite dict_get_dict_update_other; [done|].
      destruct Hhere as [Hns Hlang]. apply (Hafter r result' st'); [left|done|done]. }
  destruct (collect_results _ !! namespace request) as [by_lang|]; [|done].
  simpl in Hb. by exists by_lang, bucket.
Qed.

Lemma fan_in_keeps_the_result_that_completed_last_witness :
  NoDup (dict_keys [(py "greeting", JStr (py "Bonjour"))])
  ∧ dict_get (py "greeting") [(py "greeting", JStr (py "Bonjour"))] = Some (JStr (py "Bonjour"))
  ∧ ∃ by_lang bucket,
      collect_results
        ([(sample_request, Returns [(py "greeting", JStr (py "Salut"))] (initial_state false))]
           ++ (sample_request,
               Returns [(py "greeting", JStr (py "Bonjour"))] (initial_state false))
           :: [(sample_request, FallsThrough (initial_state false))])
        !! namespace sample_request = Some by_lang
      ∧ by_lang !! target_lang sample_request = Some bucket
      ∧ dict_get (py "greeting") bucket = Some (JStr (py "Bonjour")).
Proof.
  assert (NoDup (dict_keys [(py "greeting", JStr (py "Bonjour"))])) as Hnd.
  { apply (bool_decide_unpack (NoDup (dict_keys [(py "greeting", JStr (py "Bonjour"))]))).
    vm_compute. exact I. }
  split; [exact Hnd|]. split; [reflexivity|].
  apply (fan_in_keeps_the_result_that_completed_last
           [(sample_request, Returns [(py "greeting", JStr (py "Salut"))] (initial_state false))]
           [(sample_request, FallsThrough (initial_state false))]
           sample_request [(py "greeting", JStr (py "Bonjour"))] (initial_state false)
           (py "greeting") (JStr (py "Bonjour")) Hnd).
  - reflexivity.
  - intros request' result' st' Hin. apply list_elem_of_singleton in Hin. discriminate Hin.
Defined.

(** ** The merged reference *)

(** The merge runs through the entries of the readable files, one file
    after the other. *)
Lemma get_merged_reference_translations_entries (lang_files : list (option (dict pystr))) :
  get_merged_reference_translations lang_files
  = foldl merge_entry [] (mjoin (omap id lang_files)).
Proof.
  unfold get_merged_reference_translations. generalize (@nil (pystr * srcval)).
  induction lang_files as [|[lang_data|] lang_files IH]; intros acc; simpl.
  - done.
  - by rewrite IH, foldl_app.
  - apply IH.
Qed.

Lemma elem_of_dict_keys {V : Type} (d : dict V) (k : pystr) :
  k ∈ dict_keys d ↔ ∃ v, (k, v) ∈ d.
Proof.
  unfold dict_keys. rewrite list_elem_of_fmap. split.
  - intros ([k' v] & -> & Hin). by exists v.
  - intros (v & Hin). by exists (k, v).
Qed.

Lemma merge_entry_merged_so_far (merged : dict srcval) (seen : dict pystr)
    (k0 v0 : pystr) :
  merged_so_far merged seen →
  merged_so_far (merge_entry merged (k0, v0)) (seen ++ [(k0, v0)]).
Proof.
  intros (Hnd & Hkeys & Hvals & Href).
  assert (∀ k v, (k, v) ∈ seen ++ [(k0, v0)] ↔ (k, v) ∈ seen ∨ (k = k0 ∧ v = v0)) as Hseen.
  { intros k v. rewrite elem_of_app, list_elem_of_singleton. naive_solver. }
  assert (∀ k, k ∈ dict_keys (seen ++ [(k0, v0)]) ↔ k ∈ dict_keys seen ∨ k = k0) as Hseenk.
  { intros k. rewrite !elem_of_dict_keys. setoid_rewrite Hseen. naive_solver. }
  assert (∀ k, dict_get k (seen ++ [(k0, v0)])
               = match dict_get k seen with
                 | Some v => Some v
                 | None => if decide (k = k0) then Some v0 else None
                 end) as Hget.
  { intros k. rewrite dict_get_app. destruct (dict_get k seen); [done|]. simpl.
    case_bool_decide; case_decide; congruence. }
  pose proof (Hvals k0) as Hk0. pose proof (Href k0) as Hr0.
  unfold merge_entry.
  destruct (dict_get k0 merged) as [[e|l]|] eqn:Hm.
  - (* one value so far *)
    case_bool_decide as Hne.
    + split_and!.
      * by apply NoDup_dict_keys_dict_set.
      * intros k. rewrite dict_keys_dict_set, Hseenk, Hkeys. naive_solver.
      * intros k. rewrite dict_get_dict_set. case_decide as Hk.
        -- subst k. split_and!.
           ++ apply NoDup_cons. split; [|apply NoDup_singleton].
              by intros ->%list_elem_of_singleton.
           ++ simpl. lia.
           ++ intros v. rewrite Hseen, elem_of_cons, list_elem_of_singleton. split.
              ** intros [->| ->]; [left|by right].
                 assert (k0 ∈ dict_keys seen) as [v Hv]%elem_of_dict_keys.
                 { apply Hkeys, dict_get_is_Some. by rewrite Hm. }
                 by rewrite <- (Hk0 v Hv).
              ** intros [Hv|[_ ->]]; [left; by apply Hk0|by right].
        -- specialize (Hvals k). destruct (dict_get k merged) as [[e'|l']|]; [| |done].
           ++ intros v'. rewrite Hseen. naive_solver.
           ++ destruct Hvals as (? & ? & Hl'). split_and!; [done..|].
              intros v. rewrite Hseen, Hl'. naive_solver.
      * intros k. rewrite dict_get_dict_set, Hget. case_decide as Hk.
        -- subst k. rewrite <- Hr0. done.
        -- rewrite Href. by destruct (dict_get k seen).
    + try apply dec_stable in Hne. subst e. split_and!.
      * done.
      * intros k. rewrite Hseenk, Hkeys. split; [by left|]. intros [?| ->]; [done|].
        apply Hkeys, dict_get_is_Some. by rewrite Hm.
      * intros k. specialize (Hvals k). destruct (decide (k = k0)) as [->|Hk].
        -- rewrite Hm in *. intros v'. rewrite Hseen. naive_solver.
        -- destruct (dict_get k merged) as [[e'|l']|]; [| |done].
           ++ intros v'. rewrite Hseen. naive_solver.
           ++ destruct Hvals as (? & ? & Hl'). split_and!; [done..|].
              intros v. rewrite Hseen, Hl'. naive_solver.
      * intros k. rewrite Hget, Href. destruct (dict_get k seen) eqn:Hs; [done|].
        case_decide as Hk; [|done]. subst k. rewrite <- Hr0 in Hs. done.
  - (* several values so far *)
    destruct Hk0 as (Hndl & Hlen & Hl).
    case_bool_decide as Hnew.
    + split_and!.
      * by apply NoDup_dict_keys_dict_set.
      * intros k. rewrite dict_keys_dict_set, Hseenk, Hkeys. naive_solver.
      * intros k. rewrite dict_get_dict_set. case_decide as Hk.
        -- subst k. split_and!.
           ++ apply NoDup_app. split_and!; [done| |apply NoDup_singleton].
              by intros v Hv ->%list_elem_of_singleton.
           ++ rewrite length_app. simpl. lia.
           ++ intros v. rewrite Hseen, elem_of_app, list_elem_of_singleton, Hl.
              naive_solver.
        -- specialize (Hvals k). destruct (dict_get k merged) as [[e'|l']|]; [| |done].
           ++ intros v'. rewrite Hseen. naive_solver.
           ++ destruct Hvals as (? & ? & Hl'). split_and!; [done..|].
              intros v. rewrite Hseen, Hl'. naive_solver.
      * intros k. rewrite dict_get_dict_set, Hget. case_decide as Hk.
        -- subst k. rewrite <- Hr0. destruct l as [|first l]; [simpl in Hlen; lia|done].
        -- rewrite Href. by destruct (dict_get k seen).
    + try apply dec_stable in Hnew. split_and!.
      * done.
      * intros k. rewrite Hseenk, Hkeys. split; [by left|]. intros [?| ->]; [done|].
        apply Hkeys, dict_get_is_Some. by rewrite Hm.
      * intros k. specialize (Hvals k). destruct (decide (k = k0)) as [->|Hk].
        -- rewrite Hm in *. split_and!; [done..|]. intros v. rewrite Hseen, Hl.
           split; [by left|]. intros [?|[_ ->]]; [done|]. by apply Hl.
        -- destruct (dict_get k merged) as [[e'|l']|]; [| |done].
           ++ intros v'. rewrite Hseen. naive_solver.
           ++ destruct Hvals as (? & ? & Hl'). split_and!; [done..|].
              intros v. rewrite Hseen, Hl'. naive_solver.
      * intros k. rewrite Hget, Href. destruct (dict_get k seen) eqn:Hs; [done|].
        case_decide as Hk; [|done]. subst k. rewrite <- Hr0 in Hs. done.
  - (* a new key *)
    assert (k0 ∉ dict_keys seen) as Hfresh.
    { rewrite <- Hkeys. by apply dict_get_None. }
    split_and!.
    + by apply NoDup_dict_keys_dict_set.
    + intros k. rewrite dict_keys_dict_set, Hseenk, Hkeys. naive_solver.
    + intros k. rewrite dict_get_dict_set. case_decide as Hk.
      * subst k. intros v'. rewrite Hseen. intros [Hv|[_ ->]]; [|done].
        destruct Hfresh. apply elem_of_dict_keys. by exists v'.
      * specialize (Hvals k). destruct (dict_get k merged) as [[e'|l']|]; [| |done].
        -- intros v'. rewrite Hseen. naive_solver.
        -- destruct Hvals as (? & ? & Hl'). split_and!; [done..|].
           intros v. rewrite Hseen, Hl'. naive_solver.
    + intros k. rewrite dict_get_dict_set, Hget. case_decide as Hk.
      * subst k. apply dict_get_None in Hfresh. by rewrite Hfresh.
      * rewrite Href. by destruct (dict_get k seen).
Qed.

Lemma foldl_merge_entry_merged_so_far (entries : dict pystr) :
  merged_so_far (foldl merge_entry [] entries) entries.
Proof.
  induction entries as [|[k0 v0] entries IH] using rev_ind.
  - split_and!; try done. apply NoDup_nil_2.
  - rewrite foldl_snoc. by apply merge_entry_merged_so_far.
Qed.

Lemma elem_of_readable_entries (lang_files : list (option (dict pystr))) (kv : pystr * pystr) :
  kv ∈ mjoin (omap id lang_files)
  ↔ ∃ lang_data, Some lang_data ∈ lang_files ∧ kv ∈ lang_data.
Proof.
  rewrite list_elem_of_join. setoid_rewrite list_elem_of_omap. split.
  - intros (lang_data & Hkv & (f & Hf & Hid)). simpl in Hid. subst f. eauto.
  - intros (lang_data & Hf & Hkv). exists lang_data. split; [done|]. by exists (Some lang_data).
Qed.

(** X9. The merged reference of a namespace has each key once, and its
    keys are the keys of the language files that can be read. A key with
    the value of one string has that value in every file that defines it;
    a key with a list has the different values that the files give it,
    each once and at least two of them. *)
Theorem merged_reference_collects_the_values_of_a_key
    (lang_files : list (option (dict pystr))) (k : pystr) :
  NoDup (dict_keys (get_merged_reference_translations lang_files))
  ∧ (k ∈ dict_keys (get_merged_reference_translations lang_files)
     ↔ ∃ lang_data, Some lang_data ∈ lang_files ∧ k ∈ dict_keys lang_data)
  ∧ match dict_get k (get_merged_reference_translations lang_files) with
    | None => True
    | Some (Single v) =>
      ∀ lang_data v', Some lang_data ∈ lang_files → (k, v') ∈ lang_data → v' = v
    | Some (Candidates l) =>
      NoDup l ∧ (2 ≤ length l)%nat
      ∧ ∀ v, v ∈ l ↔ ∃ lang_data, Some lang_data ∈ lang_files ∧ (k, v) ∈ lang_data
    end.
Proof.
  rewrite get_merged_reference_translations_entries.
  destruct (foldl_merge_entry_merged_so_far (mjoin (omap id lang_files)))
    as (Hnd & Hkeys & Hvals & _).
  split_and!.
  - done.
  - rewrite Hkeys, elem_of_dict_keys. setoid_rewrite elem_of_readable_entries.
    setoid_rewrite elem_of_dict_keys. naive_solver.
  - specialize (Hvals k). destruct (dict_get k _) as [[v|l]|]; [| |done].
    + intros lang_data v' Hf Hv'. apply Hvals, elem_of_readable_entries. eauto.
    + destruct Hvals as (? & ? & Hl). split_and!; [done..|].
      intros v. by rewrite Hl, elem_of_readable_entries.
Qed.

(** X10. The source value that the validator reads for a key of the
    merged reference (the string, or the first string of the list) is the
    value of the first language file, in the order of the directory
    listing, that defines the key. *)
Theorem merged_reference_is_read_from_the_first_file
    (before after : list (option (dict pystr))) (lang_data : dict pystr) (k v : pystr) :
  (∀ other, Some other ∈ before → k ∉ dict_keys other) →
  dict_get k lang_data = Some v →
  ∃ original_value,
    dict_get k (get_merged_reference_translations (before ++ Some lang_data :: after))
    = Some original_value
    ∧ reference_value original_value = v.
Proof.
  intros Hbefore Hk.
  rewrite get_merged_reference_translations_entries.
  destruct (foldl_merge_entry_merged_so_far
              (mjoin (omap id (before ++ Some lang_data :: after))))
    as (_ & _ & _ & Href).
  specialize (Href k). revert Href.
  rewrite omap_app, join_app. simpl. rewrite !dict_get_app, Hk.
  assert (dict_get k (mjoin (omap id before)) = None) as ->.
  { apply dict_get_None. rewrite elem_of_dict_keys. intros (v' & Hv').
    apply elem_of_readable_entries in Hv' as (other & Hother & Hv').
    apply (Hbefore other Hother), elem_of_dict_keys. by exists v'. }
  destruct (dict_get k (foldl merge_entry [] _)) as [original_value|]; [|done].
  simpl. intros [= Hv]. by exists original_value.
Qed.

Lemma merged_reference_is_read_from_the_first_file_witness :
  (py "greeting" ∉ dict_keys [(py "title", py "E1epack")])
  ∧ dict_get (py "greeting") [(py "greeting", py "Hello %s"); (py "title", py "E1epack")]
    = Some (py "Hello %s")
  ∧ ∃ original_value,
      dict_get (py "greeting")
        (get_merged_reference_translations
           ([None; Some [(py "title", py "E1epack")]]
              ++ Some [(py "greeting", py "Hello %s"); (py "title", py "E1epack")]
              :: [Some [(py "greeting", py "Hallo %s")]]))
      = Some original_value
      ∧ reference_value original_value = py "Hello %s".
Proof.
  assert (py "greeting" ∉ dict_keys [(py "title", py "E1epack")]) as Hfresh
    by (vm_compute; set_solver).
  split; [exact Hfresh|]. split; [reflexivity|].
  apply (merged_reference_is_read_from_the_first_file
           [None; Some [(py "title", py "E1epack")]] [Some [(py "greeting", py "Hallo %s")]]
           [(py "greeting", py "Hello %s"); (py "title", py "E1epack")]
           (py "greeting") (py "Hello %s")).
  - intros other [Hother|Hother]%elem_of_cons; [discriminate Hother|].
    apply list_elem_of_singleton in Hother. injection Hother as ->. exact Hfresh.
  - reflexivity.
Defined.

(** The merge of three files: a key that two of them define differently,
    and a key on which they agree. *)
Example merged_reference_sample :
  get_merged_reference_translations
    [Some [(py "title", py "E1epack")]; None;
     Some [(py "greeting", py "Hello %s"); (py "title", py "E1epack")];
     Some [(py "greeting", py "Hallo %s")]]
  = [(py "title", Single (py "E1epack"));
     (py "greeting", Candidates [py "Hello %s"; py "Hallo %s"])].
Proof. vm_compute. reflexivity. Qed.

(** ** The context window of several target keys *)

Lemma dict_keys_filter {V : Type} (P : pystr → Prop) `{!∀ k, Decision (P k)} (d : dict V) :
  dict_keys (filter (fun kv => P kv.1) d) = filter P (dict_keys d).
Proof.
  unfold dict_keys. induction d as [|[k v] d IH]; [done|].
  rewrite fmap_cons, !filter_cons. simpl. case_decide; simpl; [f_equal|]; apply IH.
Qed.

Lemma index_of_lookup (l : list pystr) (k : pystr) (i : nat) :
  index_of k l = Some i → l !! i = Some k.
Proof.
  revert i. induction l as [|x l IH]; intros i; simpl; [done|].
  case_bool_decide as Hx.
  - intros [= <-]. by subst.
  - destruct (index_of k l) as [i'|]; [|done]. simpl. intros [= <-]. by apply IH.
Qed.

(** The keys that the loop over the targets collects: those it starts
    with, and the neighbours of the targets that the source has. *)
Lemma elem_of_add_neighbours_loop (source_keys : list pystr) (max_context : nat)
    (target_keys result_keys : list pystr) (k : pystr) :
  k ∈ foldl (add_neighbours source_keys max_context) result_keys target_keys
  ↔ k ∈ result_keys
    ∨ ∃ target i j,
        target ∈ target_keys ∧ index_of target source_keys = Some i
        ∧ source_keys !! j = Some k ∧ j ≠ i
        ∧ (i - max_context / 2 ≤ j ≤ i + max_context / 2)%nat.
Proof.
  revert result_keys. induction target_keys as [|t targets IH]; intros result_keys;
    cbn [foldl].
  - split; [by left|]. intros [?|(t & i & j & Hin & _)]; [done|]. by apply elem_of_nil in Hin.
  - rewrite IH. unfold add_neighbours at 1.
    set (half := (max_context / 2)%nat) in *. clearbody half.
    destruct (index_of t source_keys) as [idx|] eqn:Hidx.
    + rewrite !elem_of_app, !elem_of_slice_lookup. split.
      * intros [[Hk|[(j & Hj & Hkj)|(j & Hj & Hkj)]]|(t' & i & j & Hin & Hrest)].
        -- by left.
        -- right. exists t, idx, j. split_and!; [left|done|done|lia..].
        -- right. exists t, idx, j. split_and!; [left|done|done|lia..].
        -- right. exists t', i, j. split; [by right|done].
      * intros [Hk|(t' & i & j & [->|Hin]%elem_of_cons & Hi & Hkj & Hne & Hj)].
        -- by left; left.
        -- left. right. rewrite Hidx in Hi. injection Hi as ->.
           pose proof (lookup_lt_Some _ _ _ Hkj).
           destruct (decide (j < i)%nat); [left|right]; exists j; split; (done || lia).
        -- right. by exists t', i, j.
    + split.
      * intros [Hk|(t' & i & j & Hin & Hrest)]; [by left|].
        right. exists t', i, j. split; [by right|done].
      * intros [Hk|(t' & i & j & [->|Hin]%elem_of_cons & Hi & Hrest)]; [by left|congruence|].
        right. by exists t', i, j.
Qed.

(** The window is cut out of the source: the entries whose keys were
    collected, in the order of the source. *)
Lemma get_context_for_keys_filter (set_order : gset pystr → list pystr)
    (source_dict : dict srcval) (target_keys : list pystr) (max_context : nat) :
  NoDup (dict_keys source_dict) →
  (max_context < length source_dict)%nat →
  get_context_for_keys set_order source_dict target_keys max_context false
  = dict_set CORE_KEYS (Candidates target_keys)
      (filter (fun kv => kv.1 ∈ foldl (add_neighbours (dict_keys source_dict) max_context)
                                   (set_order (list_to_set target_keys)) target_keys)
         source_dict).
Proof.
  intros Hnd Hlen. unfold get_context_for_keys.
  assert (length (dict_keys source_dict) = length source_dict) as Hlk by apply length_fmap.
  rewrite bool_decide_eq_false_2 by lia. f_equal.
  set (result_keys := foldl _ _ target_keys).
  rewrite (unique_keys_loop result_keys (dict_keys source_dict) []);
    [|done|intros; apply not_elem_of_nil].
  rewrite app_nil_l, <- (dict_keys_filter (fun k => k ∈ result_keys)).
  apply (build_result_loop source_dict _ []).
  - eapply sublist_NoDup; [exact Hnd|]. apply fmap_sublist, sublist_filter.
  - intros k _. apply not_elem_of_nil.
  - intros k v [_ Hin]%list_elem_of_filter. by apply dict_get_NoDup.
Qed.

(** X11. For a source with distinct keys that has more than
    [max_context] of them, and any list of target keys,
    [get_context_for_keys] returns a window of the source followed by the
    marker, which lists the target keys as they were given. The window
    holds the entries of the source that lie at most [max_context / 2]
    places away from a target key, in the order of the source, each once;
    so it holds every target key that the source has. A target key that
    the source lacks adds nothing but stays in the marker. *)
Theorem context_window_of_several_targets
    (set_order : gset pystr → list pystr) (source_dict : dict srcval)
    (target_keys : list pystr) (max_context : nat) :
  iteration_order set_order →
  NoDup (dict_keys source_dict) →
  (max_context < length source_dict)%nat →
  ∃ window,
    get_context_for_keys set_order source_dict target_keys max_context false
    = dict_set CORE_KEYS (Candidates target_keys) window
    ∧ window `sublist_of` source_dict
    ∧ (∀ k v, (k, v) ∈ window
              ↔ ∃ target i j,
                  target ∈ target_keys
                  ∧ dict_keys source_dict !! i = Some target
                  ∧ source_dict !! j = Some (k, v)
                  ∧ (i - max_context / 2 ≤ j ≤ i + max_context / 2)%nat)
    ∧ dict_get CORE_KEYS
        (get_context_for_keys set_order source_dict target_keys max_context false)
      = Some (Candidates target_keys)
    ∧ (∀ target, target ∈ target_keys → target ∈ dict_keys source_dict →
                 target ∈ dict_keys window).
Proof.
  intros Hord Hnd Hlen.
  rewrite (get_context_for_keys_filter set_order) by done.
  set (result_keys := foldl _ _ target_keys).
  exists (filter (fun kv => kv.1 ∈ result_keys) source_dict).
  assert (∀ k v, (k, v) ∈ filter (fun kv => kv.1 ∈ result_keys) source_dict
                 ↔ ∃ target i j,
                     target ∈ target_keys
                     ∧ dict_keys source_dict !! i = Some target
                     ∧ source_dict !! j = Some (k, v)
                     ∧ (i - max_context / 2 ≤ j ≤ i + max_context / 2)%nat) as Hwindow.
  { intros k v. rewrite list_elem_of_filter. cbn [fst]. subst result_keys.
    rewrite elem_of_add_neighbours_loop, (iteration_order_elem_of set_order) by done.
    rewrite elem_of_list_to_set. split.
    - intros [[Hk|(t & i & j & Ht & Hi & Hkj & Hne & Hj)] Hin].
      + apply list_elem_of_lookup in Hin as [j Hj]. exists k, j, j.
        split_and!; [done| |done|lia|lia].
        unfold dict_keys. by rewrite list_lookup_fmap, Hj.
      + apply index_of_lookup in Hi.
        assert (source_dict !! j = Some (k, v)) as Hsj.
        { unfold dict_keys in Hkj. rewrite list_lookup_fmap in Hkj.
          destruct (source_dict !! j) as [[k' v']|] eqn:Hsj; [|done].
          simpl in Hkj. injection Hkj as ->. do 2 f_equal.
          assert (dict_get k source_dict = Some v') as Hv'
            by (apply dict_get_NoDup; [done|by eapply list_elem_of_lookup_2]).
          assert (dict_get k source_dict = Some v) as Hv by by apply dict_get_NoDup.
          congruence. }
        exists t, i, j. split_and!; [done..|apply Hj|apply Hj].
    - intros (t & i & j & Ht & Hi & Hkv & Hj).
      split; [|by eapply list_elem_of_lookup_2].
      destruct (decide (j = i)) as [->|Hne].
      + left. unfold dict_keys in Hi. rewrite list_lookup_fmap, Hkv in Hi.
        simpl in Hi. by injection Hi as ->.
      + right. exists t, i, j.
        split_and!; [done|by apply index_of_NoDup| |done|apply Hj|apply Hj].
        unfold dict_keys. by rewrite list_lookup_fmap, Hkv. }
  split_and!.
  - done.
  - apply sublist_filter.
  - exact Hwindow.
  - by rewrite dict_get_dict_set, decide_True.
  - intros target Ht Hin. apply elem_of_dict_keys in Hin as [v Hv].
    apply elem_of_dict_keys. exists v. apply Hwindow.
    apply list_elem_of_lookup in Hv as [i Hi]. exists target, i, i.
    split_and!; [done| |done|lia|lia].
    unfold dict_keys. by rewrite list_lookup_fmap, Hi.
Qed.

Lemma context_window_of_several_targets_witness :
  iteration_order elements
  ∧ NoDup (dict_keys sample_reference)
  ∧ (10 < length sample_reference)%nat
  ∧ ∃ window,
      get_context_for_keys elements sample_reference [py "k10"; py "zz"; py "k13"] 10 false
      = dict_set CORE_KEYS (Candidates [py "k10"; py "zz"; py "k13"]) window
      ∧ window `sublist_of` sample_reference
      ∧ (∀ k v, (k, v) ∈ window
                ↔ ∃ target i j,
                    target ∈ [py "k10"; py "zz"; py "k13"]
                    ∧ dict_keys sample_reference !! i = Some target
                    ∧ sample_reference !! j = Some (k, v)
                    ∧ (i - 10 / 2 ≤ j ≤ i + 10 / 2)%nat)
      ∧ dict_get CORE_KEYS
          (get_context_for_keys elements sample_reference [py "k10"; py "zz"; py "k13"]
             10 false)
        = Some (Candidates [py "k10"; py "zz"; py "k13"])
      ∧ (∀ target, target ∈ [py "k10"; py "zz"; py "k13"] →
                   target ∈ dict_keys sample_reference →
                   target ∈ dict_keys window).
Proof.
  assert (NoDup (dict_keys sample_reference)) as Hnd.
  { apply (bool_decide_unpack (NoDup (dict_keys sample_reference))). vm_compute. exact I. }
  split; [intros X; reflexivity|]. split; [exact Hnd|]. split; [vm_compute; lia|].
  apply (context_window_of_several_targets elements sample_reference
           [py "k10"; py "zz"; py "k13"] 10).
  - intros X. reflexivity.
  - exact Hnd.
  - vm_compute. lia.
Defined.

(** The window of two neighbouring targets and of a key the reference
    lacks. *)
Example context_window_of_k10_and_k13 :
  dict_keys (get_context_for_keys elements sample_reference
               [py "k10"; py "zz"; py "k13"] 10 false)
  = [py "k05"; py "k06"; py "k07"; py "k08"; py "k09"; py "k10"; py "k11"; py "k12";
     py "k13"; py "k14"; py "k15"; py "k16"; py "k17"; py "k18"; CORE_KEYS].
Proof. vm_compute. reflexivity. Qed.

(** ** What the change detector reports *)

Section RenamePass.
Variable deleted_index : gmap pystr KeyChange.
Variable deleted_value_counts : gmap pystr nat.

Local Abbreviation rstep := (rename_step deleted_index deleted_value_counts).

(** A round of the loop over the added keys files the key under the keys
    that stay added or under the modified ones, and uses a deletion that
    was free in the second case. *)
Lemma rename_step_cases (st : rename_state) (a : KeyChange) :
  (rn_added_remaining (rstep st a) = rn_added_remaining st ++ [a]
   ∧ rn_modified (rstep st a) = rn_modified st
   ∧ rn_used_deleted (rstep st a) = rn_used_deleted st)
  ∨ ∃ m k, key m = key a ∧ (k ∉ rn_used_deleted st)
      ∧ rn_added_remaining (rstep st a) = rn_added_remaining st
      ∧ rn_modified (rstep st a) = rn_modified st ++ [m]
      ∧ rn_used_deleted (rstep st a) = {[k]} ∪ rn_used_deleted st.
Proof.
  unfold rename_step.
  destruct (new_value a) as [[v| | |]|]; simpl; auto.
  destruct (deleted_index !! v) as [d|]; simpl; auto.
  case_bool_decide; simpl; auto.
  case_bool_decide; simpl; auto.
  right.
  exists {| key := key a; old_value := old_value d; new_value := Some (JStr v);
            operation := MODIFIED |}, (key d).
  by split_and!.
Qed.

Lemma rename_loop_keys (l : list KeyChange) (st : rename_state) :
  key <$> (rn_added_remaining (foldl rstep st l) ++ rn_modified (foldl rstep st l))
  ≡ₚ (key <$> (rn_added_remaining st ++ rn_modified st)) ++ (key <$> l).
Proof.
  revert st. induction l as [|a l IH]; intros st; simpl.
  - by rewrite app_nil_r.
  - rewrite IH.
    destruct (rename_step_cases st a) as [(-> & -> & _)|(m & k & Hm & _ & -> & -> & _)].
    + rewrite !fmap_app. simpl. solve_Permutation.
    + rewrite !fmap_app. simpl. rewrite Hm. solve_Permutation.
Qed.

Lemma rename_loop_balance (l : list KeyChange) (st : rename_state) :
  (length (rn_added_remaining (foldl rstep st l)) + size (rn_used_deleted (foldl rstep st l))
   = length (rn_added_remaining st) + size (rn_used_deleted st) + length l)%nat
  ∧ (length (rn_modified (foldl rstep st l)) + size (rn_used_deleted st)
     = length (rn_modified st) + size (rn_used_deleted (foldl rstep st l)))%nat.
Proof.
  revert st. induction l as [|a l IH]; intros st; simpl.
  - lia.
  - destruct (IH (rstep st a)) as [IH1 IH2]. rewrite IH1.
    destruct (rename_step_cases st a)
      as [(Ha & Hm & Hu)|(m & k & _ & Hk & Ha & Hm & Hu)];
      rewrite Ha, Hm, Hu in *.
    + rewrite length_app in *. simpl. lia.
    + rewrite length_app in *. rewrite size_union, size_singleton in * by set_solver.
      simpl in *. lia.
Qed.

End RenamePass.

(** Removing from a list with distinct keys the elements whose keys are
    in a set of keys of the list shortens it by the size of the set. *)
Lemma length_filter_not_in {A : Type} (f : A → pystr) (l : list A) (X : gset pystr) :
  NoDup (f <$> l) → (∀ k, k ∈ X → k ∈ f <$> l) →
  (length (filter (fun x => f x ∉ X) l) + size X = length l)%nat.
Proof.
  revert X. induction l as [|x l IH]; intros X Hnd HX.
  - assert (X = ∅) as -> by (apply set_eq; intros k; split; [intros ?%HX|]; set_solver).
    by rewrite size_empty.
  - rewrite fmap_cons in Hnd, HX. apply NoDup_cons in Hnd as [Hx Hnd].
    rewrite filter_cons. destruct (decide (f x ∉ X)) as [Hout|Hin].
    + simpl. rewrite IH; [done|done|]. intros k Hk.
      pose proof (HX k Hk) as [->|?]%elem_of_cons; [done|done].
    + apply dec_stable in Hin.
      assert (filter (fun y => f y ∉ X) l = filter (fun y => f y ∉ X ∖ {[f x]}) l) as ->.
      { apply filter_ext_elem_of. intros y Hy.
        assert (f y ≠ f x) by (intros Heq; apply Hx; rewrite <- Heq; by apply list_elem_of_fmap_2).
        set_solver. }
      assert (size X = S (size (X ∖ {[f x]}))) as ->.
      { rewrite (union_difference_L {[f x]} X) at 1 by set_solver.
        rewrite size_union, size_singleton by set_solver. done. }
      simpl. rewrite Nat.add_succ_r. f_equal. apply IH; [done|].
      intros k [Hk Hne]%elem_of_difference.
      pose proof (HX k Hk) as [->|?]%elem_of_cons; [set_solver|done].
Qed.

(** The rename pass files every added or modified key as added or as
    modified again. *)
Lemma detect_renames_keys (c : key_changes) :
  key <$> (added (detect_renames c) ++ modified (detect_renames c))
  ≡ₚ key <$> (added c ++ modified c).
Proof.
  unfold detect_renames.
  destruct (added c) as [|a0 A] eqn:HA; [simpl; by rewrite HA|].
  destruct (deleted c) as [|d0 D] eqn:HD; [simpl; by rewrite HA|].
  destruct (index_deleted (d0 :: D)) as [deleted_index deleted_value_counts].
  cbn [added modified]. rewrite rename_loop_keys. cbn [rn_added_remaining rn_modified].
  rewrite app_nil_l, fmap_app. solve_Permutation.
Qed.

Lemma detect_renames_deleted (c : key_changes) (d : KeyChange) :
  d ∈ deleted (detect_renames c) → d ∈ deleted c.
Proof.
  unfold detect_renames.
  destruct (added c) as [|a0 A]; [done|].
  destruct (deleted c) as [|d0 D] eqn:HD; [simpl; by rewrite HD|].
  destruct (index_deleted (d0 :: D)). cbn [deleted].
  by intros [_ ?]%list_elem_of_filter.
Qed.

(** Every rename takes one key from the added ones and one from the
    deleted ones, and adds one to the modified ones. *)
Lemma detect_renames_balance (c : key_changes) :
  NoDup (key <$> deleted c) →
  ∃ renamed,
    (length (added (detect_renames c)) + renamed = length (added c))%nat
    ∧ (length (deleted (detect_renames c)) + renamed = length (deleted c))%nat
    ∧ (length (modified (detect_renames c)) = length (modified c) + renamed)%nat.
Proof.
  intros Hnd. unfold detect_renames.
  destruct (added c) as [|a0 A] eqn:HA; [exists 0%nat; simpl; rewrite HA; simpl; lia|].
  destruct (deleted c) as [|d0 D] eqn:HD;
    [exists 0%nat; simpl; rewrite HA, HD; simpl; lia|].
  rewrite <- HA. rewrite <- HD in Hnd |- *. clear HA HD a0 A d0 D.
  destruct (index_deleted (deleted c)) as [deleted_index deleted_value_counts] eqn:Hidx.
  cbn [added deleted modified].
  set (st0 := {| rn_modified := modified c; rn_used_deleted := ∅; rn_added_remaining := [] |}).
  set (st := foldl (rename_step deleted_index deleted_value_counts) st0 (added c)).
  exists (size (rn_used_deleted st)).
  destruct (rename_loop_balance deleted_index deleted_value_counts (added c) st0)
    as [Hadded Hmodified].
  fold st in Hadded, Hmodified. subst st0.
  cbn [rn_added_remaining rn_modified rn_used_deleted length] in Hadded, Hmodified.
  rewrite size_empty in Hadded, Hmodified. split_and!; [lia| |lia].
  apply length_filter_not_in; [done|].
  intros k [Hk|(v & d & Hd & _ & ->)]%rename_loop_used; [set_solver|].
  pose proof (index_deleted_spec (deleted c) v) as Hspec. rewrite Hidx in Hspec.
  destruct Hspec as [Hi _]. destruct (Hi d Hd) as [Hin _]. by apply list_elem_of_fmap_2.
Qed.

Section SnapshotFacts.
Variable set_order : gset pystr → list pystr.
Hypothesis set_order_ok : iteration_order set_order.
Variable old_data new_data : dict json.

Local Abbreviation changed := (fun k => dict_get k old_data ≠ dict_get k new_data).

(** The three lists before the rename pass. *)
Local Abbreviation first_pass :=
  {| added := (fun k => {| key := k; old_value := None; new_value := dict_get k new_data;
                           operation := ADDED |})
                <$> set_order (keyset new_data ∖ keyset old_data);
     deleted := (fun k => {| key := k; old_value := dict_get k old_data; new_value := None;
                             operation := DELETED |})
                  <$> set_order (keyset old_data ∖ keyset new_data);
     modified := (fun k => {| key := k; old_value := dict_get k old_data;
                              new_value := dict_get k new_data; operation := MODIFIED |})
                   <$> filter changed (set_order (keyset old_data ∩ keyset new_data)) |}.

Lemma compare_snapshots_first_pass :
  compare_snapshots set_order old_data new_data = detect_renames first_pass.
Proof. done. Qed.

Lemma first_pass_keys :
  key <$> added first_pass = set_order (keyset new_data ∖ keyset old_data)
  ∧ key <$> deleted first_pass = set_order (keyset old_data ∖ keyset new_data)
  ∧ key <$> modified first_pass
    = filter changed (set_order (keyset old_data ∩ keyset new_data)).
Proof.
  cbn [added deleted modified]. rewrite <- !list_fmap_compose.
  split_and!; apply list_fmap_id.
Qed.

Lemma compare_snapshots_keys :
  key <$> (added (compare_snapshots set_order old_data new_data)
             ++ modified (compare_snapshots set_order old_data new_data))
  ≡ₚ set_order (keyset new_data ∖ keyset old_data)
       ++ filter changed (set_order (keyset old_data ∩ keyset new_data)).
Proof.
  rewrite compare_snapshots_first_pass, detect_renames_keys, fmap_app.
  destruct first_pass_keys as (-> & _ & ->). done.
Qed.

Lemma elem_of_compare_snapshots_keys (k : pystr) :
  k ∈ key <$> (added (compare_snapshots set_order old_data new_data)
                 ++ modified (compare_snapshots set_order old_data new_data))
  ↔ k ∈ dict_keys new_data ∧ dict_get k old_data ≠ dict_get k new_data.
Proof.
  rewrite compare_snapshots_keys, elem_of_app, list_elem_of_filter.
  rewrite !(iteration_order_elem_of set_order) by done.
  rewrite elem_of_difference, elem_of_intersection, !elem_of_keyset. split.
  - intros [[Hnew Hold]|[Hch [Hold Hnew]]]; [|done]. split; [done|].
    apply dict_get_None in Hold. apply dict_get_is_Some in Hnew as [v Hv]. congruence.
  - intros [Hnew Hch]. destruct (decide (k ∈ dict_keys old_data)); [right|left]; done.
Qed.

End SnapshotFacts.

(** X12. The change detector reports every key that needs translating
    exactly once: the keys of the added and of the modified entries
    together are the keys of the new snapshot whose value differs from the
    one of the old snapshot (which may lack the key), each once, whether a
    rename was detected or not. A deleted entry has a key of the old
    snapshot that the new one lacks. Two equal snapshots give three empty
    lists. *)
Theorem changed_keys_are_reported_once
    (set_order : gset pystr → list pystr) (old_data new_data : dict json) :
  iteration_order set_order →
  NoDup (key <$> (added (compare_snapshots set_order old_data new_data)
                    ++ modified (compare_snapshots set_order old_data new_data)))
  ∧ (∀ k, k ∈ key <$> (added (compare_snapshots set_order old_data new_data)
                         ++ modified (compare_snapshots set_order old_data new_data))
          ↔ k ∈ dict_keys new_data ∧ dict_get k old_data ≠ dict_get k new_data)
  ∧ (∀ d, d ∈ deleted (compare_snapshots set_order old_data new_data) →
          key d ∈ dict_keys old_data ∧ key d ∉ dict_keys new_data)
  ∧ (old_data = new_data →
     compare_snapshots set_order old_data new_data
     = {| added := []; deleted := []; modified := [] |}).
Proof.
  intros Hord.
  assert (∀ d, d ∈ deleted (compare_snapshots set_order old_data new_data) →
               key d ∈ dict_keys old_data ∧ key d ∉ dict_keys new_data) as Hdeleted.
  { intros d Hd. rewrite compare_snapshots_first_pass in Hd.
    apply detect_renames_deleted in Hd.
    assert (key d ∈ set_order (keyset old_data ∖ keyset new_data)) as Hk.
    { destruct (first_pass_keys set_order old_data new_data) as (_ & <- & _).
      by apply list_elem_of_fmap_2. }
    apply (iteration_order_elem_of set_order) in Hk; [|done].
    by rewrite elem_of_difference, !elem_of_keyset in Hk. }
  split_and!.
  - rewrite compare_snapshots_keys. apply NoDup_app. split_and!.
    + by apply iteration_order_NoDup.
    + intros k Hnew [_ Hboth]%list_elem_of_filter.
      apply (iteration_order_elem_of set_order) in Hnew, Hboth; [|done..]. set_solver.
    + by apply NoDup_filter, iteration_order_NoDup.
  - intros k. by apply elem_of_compare_snapshots_keys.
  - exact Hdeleted.
  - intros <-. destruct (compare_snapshots set_order old_data old_data) as [A D M] eqn:Hc.
    assert (A ++ M = []) as HAM.
    { destruct (A ++ M) as [|x l] eqn:HAM; [done|].
      assert (key x ∈ key <$> (added (compare_snapshots set_order old_data old_data)
                ++ modified (compare_snapshots set_order old_data old_data))) as Hx.
      { rewrite ?Hc. simpl. rewrite HAM. left. }
      apply elem_of_compare_snapshots_keys in Hx as [_ Hx]; done. }
    apply app_eq_nil in HAM as [-> ->].
    destruct D as [|d D]; [done|].
    destruct (Hdeleted d) as [Hin Hout]; [rewrite ?Hc; left|done].
Qed.

Lemma changed_keys_are_reported_once_witness :
  iteration_order elements
  ∧ NoDup (key <$> (added (compare_snapshots elements
                             [(py "a", JStr (py "Hello")); (py "c", JStr (py "Bye"))]
                             [(py "b", JStr (py "Hello")); (py "c", JStr (py "Goodbye"))])
                      ++ modified (compare_snapshots elements
                                     [(py "a", JStr (py "Hello")); (py "c", JStr (py "Bye"))]
                                     [(py "b", JStr (py "Hello"));
                                      (py "c", JStr (py "Goodbye"))])))
  ∧ (∀ k, k ∈ key <$> (added (compare_snapshots elements
                                [(py "a", JStr (py "Hello")); (py "c", JStr (py "Bye"))]
                                [(py "b", JStr (py "Hello")); (py "c", JStr (py "Goodbye"))])
                         ++ modified (compare_snapshots elements
                                        [(py "a", JStr (py "Hello")); (py "c", JStr (py "Bye"))]
                                        [(py "b", JStr (py "Hello"));
                                         (py "c", JStr (py "Goodbye"))]))
          ↔ k ∈ dict_keys [(py "b", JStr (py "Hello")); (py "c", JStr (py "Goodbye"))]
            ∧ dict_get k [(py "a", JStr (py "Hello")); (py "c", JStr (py "Bye"))]
              ≠ dict_get k [(py "b", JStr (py "Hello")); (py "c", JStr (py "Goodbye"))])
  ∧ (∀ d, d ∈ deleted (compare_snapshots elements
                         [(py "a", JStr (py "Hello")); (py "c", JStr (py "Bye"))]
                         [(py "b", JStr (py "Hello")); (py "c", JStr (py "Goodbye"))]) →
          key d ∈ dict_keys [(py "a", JStr (py "Hello")); (py "c", JStr (py "Bye"))]
          ∧ key d ∉ dict_keys [(py "b", JStr (py "Hello")); (py "c", JStr (py "Goodbye"))])
  ∧ ([(py "a", JStr (py "Hello")); (py "c", JStr (py "Bye"))]
     = [(py "b", JStr (py "Hello")); (py "c", JStr (py "Goodbye"))] →
     compare_snapshots elements
       [(py "a", JStr (py "Hello")); (py "c", JStr (py "Bye"))]
       [(py "b", JStr (py "Hello")); (py "c", JStr (py "Goodbye"))]
     = {| added := []; deleted := []; modified := [] |}).
Proof.
  split; [intros X; reflexivity|].
  apply (changed_keys_are_reported_once elements
           [(py "a", JStr (py "Hello")); (py "c", JStr (py "Bye"))]
           [(py "b", JStr (py "Hello")); (py "c", JStr (py "Goodbye"))]).
  intros X. reflexivity.
Defined.

(** X13. A detected rename pairs one added key with one deleted key and
    records one modification: with [renamed] the number of renames, the
    added entries and the renames are as many as the keys only the new
    snapshot has, the deleted entries and the renames as many as the keys
    only the old snapshot has, and the modified entries are the renames
    and the common keys whose value changed. *)
Theorem renames_pair_additions_with_deletions
    (set_order : gset pystr → list pystr) (old_data new_data : dict json) :
  iteration_order set_order →
  ∃ renamed,
    (length (added (compare_snapshots set_order old_data new_data)) + renamed
     = size (keyset new_data ∖ keyset old_data))%nat
    ∧ (length (deleted (compare_snapshots set_order old_data new_data)) + renamed
       = size (keyset old_data ∖ keyset new_data))%nat
    ∧ (length (modified (compare_snapshots set_order old_data new_data))
       = length (filter (fun k => dict_get k old_data ≠ dict_get k new_data)
                   (elements (keyset old_data ∩ keyset new_data))) + renamed)%nat.
Proof.
  intros Hord. rewrite compare_snapshots_first_pass.
  destruct (first_pass_keys set_order old_data new_data) as (HA & HD & HM).
  apply (f_equal length) in HA as HlA, HD as HlD, HM as HlM.
  rewrite length_fmap in HlA, HlD, HlM.
  edestruct detect_renames_balance as (renamed & Hadded & Hdeleted & Hmodified).
  { rewrite HD. by apply iteration_order_NoDup. }
  exists renamed. rewrite Hadded, Hdeleted, Hmodified, HlA, HlD, HlM.
  unfold size, set_size. simpl. rewrite !(Hord _). done.
Qed.

Lemma renames_pair_additions_with_deletions_witness :
  iteration_order elements
  ∧ ∃ renamed,
      (length (added (compare_snapshots elements
                        [(py "a", JStr (py "Hello")); (py "c", JStr (py "Bye"))]
                        [(py "b", JStr (py "Hello")); (py "c", JStr (py "Goodbye"))]))
       + renamed
       = size (keyset [(py "b", JStr (py "Hello")); (py "c", JStr (py "Goodbye"))]
               ∖ keyset [(py "a", JStr (py "Hello")); (py "c", JStr (py "Bye"))]))%nat
      ∧ (length (deleted (compare_snapshots elements
                            [(py "a", JStr (py "Hello")); (py "c", JStr (py "Bye"))]
                            [(py "b", JStr (py "Hello")); (py "c", JStr (py "Goodbye"))]))
         + renamed
         = size (keyset [(py "a", JStr (py "Hello")); (py "c", JStr (py "Bye"))]
                 ∖ keyset [(py "b", JStr (py "Hello")); (py "c", JStr (py "Goodbye"))]))%nat
      ∧ (length (modified (compare_snapshots elements
                             [(py "a", JStr (py "Hello")); (py "c", JStr (py "Bye"))]
                             [(py "b", JStr (py "Hello")); (py "c", JStr (py "Goodbye"))]))
         = length (filter (fun k => dict_get k [(py "a", JStr (py "Hello"));
                                                (py "c", JStr (py "Bye"))]
                                    ≠ dict_get k [(py "b", JStr (py "Hello"));
                                                  (py "c", JStr (py "Goodbye"))])
                     (elements (keyset [(py "a", JStr (py "Hello")); (py "c", JStr (py "Bye"))]
                                ∩ keyset [(py "b", JStr (py "Hello"));
                                          (py "c", JStr (py "Goodbye"))])))
           + renamed)%nat.
Proof.
  split; [intros X; reflexivity|].
  apply (renames_pair_additions_with_deletions elements
           [(py "a", JStr (py "Hello")); (py "c", JStr (py "Bye"))]
           [(py "b", JStr (py "Hello")); (py "c", JStr (py "Goodbye"))]).
  intros X. reflexivity.
Defined.

(** A renamed key and a changed value: two modified entries, nothing
    added, nothing deleted. *)
Example compare_snapshots_sample :
  compare_snapshots elements
    [(py "a", JStr (py "Hello")); (py "c", JStr (py "Bye"))]
    [(py "b", JStr (py "Hello")); (py "c", JStr (py "Goodbye"))]
  = {| added := []; deleted := [];
       modified := [{| key := py "c"; old_value := Some (JStr (py "Bye"));
                       new_value := Some (JStr (py "Goodbye")); operation := MODIFIED |};
                    {| key := py "b"; old_value := Some (JStr (py "Hello"));
                       new_value := Some (JStr (py "Hello")); operation := MODIFIED |}] |}.
Proof. vm_compute. reflexivity. Qed.

(** ** The sweep only removes, and once is enough *)

Lemma prune_sublist (source_dict : dict srcval) (store : dict json) :
  prune source_dict store `sublist_of` store.
Proof. apply sublist_filter. Qed.

(** X14. The sweep of [perform_cleanup_extra_keys] only removes entries:
    a store after the sweep is a part of the store before, in the same
    order, that still holds every entry whose key the merged reference of
    the namespace has; no store is created or deleted and the source files
    are not touched. Sweeping a second time changes nothing. *)
Theorem cleanup_only_removes_and_is_idempotent
    (all_namespaces target_languages : list pystr) (w : workspace) :
  perform_cleanup_extra_keys all_namespaces target_languages
    (perform_cleanup_extra_keys all_namespaces target_languages w)
  = perform_cleanup_extra_keys all_namespaces target_languages w
  ∧ assets (perform_cleanup_extra_keys all_namespaces target_languages w) = assets w
  ∧ ∀ ns lang,
      match stores w !! (ns, lang) with
      | Some before =>
        ∃ after,
          stores (perform_cleanup_extra_keys all_namespaces target_languages w) !! (ns, lang)
          = Some after
          ∧ after `sublist_of` before
          ∧ ∀ k v, (k, v) ∈ before →
                   k ∈ dict_keys (get_merged_reference_translations (assets w ns)) →
                   (k, v) ∈ after
      | None =>
        stores (perform_cleanup_extra_keys all_namespaces target_languages w) !! (ns, lang)
        = None
      end.
Proof.
  split_and!.
  - assert (∀ w1 w2 : workspace, assets w1 = assets w2 → stores w1 = stores w2 → w1 = w2)
      as Hext by (intros [] []; simpl; congruence).
    apply Hext; [done|]. apply map_eq. intros [ns lang].
    rewrite !perform_cleanup_extra_keys_lookup. simpl.
    case_decide; [|done].
    rewrite <- option_fmap_compose. apply option_fmap_ext. intros d. apply prune_idemp.
  - done.
  - intros ns lang. rewrite perform_cleanup_extra_keys_lookup.
    destruct (stores w !! (ns, lang)) as [before|]; [|by case_decide].
    case_decide; simpl.
    + eexists. split; [done|]. split; [apply prune_sublist|].
      intros k v Hin Hk. apply list_elem_of_filter. split; [|done].
      by apply elem_of_keyset.
    + exists before. by split_and!.
Qed.

(** ** Deleting keys from the stores *)

Lemma delete_keys_filter (keys_to_delete : list pystr) (translations : dict json) :
  (delete_keys keys_to_delete translations).1
  = filter (fun kv => kv.1 ∉ keys_to_delete) translations
  ∧ ((delete_keys keys_to_delete translations).2 = false →
     (delete_keys keys_to_delete translations).1 = translations).
Proof.
  unfold delete_keys.
  assert (∀ acc : dict json * bool,
            (foldl (fun (acc : dict json * bool) key =>
                      if dict_has key acc.1 then (dict_del key acc.1, true) else acc)
               acc keys_to_delete).1
            = filter (fun kv => kv.1 ∉ keys_to_delete) acc.1
            ∧ ((foldl (fun (acc : dict json * bool) key =>
                         if dict_has key acc.1 then (dict_del key acc.1, true) else acc)
                  acc keys_to_delete).2 = false →
               acc.2 = false
               ∧ (foldl (fun (acc : dict json * bool) key =>
                           if dict_has key acc.1 then (dict_del key acc.1, true) else acc)
                    acc keys_to_delete).1 = acc.1)) as Hloop.
  { induction keys_to_delete as [|key keys IH]; intros [t m]; simpl.
    - split; [|done]. symmetry. apply filter_all. intros kv _. apply not_elem_of_nil.
    - destruct (IH (if dict_has key t then (dict_del key t, true) else (t, m)))
        as [IH1 IH2].
      unfold dict_has in *. case_bool_decide as Hkey; simpl in *.
      + split.
        * rewrite IH1. unfold dict_del. rewrite list_filter_filter.
          apply list_filter_iff. intros kv. rewrite not_elem_of_cons. naive_solver.
        * intros Hm. by destruct (IH2 Hm).
      + split.
        * rewrite IH1. apply filter_ext_elem_of. intros [k v] Hin. simpl.
          rewrite not_elem_of_cons. split; [|naive_solver]. intros Hk. split; [|done].
          intros ->. apply Hkey. apply list_elem_of_fmap. by exists (key, v).
        * done. }
  destruct (Hloop (translations, false)) as [H1 H2]. split; [done|].
  intros Hm. by destruct (H2 Hm).
Qed.

Lemma delete_keys_from_store_lookup (namespace : pystr) (keys_to_delete : list pystr)
    (st : gmap (pystr * pystr) (dict json)) (lang_code : pystr) (file : pystr * pystr) :
  delete_keys_from_store namespace keys_to_delete st lang_code !! file
  = if decide (file = (namespace, lang_code))
    then filter (fun kv => kv.1 ∉ keys_to_delete) <$> st !! file
    else st !! file.
Proof.
  unfold delete_keys_from_store.
  destruct (st !! (namespace, lang_code)) as [translations|] eqn:Hst.
  - destruct (delete_keys_filter keys_to_delete translations) as [Hfilter Hsame].
    destruct (delete_keys keys_to_delete translations) as [translations' modified].
    simpl in *. subst translations'.
    destruct translations as [|kv rest] eqn:Ht.
    + case_decide; [|done]. subst. by rewrite Hst.
    + rewrite <- Ht in *. destruct modified.
      * case_decide; subst; [by rewrite lookup_insert_eq, Hst|by rewrite lookup_insert_ne].
      * case_decide; [|done]. subst. rewrite Hst. simpl. by rewrite Hsame.
  - case_decide; [|done]. subst. by rewrite Hst.
Qed.

Lemma delete_keys_from_stores_lookup (namespace : pystr) (keys_to_delete : list pystr)
    (target_languages : list pystr) (st : gmap (pystr * pystr) (dict json))
    (ns lang : pystr) :
  foldl (delete_keys_from_store namespace keys_to_delete) st target_languages !! (ns, lang)
  = if decide (ns = namespace ∧ lang ∈ target_languages)
    then filter (fun kv => kv.1 ∉ keys_to_delete) <$> st !! (ns, lang)
    else st !! (ns, lang).
Proof.
  revert st. induction target_languages as [|l langs IH]; intros st; simpl.
  - case_decide as H; [|done]. destruct H as [_ H]. by apply elem_of_nil in H.
  - rewrite IH, delete_keys_from_store_lookup.
    repeat case_decide; simplify_eq; try done;
      first [ set_solver
            | rewrite <- option_fmap_compose; apply option_fmap_ext; intros d; simpl;
              rewrite list_filter_filter; apply list_filter_iff; naive_solver ].
Qed.

(** X15. After [delete_keys_from_translations] no store of the
    namespace for a language of the catalogue holds one of the keys to
    delete; the other entries of these stores keep their values and their
    order, and the stores of other namespaces and languages are as before.
    No file is created. (Writing a store is taken to succeed.) *)
Theorem deleted_keys_are_gone_from_every_store
    (namespace : pystr) (keys_to_delete target_languages : list pystr) (w : workspace)
    (ns lang : pystr) :
  match stores w !! (ns, lang) with
  | Some before =>
    ∃ after,
      stores (delete_keys_from_translations namespace keys_to_delete target_languages w).1
        !! (ns, lang) = Some after
      ∧ (if decide (ns = namespace ∧ lang ∈ target_languages)
         then after = filter (fun kv => kv.1 ∉ keys_to_delete) before
              ∧ ∀ k, k ∈ keys_to_delete → k ∉ dict_keys after
         else after = before)
  | None =>
    stores (delete_keys_from_translations namespace keys_to_delete target_languages w).1
      !! (ns, lang) = None
  end.
Proof.
  unfold delete_keys_from_translations. cbn [fst stores].
  rewrite delete_keys_from_stores_lookup.
  destruct (stores w !! (ns, lang)) as [before|]; [|by case_decide].
  case_decide; simpl; eexists; (split; [done|]); [|done].
  split; [done|]. intros k Hk. unfold dict_keys. rewrite list_elem_of_fmap.
  intros ([k' v] & -> & [Hout _]%list_elem_of_filter). done.
Qed.

(** ** The changes for missing files *)

(** A list of candidates in the merged reference has two strings at
    least. *)
Lemma merged_reference_candidates (lang_files : list (option (dict pystr)))
    (k : pystr) (l : list pystr) :
  (k, Candidates l) ∈ get_merged_reference_translations lang_files → (2 ≤ length l)%nat.
Proof.
  rewrite get_merged_reference_translations_entries.
  destruct (foldl_merge_entry_merged_so_far (mjoin (omap id lang_files)))
    as (Hnd & _ & Hvals & _).
  intros Hin. apply dict_get_NoDup in Hin; [|done].
  specialize (Hvals k). rewrite Hin in Hvals. by destruct Hvals as (_ & ? & _).
Qed.

(** The entries of the group of a namespace, with the namespace. *)
Local Abbreviation files_of_groups groups :=
  (mbind (M:=list)
     (fun group : pystr * list pystr => (fun lang_code => (group.1, lang_code)) <$> group.2)
     groups).

Lemma files_of_groups_dict_set (groups : dict (list pystr)) (namespace lang_code : pystr) :
  files_of_groups
    (dict_set namespace (default [] (dict_get namespace groups) ++ [lang_code]) groups)
  ≡ₚ files_of_groups groups ++ [(namespace, lang_code)].
Proof.
  induction groups as [|[ns langs] groups IH]; simpl; [done|].
  case_bool_decide as Hns; simpl.
  - subst ns. rewrite fmap_app. simpl. solve_Permutation.
  - etrans; [apply Permutation_app_head, IH|]. by rewrite (assoc_L (++)).
Qed.

Lemma group_by_namespace_files (missing_files : list (pystr * pystr)) :
  files_of_groups (group_by_namespace missing_files) ≡ₚ missing_files.
Proof.
  unfold group_by_namespace.
  induction missing_files as [|[namespace lang_code] missing_files IH] using rev_ind;
    [done|].
  rewrite foldl_snoc. set (groups := foldl _ [] missing_files) in *. cbn beta iota.
  unfold dict_has. case_bool_decide as Hin.
  - by rewrite files_of_groups_dict_set, IH.
  - rewrite files_of_groups_dict_set.
    rewrite dict_set_fresh by done. rewrite bind_app. simpl. by rewrite !app_nil_r, IH.
Qed.

(** The added key that is made of an entry of the reference. *)
Local Abbreviation added_of_entry :=
  (fun entry : pystr * srcval =>
     {| key := entry.1; old_value := None;
        new_value := Some (JStr (reference_value entry.2)); operation := ADDED |}).

(** The change that asks for every key of the reference. *)
Local Abbreviation change_for_missing_file assets :=
  (fun file : pystr * pystr =>
     {| fc_namespace := file.1;
        file_path := virtual_file_path file.1 file.2;
        added_keys := added_of_entry <$> get_merged_reference_translations (assets file.1);
        deleted_keys := [];
        modified_keys := [] |}).

Lemma mapM_added_key_of_entry (source_dict : dict srcval) :
  (∀ k, (k, Candidates []) ∉ source_dict) →
  mapM added_key_of_entry source_dict = Some (added_of_entry <$> source_dict).
Proof.
  intros Hne. apply mapM_Some_2. apply Forall2_fmap_r, Forall_Forall2_diag, Forall_forall.
  intros [k [v|[|v l]]] Hin; simpl; [done| |done]. by destruct (Hne k).
Qed.

Section MissingFiles.
Variable assets : pystr → list (option (dict pystr)).

Local Abbreviation reference namespace := (get_merged_reference_translations (assets namespace)).

Lemma mapM_added_key_of_reference (namespace : pystr) :
  mapM added_key_of_entry (reference namespace) = Some (added_of_entry <$> reference namespace).
Proof.
  apply mapM_added_key_of_entry. intros k Hin.
  apply merged_reference_candidates in Hin. simpl in Hin. lia.
Qed.

Lemma changes_of_group_loop (namespace : pystr) (lang_codes : list pystr)
    (virtual_changes : list FileChanges) :
  foldl (fun acc lang_code =>
           virtual_changes ← acc;
           added_keys ← mapM added_key_of_entry (reference namespace);
           Some (virtual_changes
                   ++ [{| fc_namespace := namespace;
                          file_path := virtual_file_path namespace lang_code;
                          added_keys := added_keys;
                          deleted_keys := [];
                          modified_keys := [] |}]))
    (Some virtual_changes) lang_codes
  = Some (virtual_changes
            ++ ((fun lang_code => change_for_missing_file assets (namespace, lang_code))
                  <$> lang_codes)).
Proof.
  revert virtual_changes. induction lang_codes as [|lang_code lang_codes IH];
    intros virtual_changes; cbn [foldl fmap list_fmap].
  - by rewrite app_nil_r.
  - cbn [mbind option_bind]. rewrite mapM_added_key_of_reference at 1.
    cbn [mbind option_bind]. rewrite IH, <- (assoc_L (++)). done.
Qed.

Lemma changes_of_groups_loop (groups : dict (list pystr))
    (virtual_changes : list FileChanges) :
  foldl (fun acc group =>
           virtual_changes ← acc;
           let '(namespace, lang_codes) := group in
           let source_dict := reference namespace in
           match source_dict with
           | [] => Some virtual_changes
           | _ =>
             foldl (fun acc lang_code =>
                      virtual_changes ← acc;
                      added_keys ← mapM added_key_of_entry source_dict;
                      Some (virtual_changes
                              ++ [{| fc_namespace := namespace;
                                     file_path := virtual_file_path namespace lang_code;
                                     added_keys := added_keys;
                                     deleted_keys := [];
                                     modified_keys := [] |}]))
               (Some virtual_changes) lang_codes
           end) (Some virtual_changes) groups
  = Some (virtual_changes
            ++ (change_for_missing_file assets
                  <$> filter (fun file => reference file.1 ≠ [])
                        (mbind (M:=list)
                           (fun group : pystr * list pystr =>
                              (fun lang_code => (group.1, lang_code)) <$> group.2)
                           groups))).
Proof.
  revert virtual_changes. induction groups as [|[namespace lang_codes] groups IH];
    intros virtual_changes.
  - simpl. by rewrite app_nil_r.
  - assert (∀ (l : dict srcval) (A B : option (list FileChanges)),
              match l with [] => A | _ :: _ => B end = if decide (l = []) then A else B)
      as Hmatch by (by intros []).
    cbn [foldl mbind option_bind]. rewrite bind_cons, filter_app, fmap_app. cbn [fst snd].
    rewrite Hmatch. case_decide as Href.
    + rewrite IH. do 2 f_equal.
      rewrite (filter_none _ ((fun lang_code => (namespace, lang_code)) <$> lang_codes));
        [reflexivity|].
      intros file (lang_code & -> & _)%list_elem_of_fmap. simpl. rewrite Href. by intros ?.
    + rewrite changes_of_group_loop, IH, <- (assoc_L (++)).
      do 3 f_equal.
      rewrite (filter_all _ ((fun lang_code => (namespace, lang_code)) <$> lang_codes)).
      * by rewrite <- list_fmap_compose.
      * by intros file (lang_code & -> & _)%list_elem_of_fmap.
Qed.

End MissingFiles.


(** Two missing files of one namespace and one of a namespace without
    source files. *)
Example changes_for_missing_files_sample :
  (fun fc => (file_path fc, key <$> added_keys fc, new_value <$> added_keys fc))
    <$> default []
          (create_virtual_changes_for_missing_files
             (fun namespace =>
                if bool_decide (namespace = py "demo")
                then [Some [(py "greeting", py "Hello %s"); (py "title", py "E1epack")];
                      Some [(py "greeting", py "Hallo %s")]]
                else [])
             [(py "demo", py "fr_fr"); (py "void", py "fr_fr"); (py "demo", py "de_de")])
  = [(py "demo/fr_fr.json", [py "greeting"; py "title"],
      [Some (JStr (py "Hello %s")); Some (JStr (py "E1epack"))]);
     (py "demo/de_de.json", [py "greeting"; py "title"],
      [Some (JStr (py "Hello %s")); Some (JStr (py "E1epack"))])].
Proof. vm_compute. reflexivity. Qed.

(** ** The changes for missing keys *)

Section MissingKeys.
Variable assets : pystr → list (option (dict pystr)).
Variable files : translate_dir.

Local Abbreviation reference namespace := (get_merged_reference_translations (assets namespace)).

(** The keys of the reference that the file of a language lacks. *)
Local Abbreviation missing_keys namespace lang_code :=
  (filter (fun k => k ∉ keyset (load_namespace_translations_from_translate files namespace
                                  lang_code))
     (dict_keys (reference namespace))).

(** The change for a file that lacks keys, if it does. *)
Local Abbreviation change_for_missing_keys :=
  (fun file : pystr * pystr =>
     if decide (reference file.1 ≠ [] ∧ is_Some (files !! file)
                ∧ missing_keys file.1 file.2 ≠ [])
     then [{| fc_namespace := file.1;
              file_path := virtual_file_path file.1 file.2;
              added_keys := added_key_of_missing (reference file.1)
                              <$> missing_keys file.1 file.2;
              deleted_keys := [];
              modified_keys := [] |}]
     else []).

Lemma missing_keys_of_languages_loop (namespace : pystr) (target_languages : list pystr)
    (virtual_changes : list FileChanges) :
  reference namespace ≠ [] →
  foldl (fun virtual_changes lang_code =>
           match files !! (namespace, lang_code) with
           | None => virtual_changes
           | Some _ =>
             match missing_keys namespace lang_code with
             | [] => virtual_changes
             | _ =>
               virtual_changes
                 ++ [{| fc_namespace := namespace;
                        file_path := virtual_file_path namespace lang_code;
                        added_keys := added_key_of_missing (reference namespace)
                                        <$> missing_keys namespace lang_code;
                        deleted_keys := [];
                        modified_keys := [] |}]
             end
           end) virtual_changes target_languages
  = virtual_changes
      ++ (target_languages ≫= fun lang_code => change_for_missing_keys (namespace, lang_code)).
Proof.
  intros Href. revert virtual_changes.
  induction target_languages as [|lang_code langs IH]; intros virtual_changes.
  - simpl. by rewrite app_nil_r.
  - cbn [foldl]. rewrite IH, bind_cons, (assoc_L (++)). f_equal. cbn [fst snd].
    destruct (files !! (namespace, lang_code)) as [file|] eqn:Hfile.
    + destruct (missing_keys namespace lang_code) as [|k ks] eqn:Hmissing.
      * rewrite decide_False by naive_solver. by rewrite app_nil_r.
      * by rewrite decide_True by naive_solver.
    + rewrite decide_False; [by rewrite app_nil_r|]. intros (_ & [? ?] & _). done.
Qed.

Lemma create_virtual_changes_for_missing_keys_loop (namespaces target_languages : list pystr) :
  create_virtual_changes_for_missing_keys namespaces assets target_languages files
  = namespaces ≫= fun namespace =>
      target_languages ≫= fun lang_code => change_for_missing_keys (namespace, lang_code).
Proof.
  unfold create_virtual_changes_for_missing_keys.
  set (step := fun (virtual_changes : list FileChanges) (namespace : pystr) => _).
  assert (∀ virtual_changes,
            foldl step virtual_changes namespaces
            = virtual_changes
                ++ (namespaces ≫= fun namespace =>
                      target_languages ≫= fun lang_code =>
                        change_for_missing_keys (namespace, lang_code))) as Hloop.
  { induction namespaces as [|namespace namespaces IH]; intros virtual_changes.
    - simpl. by rewrite app_nil_r.
    - cbn [foldl]. rewrite IH, bind_cons, (assoc_L (++)). f_equal. subst step. cbn beta.
      destruct (reference namespace) as [|entry source_dict] eqn:Href.
      + rewrite <- (app_nil_r virtual_changes) at 1. f_equal. symmetry.
        clear IH. induction target_languages as [|lang_code langs IHl]; [done|].
        rewrite bind_cons, IHl, app_nil_r. cbn [fst snd].
        rewrite decide_False; [done|]. rewrite Href. naive_solver.
      + rewrite <- Href. apply missing_keys_of_languages_loop. by rewrite Href. }
  by rewrite Hloop.
Qed.

End MissingKeys.

Lemma added_key_of_missing_reference (source_dict : dict srcval) (k : pystr) (v : srcval) :
  dict_get k source_dict = Some v →
  added_key_of_missing source_dict k
  = {| key := k; old_value := None; new_value := Some (JStr (reference_value v));
       operation := ADDED |}.
Proof.
  intros Hk. unfold added_key_of_missing. rewrite Hk. by destruct v as [s|[|first l]].
Qed.

(** X17. [create_virtual_changes_for_missing_keys] is sound and complete
    for the files that exist. Every change it returns belongs to a
    namespace and a language whose file exists in the translate
    directory, has the path [namespace/lang_code.json], no deleted and no
    modified key, and as added keys, in the order of the reference,
    exactly the keys of the merged reference that the loaded file does not
    hold; there is at least one, each has no old value, the operation
    [ADDED] and the reference value as new value. Conversely every key of
    the reference that an existing file lacks is an added key of a change
    for that file; an unreadable file counts as empty. *)
Theorem missing_keys_are_requested
    (namespaces target_languages : list pystr)
    (assets : pystr → list (option (dict pystr))) (files : translate_dir) :
  (∀ fc,
     fc ∈ create_virtual_changes_for_missing_keys namespaces assets target_languages files →
     ∃ namespace lang_code file,
       namespace ∈ namespaces ∧ lang_code ∈ target_languages
       ∧ files !! (namespace, lang_code) = Some file
       ∧ fc_namespace fc = namespace
       ∧ file_path fc = namespace ++ py "/" ++ lang_code ++ py ".json"
       ∧ deleted_keys fc = [] ∧ modified_keys fc = []
       ∧ added_keys fc ≠ []
       ∧ key <$> added_keys fc
         = filter (fun k => k ∉ dict_keys (load_namespace_translations_from_translate
                                             files namespace lang_code))
             (dict_keys (get_merged_reference_translations (assets namespace)))
       ∧ ∀ a, a ∈ added_keys fc →
              old_value a = None ∧ operation a = ADDED
              ∧ ∃ v, dict_get (key a) (get_merged_reference_translations (assets namespace))
                     = Some v
                     ∧ new_value a = Some (JStr (reference_value v)))
  ∧ (∀ namespace lang_code file k,
       namespace ∈ namespaces → lang_code ∈ target_languages →
       files !! (namespace, lang_code) = Some file →
       k ∈ dict_keys (get_merged_reference_translations (assets namespace)) →
       k ∉ dict_keys (load_namespace_translations_from_translate files namespace lang_code) →
       ∃ fc,
         fc ∈ create_virtual_changes_for_missing_keys namespaces assets target_languages files
         ∧ fc_namespace fc = namespace
         ∧ file_path fc = namespace ++ py "/" ++ lang_code ++ py ".json"
         ∧ k ∈ key <$> added_keys fc).
Proof.
  rewrite create_virtual_changes_for_missing_keys_loop.
  assert (∀ namespace lang_code,
            filter (fun k => k ∉ keyset (load_namespace_translations_from_translate
                                           files namespace lang_code))
              (dict_keys (get_merged_reference_translations (assets namespace)))
            = filter (fun k => k ∉ dict_keys (load_namespace_translations_from_translate
                                                files namespace lang_code))
                (dict_keys (get_merged_reference_translations (assets namespace))))
    as Hfilter.
  { intros namespace lang_code. apply list_filter_iff. intros k. by rewrite elem_of_keyset. }
  split.
  - intros fc (namespace & Hfc & Hns)%list_elem_of_bind.
    apply list_elem_of_bind in Hfc as (lang_code & Hfc & Hlang).
    cbn [fst snd] in Hfc. case_decide as Hcase; [|by apply elem_of_nil in Hfc].
    destruct Hcase as (Href & [file Hfile] & Hmissing).
    apply list_elem_of_singleton in Hfc. subst fc. cbn [fc_namespace file_path added_keys
      deleted_keys modified_keys].
    exists namespace, lang_code, file. split_and!; try done.
    + intros Hnil. apply fmap_nil_inv in Hnil. done.
    + rewrite <- list_fmap_compose, <- Hfilter. apply list_fmap_id.
    + intros a (k & -> & [_ Hk]%list_elem_of_filter)%list_elem_of_fmap.
      apply dict_get_is_Some in Hk as [v Hv].
      rewrite (added_key_of_missing_reference _ k v Hv). simpl.
      split_and!; try done. by exists v.
  - intros namespace lang_code file k Hns Hlang Hfile Hk Hmissing.
    assert (k ∈ filter (fun k => k ∉ keyset (load_namespace_translations_from_translate
                                               files namespace lang_code))
                  (dict_keys (get_merged_reference_translations (assets namespace))))
      as Hin.
    { apply list_elem_of_filter. by rewrite elem_of_keyset. }
    eexists. split_and!.
    + apply list_elem_of_bind. exists namespace. split; [|done].
      apply list_elem_of_bind. exists lang_code. split; [|done].
      cbn [fst snd]. rewrite decide_True; [left|].
      split_and!.
      * intros Href. rewrite Href in Hk. by apply elem_of_nil in Hk.
      * by exists file.
      * intros Hnil. rewrite Hnil in Hin. by apply elem_of_nil in Hin.
    + done.
    + done.
    + cbn [added_keys]. rewrite <- list_fmap_compose.
      apply list_elem_of_fmap. exists k. split; [|done]. done.
Qed.

(** A file that lacks one key of the reference, a complete one, and a
    language without a file. *)
Example changes_for_missing_keys_sample :
  (fun fc => (file_path fc, key <$> added_keys fc, new_value <$> added_keys fc))
    <$> create_virtual_changes_for_missing_keys [py "demo"]
          (fun _ => [Some [(py "greeting", py "Hello %s"); (py "title", py "E1epack")];
                     Some [(py "greeting", py "Hallo %s")]])
          [py "fr_fr"; py "de_de"; py "ja_jp"]
          {[ (py "demo", py "fr_fr") := Holds [(py "title", JStr (py "E1epack"))];
             (py "demo", py "de_de") := Holds [(py "greeting", JStr (py "Hallo %s"));
                                               (py "title", JStr (py "E1epack"))] ]}
  = [(py "demo/fr_fr.json", [py "greeting"], [Some (JStr (py "Hello %s"))])].
Proof. vm_compute. reflexivity. Qed.

(** ** The scan for missing files *)

Lemma check_missing_translation_files_loop (namespaces : list pystr)
    (assets : pystr → list (option (dict pystr))) (target_languages : list pystr)
    (files : translate_dir) :
  check_missing_translation_files namespaces assets target_languages files
  = namespaces ≫= fun namespace =>
      if decide (assets namespace ≠ [])
      then (fun lang_code => (namespace, lang_code))
             <$> filter (fun lang_code => files !! (namespace, lang_code) = None)
                   target_languages
      else [].
Proof.
  unfold check_missing_translation_files.
  set (step := fun (missing_files : list (pystr * pystr)) (namespace : pystr) => _).
  assert (∀ missing_files,
            foldl step missing_files namespaces
            = missing_files
                ++ (namespaces ≫= fun namespace =>
                      if decide (assets namespace ≠ [])
                      then (fun lang_code => (namespace, lang_code))
                             <$> filter (fun lang_code => files !! (namespace, lang_code) = None)
                                   target_languages
                      else [])) as Hloop.
  { induction namespaces as [|namespace namespaces IH]; intros missing_files.
    - simpl. by rewrite app_nil_r.
    - cbn [foldl]. rewrite IH, bind_cons, (assoc_L (++)). f_equal. subst step. cbn beta zeta.
      case_bool_decide as Hassets.
      + rewrite decide_True by done. clear IH. revert missing_files.
        induction target_languages as [|lang_code langs IHl]; intros missing_files.
        * simpl. by rewrite app_nil_r.
        * cbn [foldl]. rewrite IHl, filter_cons.
          destruct (files !! (namespace, lang_code)) as [file|] eqn:Hfile.
          -- by case_decide.
          -- case_decide; [|done]. by rewrite fmap_cons, <- (assoc_L (++)).
      + case_decide; [done|by rewrite app_nil_r]. }
  by rewrite Hloop.
Qed.

Lemma elem_of_check_missing_translation_files (namespaces : list pystr)
    (assets : pystr → list (option (dict pystr))) (target_languages : list pystr)
    (files : translate_dir) (namespace lang_code : pystr) :
  (namespace, lang_code)
    ∈ check_missing_translation_files namespaces assets target_languages files
  ↔ namespace ∈ namespaces ∧ assets namespace ≠ [] ∧ lang_code ∈ target_languages
    ∧ files !! (namespace, lang_code) = None.
Proof.
  rewrite check_missing_translation_files_loop, list_elem_of_bind. split.
  - intros (ns & Hin & Hns). case_decide as Hassets; [|by apply elem_of_nil in Hin].
    apply list_elem_of_fmap in Hin as (lang & [= -> ->] & [Hfile Hlang]%list_elem_of_filter).
    done.
  - intros (Hns & Hassets & Hlang & Hfile). exists namespace. split; [|done].
    rewrite decide_True by done. apply list_elem_of_fmap. exists lang_code.
    split; [done|]. by apply list_elem_of_filter.
Qed.

(** X18. [check_missing_translation_files] lists exactly the pairs of a
    namespace with language files under the assets directory and a target
    language whose file is absent from the translate directory. Fed to
    [create_virtual_changes_for_missing_files], the list gives changes
    that, together with those of [create_virtual_changes_for_missing_keys],
    leave no gap: whenever a key of the merged reference of a namespace
    is not held by the store of a target language, whether the file is
    absent, unreadable or incomplete, some change for that namespace and
    that language's path has the key among its added keys. *)
Theorem every_lacking_key_is_asked_for
    (namespaces target_languages : list pystr)
    (assets : pystr → list (option (dict pystr))) (files : translate_dir) :
  (∀ namespace lang_code,
     (namespace, lang_code)
       ∈ check_missing_translation_files namespaces assets target_languages files
     ↔ namespace ∈ namespaces ∧ assets namespace ≠ [] ∧ lang_code ∈ target_languages
       ∧ files !! (namespace, lang_code) = None)
  ∧ ∃ changes_for_files,
      create_virtual_changes_for_missing_files assets
        (check_missing_translation_files namespaces assets target_languages files)
      = Some changes_for_files
      ∧ ∀ namespace lang_code k,
          namespace ∈ namespaces → lang_code ∈ target_languages →
          k ∈ dict_keys (get_merged_reference_translations (assets namespace)) →
          k ∉ dict_keys (load_namespace_translations_from_translate files namespace
                           lang_code) →
          ∃ fc,
            fc ∈ changes_for_files
                   ++ create_virtual_changes_for_missing_keys namespaces assets
                        target_languages files
            ∧ fc_namespace fc = namespace
            ∧ file_path fc = namespace ++ py "/" ++ lang_code ++ py ".json"
            ∧ k ∈ key <$> added_keys fc.
Proof.
  split; [intros; apply elem_of_check_missing_translation_files|].
  unfold create_virtual_changes_for_missing_files.
  rewrite (changes_of_groups_loop assets). eexists. split; [done|]. rewrite app_nil_l.
  intros namespace lang_code k Hns Hlang Hk Hmissing.
  assert (get_merged_reference_translations (assets namespace) ≠ []) as Href.
  { intros Href. rewrite Href in Hk. by apply elem_of_nil in Hk. }
  destruct (files !! (namespace, lang_code)) as [file|] eqn:Hfile.
  - (* the file exists and lacks the key *)
    rewrite create_virtual_changes_for_missing_keys_loop.
    eexists. split_and!.
    + apply elem_of_app. right.
      apply list_elem_of_bind. exists namespace. split; [|done].
      apply list_elem_of_bind. exists lang_code. split; [|done].
      cbn [fst snd]. rewrite decide_True; [left|].
      split_and!; [done|by exists file|]. intros Hnil.
      assert (k ∈ filter (fun k => k ∉ keyset (load_namespace_translations_from_translate
                                                 files namespace lang_code))
                    (dict_keys (get_merged_reference_translations (assets namespace))))
        as Hin by (apply list_elem_of_filter; by rewrite elem_of_keyset).
      rewrite Hnil in Hin. by apply elem_of_nil in Hin.
    + done.
    + done.
    + cbn [added_keys]. rewrite <- list_fmap_compose.
      apply list_elem_of_fmap. exists k. split; [done|].
      apply list_elem_of_filter. by rewrite elem_of_keyset.
  - (* the file is missing *)
    eexists. split_and!.
    + apply elem_of_app. left. apply list_elem_of_fmap_2.
      apply list_elem_of_filter. split; [|rewrite group_by_namespace_files;
        apply elem_of_check_missing_translation_files; split_and!; try done].
      * done.
      * intros Hassets. apply Href. by rewrite Hassets.
    + done.
    + done.
    + cbn [added_keys]. rewrite <- list_fmap_compose.
      apply elem_of_dict_keys in Hk as [v Hv].
      apply list_elem_of_fmap. by exists (k, v).
Qed.

(** ** The tasks of the differential mode *)

Lemma contains_infix (needle a s : pystr) : contains needle (a ++ needle ++ s) = true.
Proof.
  induction a as [|x a IH]; [exact (contains_prefix needle s)|].
  cbn [app contains]. rewrite IH. apply orb_true_r.
Qed.

Lemma contains_without_head (c : N) (needle s : pystr) :
  c ∉ s → contains (c :: needle) s = false.
Proof.
  intros Hc. rewrite <- (app_nil_r s). by rewrite contains_app_without_head.
Qed.

Lemma endswith_app (p s : pystr) : endswith p (s ++ p) = true.
Proof. unfold endswith. rewrite reverse_app. apply startswith_app. Qed.

Lemma path_name_app (a b : pystr) : SLASH ∉ b → path_name (a ++ SLASH :: b) = b.
Proof.
  intros Hb. induction a as [|x a IH].
  - cbn [app path_name]. rewrite bool_decide_eq_false_2 by done.
    by rewrite bool_decide_eq_true_2.
  - cbn [app path_name]. rewrite bool_decide_eq_true_2; [done|].
    apply elem_of_app. right. left.
Qed.

Lemma fromkeys_spec (keys : list pystr) :
  NoDup (fromkeys keys) ∧ ∀ k, k ∈ fromkeys keys ↔ k ∈ keys.
Proof.
  unfold fromkeys.
  change (dict_of_items ((fun k => (k, tt)) <$> keys))
    with (dict_update [] ((fun k : pystr => (k, tt)) <$> keys)).
  split.
  - apply NoDup_dict_keys_dict_update. constructor.
  - intros k. rewrite dict_keys_dict_update. unfold dict_keys at 1 2.
    rewrite <- list_fmap_compose, list_fmap_id. simpl. rewrite elem_of_nil. tauto.
Qed.

Lemma languages_of_virtual_change (catalogue : dict pystr) (namespace lang_code : pystr) :
  SLASH ∉ lang_code →
  languages_of_change catalogue (namespace ++ py "/" ++ lang_code ++ py ".json")
  = match dict_get lang_code catalogue with
    | Some lang_name => [(lang_code, lang_name)]
    | None => []
    end.
Proof.
  intros Hlang. unfold languages_of_change.
  rewrite contains_infix.
  replace (namespace ++ py "/" ++ lang_code ++ py ".json")
    with ((namespace ++ py "/" ++ lang_code) ++ py ".json")
    by (by rewrite <- !(assoc_L (++))).
  rewrite endswith_app. cbn [andb].
  replace ((namespace ++ py "/" ++ lang_code) ++ py ".json")
    with (namespace ++ SLASH :: (lang_code ++ py ".json"))
    by (by rewrite <- !(assoc_L (++))).
  rewrite path_name_app.
  - rewrite length_app. change (length (py ".json")) with 5%nat.
    replace (length lang_code + 5 - 5)%nat with (length lang_code) by lia.
    by rewrite take_app_length.
  - rewrite elem_of_app. intros [?|Hin]; [done|].
    vm_compute in Hin. by repeat (apply elem_of_cons in Hin as [?|Hin]; [done|]);
      apply elem_of_nil in Hin.
Qed.

Lemma languages_of_git_change (catalogue : dict pystr) (namespace : pystr) :
  SLASH ∉ namespace →
  languages_of_change catalogue (py "virtual:" ++ namespace) = catalogue.
Proof.
  intros Hns. unfold languages_of_change.
  change (py "/") with [SLASH]. rewrite contains_without_head; [done|].
  rewrite elem_of_app. intros [Hin|?]; [|done].
  vm_compute in Hin. by repeat (apply elem_of_cons in Hin as [?|Hin]; [done|]);
    apply elem_of_nil in Hin.
Qed.

(** X19. The tasks one change adds in the differential mode, when the
    namespace has a merged reference and the change lists an added or a
    modified key. A virtual change, whose path is
    [namespace/lang_code.json], is translated into that language only, and
    into none if the catalogue does not have the code; a change read from
    the history, whose path is [virtual:namespace], is translated into
    every language of the catalogue, in its order. Every task carries the
    namespace of the change, each added or modified key once, and the
    translations the file of its language holds when the tasks are
    built. *)
Theorem changes_are_translated_into_their_languages
    (set_order : gset pystr → list pystr)
    (assets : pystr → list (option (dict pystr))) (catalogue : dict pystr)
    (files : translate_dir) (changes : FileChanges) (namespace lang_code : pystr)
    (Hreference : get_merged_reference_translations (assets (fc_namespace changes)) ≠ [])
    (Hkeys : added_keys changes ++ modified_keys changes ≠ [])
    (Hnamespace : SLASH ∉ namespace) (Hlang : SLASH ∉ lang_code) :
  (file_path changes = namespace ++ py "/" ++ lang_code ++ py ".json" →
   (fun task => (task_lang_code task, task_lang_name task))
     <$> tasks_of_change set_order assets catalogue files changes
   = match dict_get lang_code catalogue with
     | Some lang_name => [(lang_code, lang_name)]
     | None => []
     end)
  ∧ (file_path changes = py "virtual:" ++ namespace →
     (fun task => (task_lang_code task, task_lang_name task))
       <$> tasks_of_change set_order assets catalogue files changes
     = catalogue)
  ∧ ∀ task,
      task ∈ tasks_of_change set_order assets catalogue files changes →
      task_namespace task = fc_namespace changes
      ∧ NoDup (task_keys_to_translate task)
      ∧ (∀ k, k ∈ task_keys_to_translate task
              ↔ k ∈ key <$> (added_keys changes ++ modified_keys changes))
      ∧ task_existing_translations task
        = load_namespace_translations_from_translate files (fc_namespace changes)
            (task_lang_code task).
Proof.
  pose proof (fromkeys_spec (key <$> (added_keys changes ++ modified_keys changes)))
    as [Hnd Hin].
  assert (fromkeys (key <$> (added_keys changes ++ modified_keys changes)) ≠ []) as Hne.
  { destruct (added_keys changes ++ modified_keys changes) as [|c l] eqn:Hl; [done|].
    intros Hnil. specialize (Hin (key c)). rewrite Hnil in Hin.
    apply (not_elem_of_nil (key c)), Hin. left. }
  assert (∀ languages,
            languages_of_change catalogue (file_path changes) = languages →
            (fun task => (task_lang_code task, task_lang_name task))
              <$> tasks_of_change set_order assets catalogue files changes
            = languages) as Hlanguages.
  { intros languages <-. unfold tasks_of_change.
    destruct (get_merged_reference_translations _) as [|entry source_dict]; [done|].
    destruct (fromkeys _) as [|k keys]; [done|].
    rewrite <- list_fmap_compose. rewrite <- (list_fmap_id (languages_of_change _ _)) at 2.
    apply list_fmap_ext. by intros i []. }
  split_and!.
  - intros Hpath. apply Hlanguages. rewrite Hpath. by apply languages_of_virtual_change.
  - intros Hpath. apply Hlanguages. rewrite Hpath. by apply languages_of_git_change.
  - intros task. unfold tasks_of_change.
    destruct (get_merged_reference_translations _) as [|entry source_dict]; [done|].
    destruct (fromkeys _) as [|k keys] eqn:Hfrom; [done|].
    intros (lang & -> & _)%list_elem_of_fmap. done.
Qed.

(** Saving after the files, the last task of a pair decides. *)
Lemma save_smart_results_snoc (tasks : list smart_task) (task : smart_task)
    (results : results_by_namespace_and_language) (files : translate_dir) :
  save_smart_results (tasks ++ [task]) results files
  = save_smart_task results (save_smart_results tasks results files) task.
Proof. unfold save_smart_results. by rewrite foldl_snoc. Qed.

(** X20. What the differential mode leaves in the translate directory.
    Every task is saved as the translations it loaded when it was built
    plus those of its own keys that the bucket of its namespace and
    language holds: so when several tasks address one file, the file ends
    as the last of them wrote it, and the keys of the earlier tasks are
    not added to it. A file no task addresses, or whose tasks have no
    bucket, is left as it was. Writing a file is taken to succeed. *)
Theorem smart_save_keeps_the_last_task_of_a_file
    (all_translation_tasks : list smart_task)
    (results : results_by_namespace_and_language) (files : translate_dir)
    (ns lang : pystr) :
  (save_smart_results all_translation_tasks results files).1 !! (ns, lang)
  = match last (filter (fun task => task_namespace task = ns ∧ task_lang_code task = lang)
                  all_translation_tasks),
          result_bucket results ns lang with
    | Some task, Some translated =>
      Some (Holds (dict_update (task_existing_translations task)
                     (restrict_to_keys (task_keys_to_translate task) translated)))
    | _, _ => files !! (ns, lang)
    end.
Proof.
  induction all_translation_tasks as [|task tasks IH] using rev_ind.
  - simpl. by destruct (result_bucket results ns lang).
  - rewrite save_smart_results_snoc, filter_app. unfold save_smart_task at 1.
    rewrite filter_cons, filter_nil.
    case_decide as Htask.
    + destruct Htask as [-> ->]. rewrite last_snoc.
      destruct (result_bucket results _ _) as [translated|] eqn:Hbucket.
      * cbn [fst]. by rewrite lookup_insert_eq.
      * rewrite IH. by destruct (last _).
    + rewrite app_nil_r.
      destruct (result_bucket results (task_namespace task) (task_lang_code task))
        as [translated|]; [|done].
      cbn [fst]. rewrite lookup_insert_ne; [done|].
      intros [= ? ?]. by apply Htask.
Qed.

Lemma changes_are_translated_into_their_languages_witness :
  get_merged_reference_translations (sample_assets (fc_namespace sample_virtual_change)) ≠ []
  ∧ added_keys sample_virtual_change ++ modified_keys sample_virtual_change ≠ []
  ∧ (SLASH ∉ py "demo") ∧ (SLASH ∉ py "fr_fr")
  ∧ (file_path sample_virtual_change = py "demo" ++ py "/" ++ py "fr_fr" ++ py ".json" →
     (fun task => (task_lang_code task, task_lang_name task))
       <$> tasks_of_change elements sample_assets sample_catalogue sample_translate_dir
             sample_virtual_change
     = match dict_get (py "fr_fr") sample_catalogue with
       | Some lang_name => [(py "fr_fr", lang_name)]
       | None => []
       end)
  ∧ (file_path sample_virtual_change = py "virtual:" ++ py "demo" →
     (fun task => (task_lang_code task, task_lang_name task))
       <$> tasks_of_change elements sample_assets sample_catalogue sample_translate_dir
             sample_virtual_change
     = sample_catalogue)
  ∧ ∀ task,
      task ∈ tasks_of_change elements sample_assets sample_catalogue sample_translate_dir
               sample_virtual_change →
      task_namespace task = fc_namespace sample_virtual_change
      ∧ NoDup (task_keys_to_translate task)
      ∧ (∀ k, k ∈ task_keys_to_translate task
              ↔ k ∈ key <$> (added_keys sample_virtual_change
                               ++ modified_keys sample_virtual_change))
      ∧ task_existing_translations task
        = load_namespace_translations_from_translate sample_translate_dir
            (fc_namespace sample_virtual_change) (task_lang_code task).
Proof.
  assert (SLASH ∉ py "demo") as Hns.
  { apply (bool_decide_unpack (SLASH ∉ py "demo")). vm_compute. exact I. }
  assert (SLASH ∉ py "fr_fr") as Hlang.
  { apply (bool_decide_unpack (SLASH ∉ py "fr_fr")). vm_compute. exact I. }
  split; [vm_compute; discriminate|]. split; [vm_compute; discriminate|].
  split; [exact Hns|]. split; [exact Hlang|].
  apply (changes_are_translated_into_their_languages elements sample_assets sample_catalogue
           sample_translate_dir sample_virtual_change (py "demo") (py "fr_fr")).
  - vm_compute. discriminate.
  - vm_compute. discriminate.
  - exact Hns.
  - exact Hlang.
Defined.

(** A commit rewords [title] while the French file lacks [greeting]: both
    changes give a task for French, the fan-in holds both translations,
    and the file that is left has the new key and the old translation of
    the reworded one. *)
Example reworded_key_and_missing_key_sample :
  let tasks :=
    smart_translation_tasks elements sample_assets [(py "fr_fr", py "French (France)")]
      sample_translate_dir [sample_git_change; sample_virtual_change] in
  let results : results_by_namespace_and_language :=
    {[ py "demo" := {[ py "fr_fr" := [(py "title", JStr (py "Nouveau titre"));
                                      (py "greeting", JStr (py "Bonjour"))] ]} ]} in
  (fun task => (task_lang_code task, task_keys_to_translate task)) <$> tasks
  = [(py "fr_fr", [py "title"]); (py "fr_fr", [py "greeting"])]
  ∧ (save_smart_results tasks results sample_translate_dir).1 !! (py "demo", py "fr_fr")
    = Some (Holds [(py "title", JStr (py "Titre")); (py "greeting", JStr (py "Bonjour"))]).
Proof. vm_compute. done. Qed.

(** ** The tasks of the full mode *)

Lemma NoDup_merged_reference (lang_files : list (option (dict pystr))) :
  NoDup (dict_keys (get_merged_reference_translations lang_files)).
Proof.
  rewrite get_merged_reference_translations_entries.
  by destruct (foldl_merge_entry_merged_so_far (mjoin (omap id lang_files))) as (Hnd & _).
Qed.

(** The entries a task of the full mode asks for. *)
Local Abbreviation texts_of force_translate files namespace lang_code source_dict :=
  (if force_translate : bool then source_dict
   else filter (fun kv : pystr * srcval =>
                  kv.1 ∉ dict_keys (load_namespace_translations_from_translate
                                      files namespace lang_code))
          source_dict).

Local Abbreviation task_of force_translate files namespace source_dict lang :=
  (if decide (texts_of force_translate files namespace (fst lang) source_dict = [])
   then []
   else [{| full_namespace := namespace;
            full_lang_code := fst lang;
            full_lang_name := snd lang;
            full_texts := texts_of force_translate files namespace (fst lang) source_dict;
            full_existing_translations :=
              load_namespace_translations_from_translate files namespace (fst lang) |}]).

Lemma full_task_of_language_spec (force_translate : bool) (files : translate_dir)
    (namespace : pystr) (source_dict : dict srcval)
    (all_translation_tasks : list full_task) (lang : pystr * pystr) :
  NoDup (dict_keys source_dict) →
  full_task_of_language force_translate files namespace source_dict all_translation_tasks
    lang
  = all_translation_tasks ++ task_of force_translate files namespace source_dict lang.
Proof.
  intros Hnd. destruct lang as [lang_code lang_name]. unfold full_task_of_language.
  cbn [fst snd].
  set (existing := load_namespace_translations_from_translate files namespace lang_code).
  assert (filter (fun kv : pystr * srcval => negb (dict_has kv.1 existing)) source_dict
          = filter (fun kv : pystr * srcval => kv.1 ∉ dict_keys existing) source_dict)
    as Hfilter.
  { apply list_filter_iff. intros [k v]. unfold dict_has. cbn [fst].
    rewrite negb_True. by rewrite bool_decide_spec. }
  assert (dict_of_items
            (filter (fun kv : pystr * srcval => negb (dict_has kv.1 existing)) source_dict)
          = filter (fun kv : pystr * srcval => kv.1 ∉ dict_keys existing) source_dict)
    as Hitems.
  { rewrite Hfilter. apply dict_of_items_NoDup.
    eapply sublist_NoDup; [exact Hnd|]. apply fmap_sublist, sublist_filter. }
  rewrite Hitems. clear Hitems Hfilter.
  destruct force_translate.
  - cbn [needs_translation negb]. destruct source_dict as [|entry source_dict].
    + rewrite decide_True by done. by rewrite app_nil_r.
    + by rewrite decide_False.
  - unfold needs_translation. fold existing.
    destruct existing as [|held existing'] eqn:Hexisting.
    + cbn [negb]. rewrite filter_all by (intros kv _; apply not_elem_of_nil).
      destruct source_dict as [|entry source_dict].
      * rewrite decide_True by done. by rewrite app_nil_r.
      * by rewrite decide_False.
    + rewrite <- Hexisting. case_bool_decide as Hmissing; cbn [negb].
      * destruct (filter _ source_dict) as [|entry lacking] eqn:Hlacking.
        -- rewrite decide_True by done. by rewrite app_nil_r.
        -- by rewrite decide_False.
      * rewrite filter_none; [rewrite decide_True by done; by rewrite app_nil_r|].
        intros [k v] Hin Hk. cbn [fst] in Hk.
        assert (keyset source_dict ∖ keyset existing = ∅) as Hempty
          by first [exact Hmissing | by apply dec_stable].
        assert (k ∈ keyset source_dict ∖ keyset existing) as Hkin.
        { apply elem_of_difference. rewrite !elem_of_keyset. split; [|done].
          apply elem_of_dict_keys. by exists v. }
        rewrite Hempty in Hkin. by apply elem_of_empty in Hkin.
Qed.

Lemma full_tasks_of_languages_loop (force_translate : bool) (files : translate_dir)
    (namespace : pystr) (source_dict : dict srcval) (catalogue : dict pystr)
    (all_translation_tasks : list full_task) :
  NoDup (dict_keys source_dict) →
  foldl (full_task_of_language force_translate files namespace source_dict)
    all_translation_tasks catalogue
  = all_translation_tasks
      ++ (catalogue ≫= fun lang => task_of force_translate files namespace source_dict lang).
Proof.
  intros Hnd. revert all_translation_tasks.
  induction catalogue as [|lang catalogue IH]; intros tasks.
  - simpl. by rewrite app_nil_r.
  - cbn [foldl]. rewrite IH, full_task_of_language_spec by done.
    by rewrite bind_cons, (assoc_L (++)).
Qed.

Lemma full_translation_tasks_loop (force_translate : bool) (namespaces : list pystr)
    (assets : pystr → list (option (dict pystr))) (catalogue : dict pystr)
    (files : translate_dir) :
  full_translation_tasks force_translate namespaces assets catalogue files
  = namespaces ≫= fun namespace =>
      catalogue ≫= fun lang =>
        task_of force_translate files namespace
          (get_merged_reference_translations (assets namespace)) lang.
Proof.
  unfold full_translation_tasks.
  set (step := fun (all_translation_tasks : list full_task) (namespace : pystr) => _).
  assert (∀ tasks,
            foldl step tasks namespaces
            = tasks ++ (namespaces ≫= fun namespace =>
                          catalogue ≫= fun lang =>
                            task_of force_translate files namespace
                              (get_merged_reference_translations (assets namespace))
                              lang)) as Hloop.
  { induction namespaces as [|namespace namespaces IH]; intros tasks.
    - simpl. by rewrite app_nil_r.
    - cbn [foldl]. rewrite IH, bind_cons, (assoc_L (++)). f_equal. subst step.
      cbn beta zeta.
      pose proof (NoDup_merged_reference (assets namespace)) as Hnd.
      pose proof (full_tasks_of_languages_loop force_translate files namespace
                    (get_merged_reference_translations (assets namespace)) catalogue tasks
                    Hnd) as Hlangs.
      destruct (get_merged_reference_translations (assets namespace))
        as [|entry source_dict] eqn:Hsource; [|exact Hlangs].
      clear. induction catalogue as [|lang catalogue IHc].
      + by rewrite app_nil_r.
      + rewrite bind_cons. rewrite decide_True by (by destruct force_translate).
        exact IHc. }
  by rewrite Hloop.
Qed.

(** X21. The tasks of the full mode, in the order of the namespaces and,
    within a namespace, of the catalogue. Without [FORCE_TRANSLATE] a
    namespace and a language get a task exactly when the merged reference
    has a key that the file of the translate directory does not hold (an
    absent or unreadable file holds none); the task asks for these
    entries, in the order of the reference, and carries what the file
    holds. With [FORCE_TRANSLATE] every language gets a task that asks for
    the whole reference of every namespace that has one. The test of
    [needs_translation] never changes the outcome. *)
Theorem full_mode_asks_for_what_the_store_lacks
    (force_translate : bool) (namespaces : list pystr)
    (assets : pystr → list (option (dict pystr))) (catalogue : dict pystr)
    (files : translate_dir) :
  full_translation_tasks force_translate namespaces assets catalogue files
  = namespaces ≫= fun namespace =>
      catalogue ≫= fun lang =>
        let source_dict := get_merged_reference_translations (assets namespace) in
        let existing := load_namespace_translations_from_translate files namespace lang.1 in
        let texts :=
          if force_translate then source_dict
          else filter (fun kv => kv.1 ∉ dict_keys existing) source_dict in
        if decide (texts = []) then []
        else [{| full_namespace := namespace;
                 full_lang_code := lang.1;
                 full_lang_name := lang.2;
                 full_texts := texts;
                 full_existing_translations := existing |}].
Proof. by rewrite full_translation_tasks_loop. Qed.

Lemma save_full_results_lookup (force_translate : bool) (tasks : list full_task)
    (results : results_by_namespace_and_language) (files : translate_dir)
    (ns lang : pystr) :
  (save_full_results force_translate tasks results files).1 !! (ns, lang)
  = match last (filter (fun task => full_namespace task = ns ∧ full_lang_code task = lang)
                  tasks),
          result_bucket results ns lang with
    | Some task, Some translated_results =>
      Some (Holds (if force_translate then translated_results
                   else dict_update (full_existing_translations task) translated_results))
    | _, _ => files !! (ns, lang)
    end.
Proof.
  induction tasks as [|task tasks IH] using rev_ind.
  - simpl. by destruct (result_bucket results ns lang).
  - unfold save_full_results in *. rewrite foldl_snoc, filter_app.
    unfold save_full_task at 1. rewrite filter_cons, filter_nil.
    case_decide as Htask.
    + destruct Htask as [-> ->]. rewrite last_snoc.
      destruct (result_bucket results _ _) as [translated|] eqn:Hbucket.
      * cbn [fst]. by rewrite lookup_insert_eq.
      * rewrite IH. by destruct (last _).
    + rewrite app_nil_r.
      destruct (result_bucket results (full_namespace task) (full_lang_code task))
        as [translated|]; [|done].
      cbn [fst]. rewrite lookup_insert_ne; [done|].
      intros [= ? ?]. by apply Htask.
Qed.

Lemma elem_of_full_translation_tasks (force_translate : bool) (namespaces : list pystr)
    (assets : pystr → list (option (dict pystr))) (catalogue : dict pystr)
    (files : translate_dir) (task : full_task) :
  task ∈ full_translation_tasks force_translate namespaces assets catalogue files
  ↔ ∃ namespace lang,
      namespace ∈ namespaces ∧ lang ∈ catalogue
      ∧ texts_of force_translate files namespace lang.1
          (get_merged_reference_translations (assets namespace)) ≠ []
      ∧ task = {| full_namespace := namespace;
                  full_lang_code := lang.1;
                  full_lang_name := lang.2;
                  full_texts :=
                    texts_of force_translate files namespace lang.1
                      (get_merged_reference_translations (assets namespace));
                  full_existing_translations :=
                    load_namespace_translations_from_translate files namespace lang.1 |}.
Proof.
  rewrite full_translation_tasks_loop, list_elem_of_bind. split.
  - intros (namespace & (lang & Hin & Hlang)%list_elem_of_bind & Hns).
    case_decide as Htexts; [by apply elem_of_nil in Hin|].
    apply list_elem_of_singleton in Hin. by exists namespace, lang.
  - intros (namespace & lang & Hns & Hlang & Htexts & ->).
    exists namespace. split; [|done]. apply list_elem_of_bind. exists lang.
    split; [|done]. rewrite decide_False by done. by apply list_elem_of_singleton.
Qed.

(** X22. What the full mode leaves in the translate directory. The file
    of a namespace and a language is written exactly when the pair got a
    task (the namespace is listed, the catalogue has the language, and
    there are entries to ask for) and the fan-in has a bucket for it.
    Without [FORCE_TRANSLATE] the file then holds what it held, updated
    with the bucket; with [FORCE_TRANSLATE] it holds the bucket alone, so
    an entry the file held and the bucket lacks is gone. Every other file
    is left as it was. Writing a file is taken to succeed. *)
Theorem full_mode_rewrites_the_files_it_asked_for
    (force_translate : bool) (namespaces : list pystr)
    (assets : pystr → list (option (dict pystr))) (catalogue : dict pystr)
    (files : translate_dir) (results : results_by_namespace_and_language)
    (namespace lang_code : pystr) :
  let source_dict := get_merged_reference_translations (assets namespace) in
  let existing := load_namespace_translations_from_translate files namespace lang_code in
  let texts :=
    if force_translate then source_dict
    else filter (fun kv => kv.1 ∉ dict_keys existing) source_dict in
  (save_full_results force_translate
     (full_translation_tasks force_translate namespaces assets catalogue files)
     results files).1 !! (namespace, lang_code)
  = if decide (namespace ∈ namespaces ∧ lang_code ∈ dict_keys catalogue ∧ texts ≠ [])
    then match result_bucket results namespace lang_code with
         | Some translated_results =>
           Some (Holds (if force_translate then translated_results
                        else dict_update existing translated_results))
         | None => files !! (namespace, lang_code)
         end
    else files !! (namespace, lang_code).
Proof.
  intros source_dict existing texts. rewrite save_full_results_lookup.
  set (tasks := full_translation_tasks force_translate namespaces assets catalogue files).
  destruct (last (filter _ tasks)) as [task|] eqn:Hlast.
  - apply last_Some_elem_of in Hlast.
    apply list_elem_of_filter in Hlast as [[Hns Hlang] Hin].
    apply elem_of_full_translation_tasks in Hin
      as (namespace' & lang & Hns' & Hlang' & Htexts & ->).
    cbn [full_namespace full_lang_code] in Hns, Hlang. subst namespace' lang_code.
    rewrite decide_True; [done|]. split_and!; [done| |done].
    apply elem_of_dict_keys. exists lang.2. by destruct lang.
  - apply last_None in Hlast. rewrite decide_False.
    + by destruct (result_bucket results namespace lang_code).
    + intros (Hns & [lang_name Hlang]%elem_of_dict_keys & Htexts).
      assert ({| full_namespace := namespace;
                 full_lang_code := lang_code;
                 full_lang_name := lang_name;
                 full_texts := texts;
                 full_existing_translations := existing |}
              ∈ filter (fun task => full_namespace task = namespace
                                    ∧ full_lang_code task = lang_code) tasks) as Hin.
      { apply list_elem_of_filter. split; [done|].
        apply elem_of_full_translation_tasks. by exists namespace, (lang_code, lang_name). }
      rewrite Hlast in Hin. by apply elem_of_nil in Hin.
Qed.

(** Under [FORCE_TRANSLATE] the French file, which held [title], is left
    with the one entry the service returned. *)
Example forced_run_drops_what_was_not_returned :
  let results : results_by_namespace_and_language :=
    {[ py "demo" := {[ py "fr_fr" := [(py "greeting", JStr (py "Bonjour"))] ]} ]} in
  (fun task => (full_lang_code task, dict_keys (full_texts task)))
    <$> full_translation_tasks true [py "demo"] sample_assets sample_catalogue
          sample_translate_dir
  = [(py "fr_fr", [py "title"; py "greeting"]); (py "de_de", [py "title"; py "greeting"])]
  ∧ (save_full_results true
       (full_translation_tasks true [py "demo"] sample_assets sample_catalogue
          sample_translate_dir)
       results sample_translate_dir).1 !! (py "demo", py "fr_fr")
    = Some (Holds [(py "greeting", JStr (py "Bonjour"))])
  ∧ (save_full_results false
       (full_translation_tasks false [py "demo"] sample_assets sample_catalogue
          sample_translate_dir)
       results sample_translate_dir).1 !! (py "demo", py "fr_fr")
    = Some (Holds [(py "title", JStr (py "Titre")); (py "greeting", JStr (py "Bonjour"))]).
Proof. vm_compute. done. Qed.

(** ** The changes of the last commit *)

Lemma split_on_cons (sep : N) (s : pystr) : ∃ part parts, split_on sep s = part :: parts.
Proof.
  induction s as [|c s (part & parts & IH)]; [by eexists _, _|].
  simpl. case_bool_decide; [by eexists _, _|]. rewrite IH. by eexists _, _.
Qed.

Lemma split_on_without_sep (sep : N) (s : pystr) : sep ∉ s → split_on sep s = [s].
Proof.
  induction s as [|c s IH]; [done|].
  rewrite not_elem_of_cons. intros [Hne Hs]. simpl.
  rewrite bool_decide_eq_false_2 by done. by rewrite IH.
Qed.

Lemma split_on_app (sep : N) (a b : pystr) :
  split_on sep (a ++ sep :: b) = split_on sep a ++ split_on sep b.
Proof.
  induction a as [|c a IH].
  - simpl. by rewrite bool_decide_eq_true_2.
  - cbn [app split_on]. rewrite IH. case_bool_decide; [done|].
    by destruct (split_on_cons sep a) as (part & parts & ->).
Qed.

(** The last part takes what follows when that holds no separator. *)
Lemma split_on_app_without_sep (sep : N) (a b : pystr) :
  sep ∉ b →
  ∃ parts part,
    split_on sep a = parts ++ [part] ∧ split_on sep (a ++ b) = parts ++ [part ++ b].
Proof.
  intros Hb. induction a as [|c a (parts & part & Ha & Hab)].
  - exists [], []. split; [done|]. simpl. by apply split_on_without_sep.
  - cbn [app split_on]. rewrite Ha, Hab. case_bool_decide.
    + by exists ([] :: parts), part.
    + destruct parts as [|first parts]; simpl.
      * by exists [], (c :: part).
      * by exists ((c :: first) :: parts), part.
Qed.

Lemma startswith_inv (p s : pystr) : startswith p s = true → ∃ b, s = p ++ b.
Proof.
  revert s. induction p as [|x p IH]; intros s; [by exists s|].
  destruct s as [|y s]; [done|]. simpl.
  intros [Hxy Hp]%andb_prop. apply bool_decide_eq_true in Hxy as ->.
  destruct (IH s Hp) as [b ->]. by exists b.
Qed.

Lemma contains_inv (needle s : pystr) :
  contains needle s = true → ∃ a b, s = a ++ needle ++ b.
Proof.
  induction s as [|c s IH].
  - simpl. rewrite orb_false_r. intros [b ->]%startswith_inv. by exists [], b.
  - cbn [contains]. intros [Hs|Hc]%orb_prop.
    + apply startswith_inv in Hs as [b ->]. by exists [], b.
    + destruct (IH Hc) as (a & b & ->). by exists (c :: a), b.
Qed.

Lemma endswith_inv (p s : pystr) : endswith p s = true → ∃ a, s = a ++ p.
Proof.
  unfold endswith. intros [b Hb]%startswith_inv. exists (reverse b).
  apply (inj reverse). by rewrite reverse_app, reverse_involutive.
Qed.

Lemma index_of_None (k : pystr) (l : list pystr) : index_of k l = None ↔ k ∉ l.
Proof.
  induction l as [|x l IH]; simpl.
  - split; [intros _; apply not_elem_of_nil|done].
  - rewrite not_elem_of_cons. case_bool_decide as Hx.
    + split; [done|]. by intros [? _].
    + rewrite fmap_None, IH. split; [|tauto]. intros Hl. split; [|done]. congruence.
Qed.

Lemma index_of_app_fresh (k : pystr) (l1 l2 : list pystr) :
  k ∉ l1 → index_of k (l1 ++ k :: l2) = Some (length l1).
Proof.
  induction l1 as [|x l1 IH]; simpl.
  - intros _. by rewrite bool_decide_eq_true_2.
  - rewrite not_elem_of_cons. intros [Hne Hl1].
    rewrite bool_decide_eq_false_2 by done. by rewrite IH.
Qed.

(** X24. A language file of the source directory is counted under its
    namespace: for a path [prefix/assets/namespace/lang/name.json], where
    no part of the prefix is [assets] and the namespace holds no slash,
    the loop of [get_git_changes] takes [namespace]. The directory of the
    sources, [subprojects/Localization-Resource-Pack], is such a
    prefix. *)
Theorem language_file_is_counted_under_its_namespace
    (prefix namespace name : pystr)
    (Hprefix : py "assets" ∉ split_on SLASH prefix) (Hnamespace : SLASH ∉ namespace) :
  namespace_of_changed_file
    (prefix ++ py "/assets/" ++ namespace ++ py "/lang/" ++ name ++ py ".json")
  = Some namespace.
Proof.
  unfold namespace_of_changed_file.
  rewrite contains_infix.
  replace (prefix ++ py "/assets/" ++ namespace ++ py "/lang/" ++ name ++ py ".json")
    with ((prefix ++ py "/assets/" ++ namespace) ++ py "/lang/" ++ name ++ py ".json")
    at 1 by (by rewrite <- !(assoc_L (++))).
  rewrite contains_infix.
  replace (prefix ++ py "/assets/" ++ namespace ++ py "/lang/" ++ name ++ py ".json")
    with ((prefix ++ py "/assets/" ++ namespace ++ py "/lang/" ++ name) ++ py ".json")
    at 1 by (by rewrite <- !(assoc_L (++))).
  rewrite endswith_app. cbn [negb orb].
  replace (prefix ++ py "/assets/" ++ namespace ++ py "/lang/" ++ name ++ py ".json")
    with (prefix ++ SLASH :: (py "assets"
            ++ SLASH :: (namespace ++ SLASH :: (py "lang/" ++ name ++ py ".json"))))
    by (change (py "/assets/") with (SLASH :: py "assets" ++ [SLASH]);
        change (py "/lang/") with (SLASH :: py "lang/");
        by rewrite <- ?(assoc_L (++))).
  rewrite !split_on_app.
  rewrite (split_on_without_sep SLASH (py "assets")), (split_on_without_sep SLASH namespace);
    [|done|by vm_compute; intros Hin; repeat (apply elem_of_cons in Hin as [?|Hin]; [done|]);
            apply elem_of_nil in Hin].
  cbn [app]. rewrite index_of_app_fresh by done.
  rewrite bool_decide_eq_false_2.
  - rewrite lookup_app_r by lia.
    replace (length (split_on SLASH prefix) + 1 - length (split_on SLASH prefix))%nat
      with 1%nat by lia. done.
  - rewrite length_app. cbn [length]. lia.
Qed.

Lemma language_file_is_counted_under_its_namespace_witness :
  (py "assets" ∉ split_on SLASH (py "subprojects/Localization-Resource-Pack"))
  ∧ (SLASH ∉ py "demo")
  ∧ namespace_of_changed_file
      (py "subprojects/Localization-Resource-Pack" ++ py "/assets/" ++ py "demo"
         ++ py "/lang/" ++ py "en_us" ++ py ".json")
    = Some (py "demo").
Proof.
  assert (py "assets" ∉ split_on SLASH (py "subprojects/Localization-Resource-Pack"))
    as Hprefix.
  { apply (bool_decide_unpack _). vm_compute. exact I. }
  assert (SLASH ∉ py "demo") as Hns.
  { apply (bool_decide_unpack _). vm_compute. exact I. }
  split; [exact Hprefix|]. split; [exact Hns|].
  apply (language_file_is_counted_under_its_namespace
           (py "subprojects/Localization-Resource-Pack") (py "demo") (py "en_us"));
    [exact Hprefix|exact Hns].
Defined.

(** X25. Which changed files [get_git_changes] looks at: exactly those
    whose path contains [/assets/] and [/lang/] and ends in [.json]. The
    two tests that follow in the loop, that a part of the path is
    [assets] and that a part comes after it, never turn a path down. *)
Theorem changed_file_is_kept_iff_it_looks_like_a_language_file (file_path : pystr) :
  is_Some (namespace_of_changed_file file_path)
  ↔ contains (py "/assets/") file_path = true
    ∧ contains (py "/lang/") file_path = true
    ∧ endswith (py ".json") file_path = true.
Proof.
  unfold namespace_of_changed_file.
  destruct (contains (py "/assets/") file_path) eqn:Hassets; cbn [negb orb];
    [|split; [by intros []|by intros [? _]]].
  destruct (contains (py "/lang/") file_path) eqn:Hlang; cbn [negb orb];
    [|split; [by intros []|by intros (_ & ? & _)]].
  destruct (endswith (py ".json") file_path) eqn:Hjson; cbn [negb];
    [|split; [by intros []|by intros (_ & _ & ?)]].
  split; [done|]. intros _.
  (* a part of the path is [assets] *)
  apply contains_inv in Hassets as (a & b & Hpath).
  assert (py "assets" ∈ split_on SLASH file_path) as Hin.
  { rewrite Hpath.
    replace (a ++ py "/assets/" ++ b) with (a ++ SLASH :: (py "assets" ++ SLASH :: b))
      by (change (py "/assets/") with (SLASH :: py "assets" ++ [SLASH]);
          by rewrite <- ?(assoc_L (++))).
    rewrite !split_on_app, (split_on_without_sep SLASH (py "assets")).
    - apply elem_of_app. right. left.
    - vm_compute. intros Hin. repeat (apply elem_of_cons in Hin as [?|Hin]; [done|]).
      by apply elem_of_nil in Hin. }
  destruct (index_of (py "assets") (split_on SLASH file_path)) as [assets_index|] eqn:Hindex;
    [|by apply index_of_None in Hindex].
  apply index_of_lookup in Hindex.
  (* the last part ends in [.json] *)
  apply endswith_inv in Hjson as [stem Hstem].
  destruct (split_on_app_without_sep SLASH stem (py ".json")) as (parts & part & _ & Hparts).
  { vm_compute. intros Hin'. repeat (apply elem_of_cons in Hin' as [?|Hin']; [done|]).
    by apply elem_of_nil in Hin'. }
  rewrite <- Hstem in Hparts. rewrite Hparts in Hindex |- *.
  assert (assets_index < length parts)%nat as Hlt.
  { apply lookup_lt_Some in Hindex as Hlen. rewrite length_app in Hlen. cbn [length] in Hlen.
    destruct (decide (assets_index = length parts)) as [->|]; [|lia].
    rewrite lookup_app_r, Nat.sub_diag in Hindex by lia. injection Hindex as Hlast.
    apply (f_equal reverse) in Hlast. rewrite reverse_app in Hlast.
    vm_compute (reverse (py ".json")) in Hlast. vm_compute (reverse (py "assets")) in Hlast.
    discriminate Hlast. }
  rewrite bool_decide_eq_false_2 by (rewrite length_app; cbn [length]; lia).
  apply lookup_lt_is_Some. rewrite length_app. cbn [length]. lia.
Qed.

(** ** The aggregation of the changes by namespace *)

Lemma fill_bucket_spec (kcs : list KeyChange) (bucket : dict KeyChange) :
  NoDup (dict_keys bucket) →
  (∀ k kc, dict_get k bucket = Some kc → key kc = k) →
  let bucket' := foldl (fun bucket kc => dict_set (key kc) kc bucket) bucket kcs in
  NoDup (dict_keys bucket')
  ∧ (∀ k kc, dict_get k bucket' = Some kc → key kc = k)
  ∧ (∀ k kc, dict_get k bucket' = Some kc → dict_get k bucket = Some kc ∨ kc ∈ kcs)
  ∧ (∀ k, k ∈ dict_keys bucket' ↔ k ∈ dict_keys bucket ∨ k ∈ key <$> kcs).
Proof.
  intros Hnd Hkey. cbn zeta.
  induction kcs as [|kc0 kcs IH] using rev_ind.
  - simpl. split_and!; try done; [by left|]. intros k. rewrite elem_of_nil. tauto.
  - rewrite foldl_snoc. destruct IH as (IHnd & IHkey & IHfrom & IHkeys).
    split_and!.
    + by apply NoDup_dict_keys_dict_set.
    + intros k kc. rewrite dict_get_dict_set. case_decide as Hk; [|by apply IHkey].
      by intros [= <-].
    + intros k kc. rewrite dict_get_dict_set. case_decide as Hk.
      * intros [= <-]. right. apply elem_of_app. right. left.
      * intros [?|?]%IHfrom; [by left|]. right. apply elem_of_app. by left.
    + intros k. rewrite dict_keys_dict_set, IHkeys, fmap_app, elem_of_app.
      cbn [fmap list_fmap]. rewrite list_elem_of_singleton. naive_solver.
Qed.

Lemma bucket_values (bucket : dict KeyChange) :
  (∀ k kc, dict_get k bucket = Some kc → key kc = k) →
  NoDup (dict_keys bucket) →
  key <$> bucket.*2 = dict_keys bucket.
Proof.
  intros Hkey Hnd. unfold dict_keys. rewrite <- list_fmap_compose.
  apply list_fmap_ext. intros i [k kc] Hi. cbn.
  apply Hkey, dict_get_NoDup; [done|]. by apply list_elem_of_lookup_2 in Hi.
Qed.

Section GitChangesFacts.
Variable set_order : gset pystr → list pystr.
Variable json_loads : pystr → json_document.
Variable old_show new_file : pystr → option snapshot.

Local Abbreviation key_changes_of file_path :=
  (get_file_key_changes set_order json_loads (old_show file_path) (new_file file_path)).
Local Abbreviation aggregate_file' := (aggregate_file set_order json_loads old_show new_file).

(** What holds of the buckets when the files [files] have gone through
    the loop. *)
Lemma aggregate_loop_spec (files : list pystr) :
  let aggregated := foldl aggregate_file' [] files in
  NoDup (dict_keys aggregated)
  ∧ (∀ ns bucket,
       dict_get ns aggregated = Some bucket →
       NoDup (dict_keys bucket.1) ∧ NoDup (dict_keys bucket.2)
       ∧ (∀ k kc, dict_get k bucket.1 = Some kc →
                  key kc = k
                  ∧ ∃ f changes, f ∈ files ∧ namespace_of_changed_file f = Some ns
                                 ∧ key_changes_of f = Some changes ∧ kc ∈ added changes)
       ∧ (∀ k kc, dict_get k bucket.2 = Some kc →
                  key kc = k
                  ∧ ∃ f changes, f ∈ files ∧ namespace_of_changed_file f = Some ns
                                 ∧ key_changes_of f = Some changes ∧ kc ∈ modified changes))
  ∧ (∀ f ns changes,
       f ∈ files → namespace_of_changed_file f = Some ns → key_changes_of f = Some changes →
       ∃ bucket,
         dict_get ns aggregated = Some bucket
         ∧ (∀ kc, kc ∈ added changes → key kc ∈ dict_keys bucket.1)
         ∧ (∀ kc, kc ∈ modified changes → key kc ∈ dict_keys bucket.2)).
Proof.
  cbn zeta. induction files as [|f0 files IH] using rev_ind.
  - simpl. split_and!; [constructor|done|]. intros f ns changes Hf. by apply elem_of_nil in Hf.
  - rewrite foldl_snoc. destruct IH as (IHnd & IHsound & IHcomplete).
    set (aggregated := foldl aggregate_file' [] files) in *.
    assert (∀ f, f ∈ files → f ∈ files ++ [f0]) as Hmono
      by (intros f Hf; apply elem_of_app; by left).
    assert (f0 ∈ files ++ [f0]) as Hf0 by (apply elem_of_app; right; left).
    unfold aggregate_file at 1 2 3.
    destruct (namespace_of_changed_file f0) as [n|] eqn:Hn;
      [destruct (key_changes_of f0) as [changes0|] eqn:Hchanges|].
    + (* the file adds to the buckets of [n] *)
      set (aggregated' := if dict_has n aggregated then aggregated
                          else dict_set n ([], []) aggregated).
      assert (NoDup (dict_keys aggregated')) as Hnd'.
      { subst aggregated'. destruct (dict_has n aggregated); [done|].
        by apply NoDup_dict_keys_dict_set. }
      assert (default ([], []) (dict_get n aggregated')
              = default ([], []) (dict_get n aggregated)) as ->.
      { subst aggregated'. destruct (dict_has n aggregated) eqn:Hhas; [done|].
        rewrite dict_get_dict_set, decide_True by done.
        apply bool_decide_eq_false in Hhas. apply dict_get_None in Hhas. by rewrite Hhas. }
      assert (∀ ns, ns ≠ n → dict_get ns aggregated' = dict_get ns aggregated) as Hother.
      { intros ns Hns. subst aggregated'. destruct (dict_has n aggregated); [done|].
        rewrite dict_get_dict_set. by rewrite decide_False. }
      set (bucket := default ([], []) (dict_get n aggregated)).
      assert (NoDup (dict_keys bucket.1) ∧ NoDup (dict_keys bucket.2)
              ∧ (∀ k kc, dict_get k bucket.1 = Some kc →
                         key kc = k
                         ∧ ∃ f changes, f ∈ files ∧ namespace_of_changed_file f = Some n
                                        ∧ key_changes_of f = Some changes
                                        ∧ kc ∈ added changes)
              ∧ (∀ k kc, dict_get k bucket.2 = Some kc →
                         key kc = k
                         ∧ ∃ f changes, f ∈ files ∧ namespace_of_changed_file f = Some n
                                        ∧ key_changes_of f = Some changes
                                        ∧ kc ∈ modified changes))
        as (Hnda & Hndm & Ha & Hm).
      { subst bucket. destruct (dict_get n aggregated) as [b|] eqn:Hb.
        - by apply IHsound.
        - simpl. split_and!; [constructor|constructor|done|done]. }
      destruct (fill_bucket_spec (added changes0) bucket.1 Hnda (fun k kc H => proj1 (Ha k kc H)))
        as (Hnda' & Hkeya' & Hfroma' & Hkeysa').
      destruct (fill_bucket_spec (modified changes0) bucket.2 Hndm
                  (fun k kc H => proj1 (Hm k kc H)))
        as (Hndm' & Hkeym' & Hfromm' & Hkeysm').
      split_and!.
      * by apply NoDup_dict_keys_dict_set.
      * intros ns b. rewrite dict_get_dict_set. case_decide as Hns.
        -- subst ns. intros [= <-]. cbn [fst snd]. split_and!; [done|done| |].
           ++ intros k kc Hk. split; [by apply Hkeya'|].
              apply Hfroma' in Hk as [Hk|Hk].
              ** destruct (Ha k kc Hk) as (_ & f & changes & ? & ? & ? & ?).
                 exists f, changes. auto.
              ** by exists f0, changes0.
           ++ intros k kc Hk. split; [by apply Hkeym'|].
              apply Hfromm' in Hk as [Hk|Hk].
              ** destruct (Hm k kc Hk) as (_ & f & changes & ? & ? & ? & ?).
                 exists f, changes. auto.
              ** by exists f0, changes0.
        -- rewrite Hother by done. intros Hb.
           destruct (IHsound ns b Hb) as (? & ? & Hba & Hbm). split_and!; [done|done| |].
           ++ intros k kc Hk. destruct (Hba k kc Hk) as (? & f & changes & ? & ? & ? & ?).
              split; [done|]. exists f, changes. auto.
           ++ intros k kc Hk. destruct (Hbm k kc Hk) as (? & f & changes & ? & ? & ? & ?).
              split; [done|]. exists f, changes. auto.
      * intros f ns changes [Hf| ->%list_elem_of_singleton]%elem_of_app Hns Hch.
        -- destruct (IHcomplete f ns changes Hf Hns Hch) as (b & Hb & Hadded & Hmodified).
           rewrite dict_get_dict_set. case_decide as Hnsn.
           ++ subst ns. eexists. split; [done|]. cbn [fst snd].
              assert (bucket = b) as Hbb by (subst bucket; by rewrite Hb).
              split; intros kc Hkc; [apply Hkeysa'|apply Hkeysm']; left; rewrite Hbb; auto.
           ++ rewrite Hother by done. by exists b.
        -- rewrite Hn in Hns. injection Hns as <-. rewrite Hchanges in Hch.
           injection Hch as <-. rewrite dict_get_dict_set, decide_True by done.
           eexists. split; [done|]. cbn [fst snd].
           split; intros kc Hkc; [apply Hkeysa'|apply Hkeysm']; right;
             by apply list_elem_of_fmap_2.
    + (* the changes of the file cannot be read *)
      split_and!; [done| |].
      * intros ns b Hb. destruct (IHsound ns b Hb) as (? & ? & Hba & Hbm).
        split_and!; [done|done| |].
        -- intros k kc Hk. destruct (Hba k kc Hk) as (? & f & changes & ? & ? & ? & ?).
           split; [done|]. exists f, changes. auto.
        -- intros k kc Hk. destruct (Hbm k kc Hk) as (? & f & changes & ? & ? & ? & ?).
           split; [done|]. exists f, changes. auto.
      * intros f ns changes [Hf| ->%list_elem_of_singleton]%elem_of_app Hns Hch.
        -- by apply (IHcomplete f).
        -- congruence.
    + (* the file is passed over *)
      split_and!; [done| |].
      * intros ns b Hb. destruct (IHsound ns b Hb) as (? & ? & Hba & Hbm).
        split_and!; [done|done| |].
        -- intros k kc Hk. destruct (Hba k kc Hk) as (? & f & changes & ? & ? & ? & ?).
           split; [done|]. exists f, changes. auto.
        -- intros k kc Hk. destruct (Hbm k kc Hk) as (? & f & changes & ? & ? & ? & ?).
           split; [done|]. exists f, changes. auto.
      * intros f ns changes [Hf| ->%list_elem_of_singleton]%elem_of_app Hns Hch.
        -- by apply (IHcomplete f).
        -- congruence.
Qed.

(** The change of a namespace, if one of its buckets holds a key. *)
Local Abbreviation change_of_buckets entry :=
  (match (snd entry).1.*2, (snd entry).2.*2 with
   | [], [] => []
   | _, _ =>
     [{| fc_namespace := fst entry;
         file_path := py "virtual:" ++ fst entry;
         added_keys := (snd entry).1.*2;
         deleted_keys := [];
         modified_keys := (snd entry).2.*2 |}]
   end).

Lemma get_git_changes_loop (stdout : pystr) :
  get_git_changes set_order json_loads old_show new_file (Some stdout)
  = foldl aggregate_file' [] (changed_files stdout)
      ≫= fun entry : pystr * buckets => change_of_buckets entry.
Proof.
  unfold get_git_changes.
  generalize (foldl aggregate_file' [] (changed_files stdout)). intros aggregated.
  set (step := fun (file_changes : list FileChanges) (entry : pystr * buckets) => _).
  assert (∀ file_changes,
            foldl step file_changes aggregated
            = file_changes
                ++ (aggregated ≫= fun entry : pystr * buckets => change_of_buckets entry))
    as Hloop.
  { induction aggregated as [|entry aggregated IH]; intros file_changes.
    - simpl. by rewrite app_nil_r.
    - cbn [foldl]. rewrite IH, bind_cons, (assoc_L (++)). f_equal. subst step.
      cbn beta zeta. destruct (entry.2.1.*2), (entry.2.2.*2); try done.
      by rewrite app_nil_r. }
  by rewrite Hloop.
Qed.

Lemma elem_of_get_git_changes (stdout : pystr) (fc : FileChanges) :
  fc ∈ get_git_changes set_order json_loads old_show new_file (Some stdout)
  ↔ ∃ bucket,
      dict_get (fc_namespace fc) (foldl aggregate_file' [] (changed_files stdout))
      = Some bucket
      ∧ bucket.1.*2 ++ bucket.2.*2 ≠ []
      ∧ fc = {| fc_namespace := fc_namespace fc;
                file_path := py "virtual:" ++ fc_namespace fc;
                added_keys := bucket.1.*2;
                deleted_keys := [];
                modified_keys := bucket.2.*2 |}.
Proof.
  rewrite get_git_changes_loop.
  destruct (aggregate_loop_spec (changed_files stdout)) as (Hnd & _).
  cbn zeta in Hnd. rewrite list_elem_of_bind. split.
  - intros ([ns bucket] & Hfc & Hin). cbn [fst snd] in Hfc.
    apply dict_get_NoDup in Hin; [|done].
    destruct (bucket.1.*2) as [|a added] eqn:Ha, (bucket.2.*2) as [|m modified] eqn:Hm;
      [by apply elem_of_nil in Hfc|..];
      apply list_elem_of_singleton in Hfc; subst fc; cbn [fc_namespace];
      exists bucket; rewrite Ha, Hm; done.
  - intros (bucket & Hget & Hne & Hfc). exists (fc_namespace fc, bucket).
    split; [|by apply dict_get_Some_elem_of]. cbn [fst snd].
    destruct (bucket.1.*2) as [|a added] eqn:Ha, (bucket.2.*2) as [|m modified] eqn:Hm;
      [done|..]; rewrite Hfc; cbn [fc_namespace]; by apply list_elem_of_singleton.
Qed.

Lemma get_git_changes_namespaces (stdout : pystr) :
  fc_namespace <$> get_git_changes set_order json_loads old_show new_file (Some stdout)
  `sublist_of` dict_keys (foldl aggregate_file' [] (changed_files stdout)).
Proof.
  rewrite get_git_changes_loop.
  generalize (foldl aggregate_file' [] (changed_files stdout)). intros aggregated.
  induction aggregated as [|entry aggregated IH]; [done|].
  rewrite bind_cons, fmap_app. unfold dict_keys. rewrite fmap_cons.
  destruct (entry.2.1.*2), (entry.2.2.*2); cbn [fmap list_fmap app fc_namespace];
    first [by apply sublist_cons | by apply sublist_skip].
Qed.

(** X23. What [get_git_changes] returns for the files that
    [git diff --name-only] lists; when git fails it returns nothing. The
    changes come one per namespace, each namespace at most once, with the
    path [virtual:namespace]; none carries a deleted key, each carries at
    least one added or modified key, and no key twice among the added
    nor twice among the modified. Every key change returned was found in
    a listed file of that namespace, and every added or modified key
    found in a listed file is returned, under its key, with the
    namespace of the file. *)
Theorem git_changes_are_gathered_by_namespace (stdout : pystr) :
  let file_changes :=
    get_git_changes set_order json_loads old_show new_file (Some stdout) in
  get_git_changes set_order json_loads old_show new_file None = []
  ∧ NoDup (fc_namespace <$> file_changes)
  ∧ (∀ fc,
       fc ∈ file_changes →
       file_path fc = py "virtual:" ++ fc_namespace fc
       ∧ deleted_keys fc = []
       ∧ added_keys fc ++ modified_keys fc ≠ []
       ∧ NoDup (key <$> added_keys fc) ∧ NoDup (key <$> modified_keys fc)
       ∧ (∀ kc, kc ∈ added_keys fc →
                ∃ f changes,
                  f ∈ changed_files stdout
                  ∧ namespace_of_changed_file f = Some (fc_namespace fc)
                  ∧ key_changes_of f = Some changes ∧ kc ∈ added changes)
       ∧ (∀ kc, kc ∈ modified_keys fc →
                ∃ f changes,
                  f ∈ changed_files stdout
                  ∧ namespace_of_changed_file f = Some (fc_namespace fc)
                  ∧ key_changes_of f = Some changes ∧ kc ∈ modified changes))
  ∧ (∀ f ns changes kc,
       f ∈ changed_files stdout → namespace_of_changed_file f = Some ns →
       key_changes_of f = Some changes → kc ∈ added changes ++ modified changes →
       ∃ fc,
         fc ∈ file_changes ∧ fc_namespace fc = ns
         ∧ (kc ∈ added changes → key kc ∈ key <$> added_keys fc)
         ∧ (kc ∈ modified changes → key kc ∈ key <$> modified_keys fc)).
Proof.
  cbn zeta.
  destruct (aggregate_loop_spec (changed_files stdout)) as (Hnd & Hsound & Hcomplete).
  cbn zeta in Hnd, Hsound, Hcomplete.
  split_and!.
  - done.
  - eapply sublist_NoDup; [exact Hnd|]. apply get_git_changes_namespaces.
  - intros fc (bucket & Hget & Hne & Hfc)%elem_of_get_git_changes.
    destruct (Hsound _ _ Hget) as (Hnda & Hndm & Ha & Hm).
    rewrite Hfc. cbn [file_path fc_namespace deleted_keys added_keys modified_keys].
    split_and!; try done.
    + rewrite bucket_values; [done| |done]. intros k kc Hk. by apply Ha.
    + rewrite bucket_values; [done| |done]. intros k kc Hk. by apply Hm.
    + intros kc (entry & -> & Hin)%list_elem_of_fmap. destruct entry as [k kc].
      apply dict_get_NoDup in Hin; [|done]. by apply (Ha k kc).
    + intros kc (entry & -> & Hin)%list_elem_of_fmap. destruct entry as [k kc].
      apply dict_get_NoDup in Hin; [|done]. by apply (Hm k kc).
  - intros f ns changes kc Hf Hns Hchanges Hkc.
    destruct (Hcomplete f ns changes Hf Hns Hchanges) as (bucket & Hget & Hadded & Hmodified).
    destruct (Hsound _ _ Hget) as (Hnda & Hndm & Ha & Hm).
    assert (key <$> bucket.1.*2 = dict_keys bucket.1) as Hka
      by (apply bucket_values; [|done]; intros k' kc' Hk'; by apply Ha).
    assert (key <$> bucket.2.*2 = dict_keys bucket.2) as Hkm
      by (apply bucket_values; [|done]; intros k' kc' Hk'; by apply Hm).
    exists {| fc_namespace := ns;
              file_path := py "virtual:" ++ ns;
              added_keys := bucket.1.*2;
              deleted_keys := [];
              modified_keys := bucket.2.*2 |}.
    cbn [fc_namespace added_keys modified_keys]. rewrite Hka, Hkm. split_and!; [|done|auto..].
    apply elem_of_get_git_changes. exists bucket. cbn [fc_namespace].
    split_and!; [done| |done].
    intros [Hnila Hnilm]%app_eq_nil.
    apply elem_of_app in Hkc as [Hkc|Hkc].
    + apply Hadded in Hkc. rewrite <- Hka, Hnila in Hkc. by apply elem_of_nil in Hkc.
    + apply Hmodified in Hkc. rewrite <- Hkm, Hnilm in Hkc. by apply elem_of_nil in Hkc.
Qed.

End GitChangesFacts.

(** A commit that touches a language file of [demo] and a file outside
    the assets: the one key whose value differs comes back as modified,
    under the namespace. *)
Example get_git_changes_sample :
  get_git_changes elements sample_json_loads
    (fun _ => Some (SnapshotText sample_document_without_placeholder))
    (fun _ => Some (SnapshotText sample_document))
    (Some (py "subprojects/Localization-Resource-Pack/assets/demo/lang/en_us.json"
             ++ [NEWLINE] ++ py "README.md" ++ [NEWLINE]))
  = [{| fc_namespace := py "demo";
        file_path := py "virtual:demo";
        added_keys := [];
        deleted_keys := [];
        modified_keys := [{| key := py "greeting";
                             old_value := Some (JStr (py "Bonjour"));
                             new_value := Some (JStr (py "Bonjour %s"));
                             operation := MODIFIED |}] |}].
Proof. vm_compute. reflexivity. Qed.

(** The namespace is the part that follows the first part [assets]. *)
Example namespace_after_the_first_assets_part :
  namespace_of_changed_file (py "assets/tools/assets/demo/lang/en_us.json")
  = Some (py "tools").
Proof. vm_compute. reflexivity. Qed.

(** ** The clean-up of the reply *)

Lemma lstrip_spaces (ws s : pystr) :
  Forall (fun c => is_space c = true) ws → lstrip (ws ++ s) = lstrip s.
Proof.
  induction 1 as [|c ws Hc _ IH]; [done|]. cbn [app lstrip]. by rewrite Hc.
Qed.

Lemma lstrip_stripped (c : N) (s : pystr) : is_space c = false → lstrip (c :: s) = c :: s.
Proof. intros Hc. cbn [lstrip]. by rewrite Hc. Qed.

Lemma strip_between_spaces (ws1 ws2 middle : pystr) (first last : N) :
  Forall (fun c => is_space c = true) ws1 → Forall (fun c => is_space c = true) ws2 →
  is_space first = false → is_space last = false →
  strip (ws1 ++ (first :: middle ++ [last]) ++ ws2) = first :: middle ++ [last].
Proof.
  intros Hws1 Hws2 Hfirst Hlast. unfold strip.
  rewrite lstrip_spaces by done. cbn [app]. rewrite lstrip_stripped by done.
  change (first :: (middle ++ [last]) ++ ws2) with ((first :: middle ++ [last]) ++ ws2).
  rewrite reverse_app, lstrip_spaces by (by apply Forall_reverse).
  rewrite reverse_cons, reverse_app. cbn [reverse app]. rewrite reverse_singleton.
  cbn [app]. rewrite lstrip_stripped by done.
  rewrite reverse_cons, reverse_app, reverse_involutive. by rewrite reverse_singleton.
Qed.

Lemma startswith_other_head (a b : N) (p s : pystr) :
  a ≠ b → startswith (a :: p) (b :: s) = false.
Proof. intros Hab. cbn [startswith]. by rewrite bool_decide_eq_false_2. Qed.

Lemma startswith_app_same (p q s : pystr) :
  startswith (p ++ q) (p ++ s) = startswith q s.
Proof.
  induction p as [|a p IH]; [done|]. cbn [app startswith].
  by rewrite bool_decide_eq_true_2.
Qed.

Lemma endswith_other_last (a b : N) (p s : pystr) :
  a ≠ b → endswith (p ++ [a]) (s ++ [b]) = false.
Proof.
  intros Hab. unfold endswith. rewrite !reverse_app, !reverse_singleton.
  by apply startswith_other_head.
Qed.

Lemma space_is_no_backtick (c : N) : is_space c = true → c ≠ 96.
Proof. intros Hc ->. by vm_compute in Hc. Qed.

Lemma space_is_no_j (c : N) : is_space c = true → c ≠ 106.
Proof. intros Hc ->. by vm_compute in Hc. Qed.

(** What follows the opening fence does not begin another one, nor does
    it begin with [json]. *)
Lemma startswith_after_fence (c : N) (p ws rest : pystr) :
  Forall (fun c => is_space c = true) ws →
  (∀ x, is_space x = true → c ≠ x) → c ≠ 123 →
  startswith (c :: p) (ws ++ 123 :: rest) = false.
Proof.
  intros Hws Hc Hbrace. destruct Hws as [|x ws Hx _]; cbn [app].
  - by apply startswith_other_head.
  - apply startswith_other_head. by apply Hc.
Qed.

Lemma clean_content_unfenced (ws1 ws4 middle : pystr) :
  Forall (fun c => is_space c = true) ws1 → Forall (fun c => is_space c = true) ws4 →
  clean_content (ws1 ++ (123 :: middle ++ [125]) ++ ws4) = 123 :: middle ++ [125].
Proof.
  intros H1 H4. unfold clean_content.
  rewrite (strip_between_spaces ws1 ws4 middle 123 125) by done.
  change (py "```json") with (96 :: py "``json").
  change (py "```") with (96 :: py "``").
  rewrite startswith_other_head by done.
  rewrite startswith_other_head by done.
  change (96 :: py "``") with (py "``" ++ [96]).
  change (123 :: middle ++ [125]) with ((123 :: middle) ++ [125]).
  rewrite endswith_other_last by done.
  pose proof (strip_between_spaces [] [] middle 123 125) as Hstrip.
  rewrite app_nil_l, app_nil_r in Hstrip. by apply Hstrip.
Qed.

Lemma clean_content_fenced (tag ws1 ws2 ws3 ws4 middle : pystr) :
  tag = [] ∨ tag = py "json" →
  Forall (fun c => is_space c = true) ws1 → Forall (fun c => is_space c = true) ws2 →
  Forall (fun c => is_space c = true) ws3 → Forall (fun c => is_space c = true) ws4 →
  clean_content (ws1 ++ (py "```" ++ tag) ++ ws2 ++ (123 :: middle ++ [125]) ++ ws3
                   ++ py "```" ++ ws4)
  = 123 :: middle ++ [125].
Proof.
  intros Htag H1 H2 H3 H4. unfold clean_content.
  set (inner := ws2 ++ (123 :: middle ++ [125]) ++ ws3).
  assert (strip (ws1 ++ (py "```" ++ tag) ++ ws2 ++ (123 :: middle ++ [125]) ++ ws3
                   ++ py "```" ++ ws4)
          = py "```" ++ tag ++ inner ++ py "```") as ->.
  { transitivity (strip (ws1 ++ (96 :: (py "``" ++ tag ++ inner ++ py "``") ++ [96]) ++ ws4)).
    - f_equal. f_equal. subst inner.
      change (py "```") with [96; 96; 96]. change (py "``") with [96; 96].
      repeat (rewrite <- ?(assoc_L (++)); cbn [app]). done.
    - rewrite strip_between_spaces by done.
      change (py "```") with [96; 96; 96]. change (py "``") with [96; 96].
      repeat (rewrite <- ?(assoc_L (++)); cbn [app]). done. }
  assert (startswith (py "```") (inner ++ py "```") = false) as Hinner.
  { subst inner. rewrite <- (assoc_L (++)). cbn [app].
    change (py "```") with (96 :: py "``") at 1.
    apply startswith_after_fence; [done| |done].
    intros x Hx <-. by vm_compute in Hx. }
  assert (endswith (py "```") (inner ++ py "```") = true) as Hend by apply endswith_app.
  assert (take (length (inner ++ py "```") - 3) (inner ++ py "```") = inner) as Htake.
  { rewrite length_app. change (length (py "```")) with 3%nat.
    replace (length inner + 3 - 3)%nat with (length inner) by lia.
    by rewrite take_app_length. }
  assert (strip inner = 123 :: middle ++ [125]) as Hstrip
    by (by apply strip_between_spaces).
  destruct Htag as [->| ->].
  - (* the bare fence *)
    rewrite app_nil_l.
    assert (startswith (py "```json") (py "```" ++ inner ++ py "```") = false) as ->.
    { change (py "```json") with (py "```" ++ py "json").
      rewrite startswith_app_same.
      subst inner. rewrite <- (assoc_L (++)). cbn [app].
      change (py "json") with (106 :: py "son").
      apply startswith_after_fence; [done| |done].
      intros x Hx <-. by vm_compute in Hx. }
    rewrite startswith_app.
    change (drop 3 (py "```" ++ inner ++ py "```")) with (inner ++ py "```").
    by rewrite Hend, Htake.
  - (* the fence with the tag *)
    change (py "```" ++ py "json" ++ inner ++ py "```")
      with (py "```json" ++ inner ++ py "```").
    rewrite startswith_app.
    change (drop 7 (py "```json" ++ inner ++ py "```")) with (inner ++ py "```").
    by rewrite Hinner, Hend, Htake.
Qed.

(** X26. The clean-up brings a reply that is a JSON object back to the
    object itself, whatever white space surrounds it, whether the model
    sent it bare, inside a fence that opens with three backticks and
    [json], or inside a fence of three backticks alone; white space
    between the fences and the object is dropped as well. *)
Theorem fenced_reply_is_unwrapped (ws1 ws2 ws3 ws4 middle : pystr)
    (H1 : Forall (fun c => is_space c = true) ws1)
    (H2 : Forall (fun c => is_space c = true) ws2)
    (H3 : Forall (fun c => is_space c = true) ws3)
    (H4 : Forall (fun c => is_space c = true) ws4) :
  clean_content (ws1 ++ (py "{" ++ middle ++ py "}") ++ ws4) = py "{" ++ middle ++ py "}"
  ∧ clean_content (ws1 ++ py "```json" ++ ws2 ++ (py "{" ++ middle ++ py "}") ++ ws3
                     ++ py "```" ++ ws4)
    = py "{" ++ middle ++ py "}"
  ∧ clean_content (ws1 ++ py "```" ++ ws2 ++ (py "{" ++ middle ++ py "}") ++ ws3
                     ++ py "```" ++ ws4)
    = py "{" ++ middle ++ py "}".
Proof.
  split_and!.
  - exact (clean_content_unfenced ws1 ws4 middle H1 H4).
  - exact (clean_content_fenced (py "json") ws1 ws2 ws3 ws4 middle (or_intror eq_refl)
             H1 H2 H3 H4).
  - exact (clean_content_fenced [] ws1 ws2 ws3 ws4 middle (or_introl eq_refl)
             H1 H2 H3 H4).
Qed.

Lemma fenced_reply_is_unwrapped_witness :
  Forall (fun c => is_space c = true) []
  ∧ Forall (fun c => is_space c = true) [10]
  ∧ Forall (fun c => is_space c = true) [10]
  ∧ Forall (fun c => is_space c = true) [32; 10]
  ∧ clean_content ([] ++ (py "{" ++ ([QUOTE] ++ py "k" ++ [QUOTE] ++ py ": 1") ++ py "}")
                      ++ [32; 10])
    = py "{" ++ ([QUOTE] ++ py "k" ++ [QUOTE] ++ py ": 1") ++ py "}"
  ∧ clean_content ([] ++ py "```json" ++ [10]
                      ++ (py "{" ++ ([QUOTE] ++ py "k" ++ [QUOTE] ++ py ": 1") ++ py "}")
                      ++ [10] ++ py "```" ++ [32; 10])
    = py "{" ++ ([QUOTE] ++ py "k" ++ [QUOTE] ++ py ": 1") ++ py "}"
  ∧ clean_content ([] ++ py "```" ++ [10]
                      ++ (py "{" ++ ([QUOTE] ++ py "k" ++ [QUOTE] ++ py ": 1") ++ py "}")
                      ++ [10] ++ py "```" ++ [32; 10])
    = py "{" ++ ([QUOTE] ++ py "k" ++ [QUOTE] ++ py ": 1") ++ py "}".
Proof.
  assert (Forall (fun c => is_space c = true) [10]) as Hnl by (by repeat constructor).
  assert (Forall (fun c => is_space c = true) [32; 10]) as Hsp by (by repeat constructor).
  split; [constructor|]. split; [exact Hnl|]. split; [exact Hnl|]. split; [exact Hsp|].
  apply (fenced_reply_is_unwrapped [] [10] [10] [32; 10]
           ([QUOTE] ++ py "k" ++ [QUOTE] ++ py ": 1"));
    [constructor|exact Hnl|exact Hnl|exact Hsp].
Defined.

(** A reply that opens a fence with the tag and does not close it keeps
    nothing of the fence; one that opens with the tag alone, without a
    line break before three more backticks, loses those as well. *)
Example clean_content_of_half_a_fence :
  clean_content (py "```json" ++ [10] ++ py "{}") = py "{}"
  ∧ clean_content (py "```json```{}") = py "{}".
Proof. vm_compute. done. Qed.
